(** * Flexutils TensorFlow toolkit: HetSIREN and ReconSIREN networks

    A shallow embedding of the numerical core of
    [tensorflow_toolkit/networks/het_siren.py] and
    [tensorflow_toolkit/networks/reconsiren.py], the properties of it that
    the specification states, and further properties that the code shows.

    Tensors are lists (a batch is the outer list).  A float32 entry is a
    value of [tfloat]: a finite value carrying an exact real number, one of
    the two infinities, or NaN.  The special values follow IEEE-754 (what
    TensorFlow and NumPy compute); rounding, overflow and the sign of zero
    are not modelled. *)

From Stdlib Require Import String.
From Stdlib Require Import Reals Lra Lia ZArith List Bool Arith.
Import ListNotations.

Open Scope R_scope.

(** ** Decidable comparisons on reals, as booleans *)

Definition Rltb (x y : R) : bool := if Rlt_dec x y then true else false.
Definition Rleb (x y : R) : bool := if Rle_dec x y then true else false.
Definition Reqb (x y : R) : bool := if Req_dec_T x y then true else false.

(** ** Float values *)

Inductive tfloat : Type :=
| Fin (r : R)
| PInf
| NInf
| NaN.

Definition is_finite (x : tfloat) : Prop :=
  match x with Fin _ => True | _ => False end.

Definition is_nan (x : tfloat) : bool :=
  match x with NaN => true | _ => false end.

(** [r * inf] for a finite [r]: the sign of [r] decides, and [0 * inf] is NaN.
    The same rule gives [r / 0]. *)
Definition inf_of_sign (r : R) : tfloat :=
  if Rltb 0 r then PInf else if Rltb r 0 then NInf else NaN.

Definition tadd (x y : tfloat) : tfloat :=
  match x, y with
  | NaN, _ | _, NaN => NaN
  | Fin a, Fin b => Fin (a + b)
  | PInf, NInf | NInf, PInf => NaN
  | PInf, _ | _, PInf => PInf
  | NInf, _ | _, NInf => NInf
  end.

Definition topp (x : tfloat) : tfloat :=
  match x with
  | Fin a => Fin (- a)
  | PInf => NInf
  | NInf => PInf
  | NaN => NaN
  end.

Definition tsub (x y : tfloat) : tfloat := tadd x (topp y).

Definition tmul (x y : tfloat) : tfloat :=
  match x, y with
  | NaN, _ | _, NaN => NaN
  | Fin a, Fin b => Fin (a * b)
  | Fin a, PInf | PInf, Fin a => inf_of_sign a
  | Fin a, NInf | NInf, Fin a => inf_of_sign (- a)
  | PInf, PInf | NInf, NInf => PInf
  | PInf, NInf | NInf, PInf => NInf
  end.

Definition tdiv (x y : tfloat) : tfloat :=
  match x, y with
  | NaN, _ | _, NaN => NaN
  | Fin a, Fin b => if Reqb b 0 then inf_of_sign a else Fin (a / b)
  | Fin _, PInf | Fin _, NInf => Fin 0
  | PInf, Fin b => if Rltb b 0 then NInf else PInf
  | NInf, Fin b => if Rltb b 0 then PInf else NInf
  | _, _ => NaN
  end.

(** [tf.abs] *)
Definition tabs (x : tfloat) : tfloat :=
  match x with
  | Fin a => Fin (Rabs a)
  | PInf | NInf => PInf
  | NaN => NaN
  end.

(** [tf.less], [tf.less_equal] and NumPy's [<], [>=]: false on NaN. *)
Definition tless (x y : tfloat) : bool :=
  match x, y with
  | NaN, _ | _, NaN => false
  | Fin a, Fin b => Rltb a b
  | Fin _, PInf => true
  | Fin _, NInf => false
  | PInf, _ => false
  | NInf, NInf => false
  | NInf, _ => true
  end.

Definition tless_equal (x y : tfloat) : bool :=
  match x, y with
  | NaN, _ | _, NaN => false
  | Fin a, Fin b => Rleb a b
  | Fin _, PInf => true
  | Fin _, NInf => false
  | PInf, PInf => true
  | PInf, _ => false
  | NInf, _ => true
  end.

Definition tgreater_equal (x y : tfloat) : bool := tless_equal y x.

(** Equality with zero as [tf.math.divide_no_nan] tests it. *)
Definition tis_zero (x : tfloat) : bool :=
  match x with Fin a => Reqb a 0 | _ => false end.

(** [tf.math.divide_no_nan(x, y)]: 0 where [y] is 0, [x / y] elsewhere. *)
Definition divide_no_nan (x y : tfloat) : tfloat :=
  if tis_zero y then Fin 0 else tdiv x y.

(** [tf.cast] of a boolean and of a size to float32. *)
Definition tcast_bool (b : bool) : tfloat := if b then Fin 1 else Fin 0.
Definition tcast_nat (n : nat) : tfloat := Fin (INR n).

(** [tf.reduce_sum] and [tf.reduce_mean] over all the entries of a flat
    tensor.  The mean is the sum divided by the entry count, so the mean of an
    empty tensor is [0 / 0]. *)
Definition reduce_sum (t : list tfloat) : tfloat := fold_left tadd t (Fin 0).

Definition reduce_mean (t : list tfloat) : tfloat :=
  tdiv (reduce_sum t) (tcast_nat (List.length t)).

(** [tf.boolean_mask(t, mask)] on flattened tensors of one shape. *)
Definition boolean_mask {A : Type} (t : list A) (mask : list bool) : list A :=
  map fst (filter snd (combine t mask)).

(** Element-wise binary operation on two tensors of one shape. *)
Definition map2 {A B C : Type} (f : A -> B -> C) (xs : list A) (ys : list B) : list C :=
  map (fun p => f (fst p) (snd p)) (combine xs ys).

(** [tf.sqrt], [tf.exp] and [tf.acos]: NaN outside the domain. *)
Definition tsqrt (x : tfloat) : tfloat :=
  match x with
  | Fin a => if Rltb a 0 then NaN else Fin (sqrt a)
  | PInf => PInf
  | NInf | NaN => NaN
  end.

Definition texp (x : tfloat) : tfloat :=
  match x with
  | Fin a => Fin (exp a)
  | PInf => PInf
  | NInf => Fin 0
  | NaN => NaN
  end.

Definition tacos (x : tfloat) : tfloat :=
  match x with
  | Fin a => if Rleb (-1) a && Rleb a 1 then Fin (acos a) else NaN
  | _ => NaN
  end.

(** [tf.clip_by_value(x, lo, hi)] *)
Definition tclip (x lo hi : tfloat) : tfloat :=
  match x with
  | NaN => NaN
  | _ => if tless x lo then lo else if tless hi x then hi else x
  end.

(** Minimum of two entries, as [tf.reduce_min] over a stacked pair takes it:
    NaN when one of the two is NaN. *)
Definition tmin (x y : tfloat) : tfloat :=
  if is_nan x || is_nan y then NaN
  else if tless y x then y else x.

(** [tf.round]: to the nearest integer, halves to the even neighbour. *)
Definition round_half_even (r : R) : Z :=
  let f := Zfloor r in
  let d := r - IZR f in
  if Rltb d (1 / 2) then f
  else if Rltb (1 / 2) d then (f + 1)%Z
  else if Z.even f then f else (f + 1)%Z.

Definition tround (x : tfloat) : tfloat :=
  match x with
  | Fin a => Fin (IZR (round_half_even a))
  | _ => x
  end.

(** [tf.cast(x, tf.int32)]: truncation towards zero.  The cast of a
    non-finite value is not defined by TensorFlow; the smallest int32 stands
    for it.  Wrap-around of values beyond the int32 range is not modelled. *)
Definition tcast_int32 (x : tfloat) : Z :=
  match x with
  | Fin a => if Rleb 0 a then Zfloor a else Zceil a
  | _ => (-2147483648)%Z
  end.

(** Dot product of two vectors, and matrices as lists of rows. *)
Definition dot (a b : list tfloat) : tfloat := reduce_sum (map2 tmul a b).

Definition column (j : nat) (m : list (list tfloat)) : list tfloat :=
  map (fun row => nth j row (Fin 0)) m.

Definition transpose3 (m : list (list tfloat)) : list (list tfloat) :=
  [column 0 m; column 1 m; column 2 m].

(** [tf.matmul(a, b)] with [b] of three columns. *)
Definition matmul3 (a b : list (list tfloat)) : list (list tfloat) :=
  map (fun row => map (fun col => dot row col) (transpose3 b)) a.

(** Map with the position of each element. *)
Definition mapi {A B : Type} (f : nat -> A -> B) (l : list A) : list B :=
  map (fun p => f (fst p) (snd p)) (combine (seq 0 (List.length l)) l).

(** [tf.where(mask, a, b)] along the batch axis. *)
Definition where_ {A : Type} (mask : list bool) (a b : list A) : list A :=
  map2 (fun (m : bool) p => if m then fst p else snd p) mask (combine a b).

(** [tf.zeros] and [np.zeros], flattened. *)
Definition zeros (n : nat) : list tfloat := repeat (Fin 0) n.

(** A 2D image (rows of pixels) and a flattened cubic volume. *)
Definition Image : Type := list (list tfloat).
Definition Volume : Type := list tfloat.

(** ** Python exceptions *)

Inductive PyError : Type :=
| ValueError (msg : string)
| UnboundLocalError (name : string)
| IndexError
| ZeroDivisionError
| InvalidArgumentError.

Inductive result (A : Type) : Type :=
| Ok (a : A)
| Raise (e : PyError).

Arguments Ok {A} a.
Arguments Raise {A} e.

Definition bind {A B : Type} (r : result A) (k : A -> result B) : result B :=
  match r with
  | Ok a => k a
  | Raise e => Raise e
  end.

Notation "'let*' x ':=' r 'in' k" := (bind r (fun x => k))
  (at level 10, x pattern, r at level 100, k at level 200).

(** Overwrite position [n] of a list (the position is in range at every use). *)
Fixpoint list_set {A : Type} (n : nat) (v : A) (l : list A) : list A :=
  match l, n with
  | [], _ => []
  | _ :: t, O => v :: t
  | h :: t, S n' => h :: list_set n' v t
  end.

(** Run [f] on every element in turn, stopping at the first exception. *)
Fixpoint for_each {A B : Type} (f : A -> result B) (l : list A) : result (list B) :=
  match l with
  | [] => Ok []
  | a :: l' =>
      let* b := f a in
      let* bs := for_each f l' in
      Ok (b :: bs)
  end.

(** * het_siren.py *)

Module HetSiren.

(** ** The data generator

    The generator object owns the coordinate grid, the reference density and
    the per-particle metadata, and the network code writes the fields of the
    current batch onto it.  Its class is not part of the network files; the
    fields below are the ones the network code reads and writes. *)

Record Generator : Type := mkGenerator {
  (* coordinate grid and reference density *)
  coords : list (list tfloat);
  indices : list (Z * Z * Z);
  values : list tfloat;
  xsize : nat;
  step : Z;
  (* per-particle metadata *)
  angle_rot : list tfloat;
  angle_tilt : list tfloat;
  angle_psi : list tfloat;
  shift_x : list tfloat;
  shift_y : list tfloat;
  (* fields of the current batch *)
  indexes : list nat;
  current_images : list Image;
  rot_batch : list tfloat;
  tilt_batch : list tfloat;
  psi_batch : list tfloat;
  shifts_batch : list tfloat * list tfloat;
  ctf : list Image;
  CTF : option string
}.

Definition set_coords (g : Generator) (c : list (list tfloat)) : Generator :=
  mkGenerator c (indices g) (values g) (xsize g) (step g)
    (angle_rot g) (angle_tilt g) (angle_psi g) (shift_x g) (shift_y g)
    (indexes g) (current_images g) (rot_batch g) (tilt_batch g) (psi_batch g)
    (shifts_batch g) (ctf g) (CTF g).

Definition set_CTF (g : Generator) (m : option string) : Generator :=
  mkGenerator (coords g) (indices g) (values g) (xsize g) (step g)
    (angle_rot g) (angle_tilt g) (angle_psi g) (shift_x g) (shift_y g)
    (indexes g) (current_images g) (rot_batch g) (tilt_batch g) (psi_batch g)
    (shifts_batch g) (ctf g) m.

(** [tf.gather(params, indexes, axis=0)] *)
Definition gather (params : list tfloat) (idx : list nat) : list tfloat :=
  map (fun i => nth i params (Fin 0)) idx.

(** The block of [train_step], [test_step] and [predict_step] that stores
    the batch on the generator: indexes, images, alignments, shifts and the
    batch CTF (computed by [computeCTF] from the defocus metadata). *)
Definition prepare_batch (g : Generator) (idx : list nat) (images : list Image)
    (batch_ctf : list Image) : Generator :=
  mkGenerator (coords g) (indices g) (values g) (xsize g) (step g)
    (angle_rot g) (angle_tilt g) (angle_psi g) (shift_x g) (shift_y g)
    idx images
    (gather (angle_rot g) idx) (gather (angle_tilt g) idx) (gather (angle_psi g) idx)
    (gather (shift_x g) idx, gather (shift_y g) idx)
    batch_ctf (CTF g).

(** ** Losses of [train_step] and [test_step] *)

(** [delta_het = decode_het(het) + values[None, :]]: the corrected density.
    Every decoded row has one entry per voxel. *)
Definition delta_het_of (decoded : list (list tfloat)) (vals : list tfloat)
    : list (list tfloat) :=
  map (fun row => map2 tadd row vals) decoded.

(** The negative-loss block:
<<
    mask = tf.less(delta_het, 0.0)
    delta_neg = tf.boolean_mask(delta_het, mask)
    delta_neg_size = tf.cast(tf.shape(delta_neg)[-1], dtype=tf.float32)
    delta_neg = tf.reduce_mean(tf.abs(delta_neg))
    neg_loss_het = self.l1_lambda * delta_neg / delta_neg_size
>> *)
Definition neg_loss_het (l1_lambda : tfloat) (delta_het : list (list tfloat)) : tfloat :=
  let mask := map (map (fun x => tless x (Fin 0))) delta_het in
  let delta_neg := boolean_mask (concat delta_het) (concat mask) in
  let delta_neg_size := tcast_nat (List.length delta_neg) in
  let delta_neg_mean := reduce_mean (map tabs delta_neg) in
  tdiv (tmul l1_lambda delta_neg_mean) delta_neg_size.

(** [train_step] computes the penalty on every batch. *)
Definition train_step_neg_loss (l1_lambda : tfloat) (decoded : list (list tfloat))
    (vals : list tfloat) : tfloat :=
  neg_loss_het l1_lambda (delta_het_of decoded vals).

(** [test_step] computes it under [self.only_pos] and takes 0.0 otherwise. *)
Definition test_step_neg_loss (only_pos : bool) (l1_lambda : tfloat)
    (decoded : list (list tfloat)) (vals : list tfloat) : tfloat :=
  if only_pos then neg_loss_het l1_lambda (delta_het_of decoded vals) else Fin 0.

(** The reconstruction mask, from the mask images already resized by the
    generator's [resizeImageFourier]:
<<
    mask_imgs = tf.abs(mask_imgs)
    mask_imgs = tf.math.divide_no_nan(mask_imgs, mask_imgs)
>> *)
Definition mask_entry (m : tfloat) : tfloat :=
  let a := tabs m in divide_no_nan a a.

Definition reconstruction_mask (resized : list Image) : list Image :=
  map (map (map mask_entry)) resized.

(** [images_masked = mask_imgs * resizeImageFourier(images, size)] *)
Definition images_masked (mask_imgs resized_images : list Image) : list Image :=
  map2 (map2 (map2 tmul)) mask_imgs resized_images.

(** ** [Decoder.eval_volume_het] *)

(** NumPy index normalisation along an axis of length [n]: negative indices
    count from the end, anything else out of range raises [IndexError]. *)
Definition np_index (n : nat) (i : Z) : option nat :=
  if ((0 <=? i) && (i <? Z.of_nat n))%Z then Some (Z.to_nat i)
  else if ((- Z.of_nat n <=? i) && (i <? 0))%Z then Some (Z.to_nat (i + Z.of_nat n))
  else None.

(** Offset of voxel [(z, y, x)] in the flattened cube of side [xs]. *)
Definition flat_index (xs : nat) (p : Z * Z * Z) : option nat :=
  let '(z, y, x) := p in
  match np_index xs z, np_index xs y, np_index xs x with
  | Some a, Some b, Some c => Some ((a * xs + b) * xs + c)%nat
  | _, _, _ => None
  end.

(** [grid[o_z, o_y, o_x] = vals]: point [k] of the grid receives [vals[k]],
    later points overwrite earlier ones at the same voxel. *)
Fixpoint assign_points (xs : nat) (grid : Volume) (idx : list (Z * Z * Z))
    (vals : list tfloat) : result Volume :=
  match idx, vals with
  | [], [] => Ok grid
  | p :: idx', v :: vals' =>
      match flat_index xs p with
      | Some n => assign_points xs (list_set n v grid) idx' vals'
      | None => Raise IndexError
      end
  | _, _ => Raise (ValueError "shape mismatch")
  end.

(** A single value is broadcast to all the indexed points. *)
Definition np_assign (xs : nat) (grid : Volume) (idx : list (Z * Z * Z))
    (vals : list tfloat) : result Volume :=
  match vals with
  | [v] => assign_points xs grid idx (repeat v (List.length idx))
  | _ => assign_points xs grid idx vals
  end.

(** [v * (v >= 0.0)] and [v * (v < 0.0)], entry by entry. *)
Definition positive_part (v : Volume) : Volume :=
  map (fun x => tmul x (tcast_bool (tgreater_equal x (Fin 0)))) v.

Definition negative_part (v : Volume) : Volume :=
  map (fun x => tmul x (tcast_bool (tless x (Fin 0)))) v.

Section Volumes.

(** [filterVol] multiplies the 3D Fourier transform of the volume by the
    transform of a B-spline kernel and soft-thresholds the result; it enters
    the model as a function on volumes. *)
Variable filterVol : Volume -> Volume.

(** The latent-to-density network [decode_het]: one row per latent code. *)
Variable decode_het : list (list tfloat) -> list (list tfloat).

(** The scattered (and optionally filtered) volume of one batch element. *)
Definition scatter_volume (g : Generator) (filter : bool) (vals : list tfloat)
    : result Volume :=
  let* grid := np_assign (xsize g) (zeros (xsize g * xsize g * xsize g))
                 (indices g) vals in
  Ok (if filter then filterVol grid else grid).

(** Body of the loop over the batch. *)
Definition eval_volume_one (g : Generator) (filter only_pos : bool)
    (vals : list tfloat) : result Volume :=
  let* grid := scatter_volume g filter vals in
  let neg_part := negative_part grid in
  let grid := positive_part grid in
  Ok (if negb only_pos then map2 tadd grid neg_part else grid).

(** [values = self.generator.values[None, :] + self.decode_het(x_het)] *)
Definition decoded_values (g : Generator) (x_het : list (list tfloat))
    : list (list tfloat) :=
  map (fun row => map2 tadd (values g) row) (decode_het x_het).

Definition decoder_eval_volume_het (g : Generator) (x_het : list (list tfloat))
    (filter only_pos : bool) : result (list Volume) :=
  for_each (eval_volume_one g filter only_pos) (decoded_values g x_het).

(** ** [AutoEncoder.eval_volume_het] *)

(** [generator.getAllCoordsMask()]: the coordinate grids of all the offsets
    of a strided mask. *)
Variable getAllCoordsMask : Generator -> list (list (list tfloat)).

(** The volume file next to the metadata file, when it exists. *)
Variable original_volume_file : option Volume.

(** The loop [for coords in new_coords]: the generator's grid is replaced
    and the decoded volumes are accumulated.  An exception leaves the
    generator as it is at that point. *)
Fixpoint accumulate_volumes (g : Generator) (x_het : list (list tfloat))
    (filter only_pos : bool) (new_coords : list (list (list tfloat)))
    (volume : list Volume) : Generator * result (list Volume) :=
  match new_coords with
  | [] => (g, Ok volume)
  | c :: rest =>
      let g' := set_coords g c in
      match decoder_eval_volume_het g' x_het filter only_pos with
      | Ok v => accumulate_volumes g' x_het filter only_pos rest
                  (map2 (map2 tadd) volume v)
      | Raise e => (g', Raise e)
      end
  end.

Definition eval_volume_het (g : Generator) (x_het : list (list tfloat))
    (allCoords filter only_pos add_to_original : bool)
    : Generator * result (list Volume) :=
  let batch_size := List.length x_het in
  let swap := allCoords && (1 <? step g)%Z in
  let new_coords := if swap then getAllCoordsMask g else [coords g] in
  let prev_coords := coords g in
  let original_volume :=
    if add_to_original
    then option_map (fun v => repeat v batch_size) original_volume_file
    else None in
  let volume := repeat (zeros (xsize g * xsize g * xsize g)) batch_size in
  match accumulate_volumes g x_het filter only_pos new_coords volume with
  | (g', Ok volume') =>
      ((if swap then set_coords g' prev_coords else g'), Ok volume')
  | (g', Raise e) => (g', Raise e)
  end.

End Volumes.

(** ** [AutoEncoder.predict_step] *)

(** Input of the encoder: the images in "spa" mode, the images and the
    positional encoding of the subtomogram in "tomo" mode. *)
Inductive EncoderInput : Type :=
| SpaInput (images : list Image)
| TomoInput (images : list Image) (subtomo_pe : list (list tfloat)).

(** The encoder outputs [rows, shifts, latent]. *)
Record Encoded : Type := mkEncoded {
  enc_rows : list (list tfloat);
  enc_shifts : list (list tfloat);
  enc_het : list (list tfloat)
}.

(** One item of the data generator. *)
Record Data : Type := mkData {
  data_images : list Image;
  data_subtomo_pe : list (list tfloat);
  data_indexes : list nat
}.

Record AutoEncoder : Type := mkAutoEncoder {
  mode : string;
  ae_CTF : option string;
  applyCTF : Z;
  predict_mode : string;
  encoder : EncoderInput -> Encoded;
  decoder : Encoded -> list Image
}.

Inductive Prediction : Type :=
| Latents (e : Encoded)
| Particles (imgs : list Image).

Section Predict.

(** [computeCTF] on the defocus metadata of the batch and the generator's
    [wiener2DFilter] come from the toolkit's utilities. *)
Variable computeCTF : Generator -> list nat -> nat -> list Image.
Variable wiener2DFilter : Generator -> list Image -> list Image.

Definition option_string_eqb (a : option string) (b : string) : bool :=
  match a with
  | Some s => String.eqb s b
  | None => false
  end.

(** The batch is stored on the generator and the images are Wiener-filtered:
    what reaches the encoder. *)
Definition batch_inputs (self : AutoEncoder) (g : Generator) (data : Data)
    : Generator * EncoderInput :=
  let idx := data_indexes data in
  let images := data_images data in
  let g := prepare_batch g idx images (computeCTF g idx (List.length images)) in
  let images :=
    if option_string_eqb (ae_CTF self) "wiener"
    then wiener2DFilter g images else images in
  let inputs :=
    if String.eqb (mode self) "spa" then SpaInput images
    else TomoInput images (data_subtomo_pe data) in
  (g, inputs).

Definition predict_step (self : AutoEncoder) (g : Generator) (data : Data)
    : Generator * result Prediction :=
  if String.eqb (mode self) "spa" || String.eqb (mode self) "tomo" then
    let (g, inputs) := batch_inputs self g data in
    let g := set_CTF g (if (applyCTF self =? 1)%Z then Some "apply"%string else None) in
    if String.eqb (predict_mode self) "het" then
      (g, Ok (Latents (encoder self inputs)))
    else if String.eqb (predict_mode self) "particles" then
      (g, Ok (Particles (decoder self (encoder self inputs))))
    else
      (g, Raise (ValueError "Prediction mode not understood!"))
  else
    (g, Raise (UnboundLocalError "indexes")).

End Predict.

End HetSiren.

(** * reconsiren.py *)

Module ReconSiren.

(** ** [resizeImageFourier]

    The same function, word for word, is defined in het_siren.py.  The padded
    Fourier transforms [full_fft_pad] and [full_ifft_pad] belong to the
    toolkit's utilities and [resize_with_crop_or_pad] to TensorFlow. *)

Section ResizeFourier.

Variable Spectrum : Type.
Variable full_fft_pad : list Image -> nat -> nat -> Spectrum.
Variable resize_with_crop_or_pad : Spectrum -> nat -> nat -> Spectrum.
Variable full_ifft_pad : Spectrum -> nat -> nat -> list Image.

(** [norm = float(pad_out_size) / float(pad_size)] *)
Definition resize_norm (pad_size pad_out_size : nat) : tfloat :=
  tdiv (tcast_nat pad_out_size) (tcast_nat pad_size).

Definition resizeImageFourier (images : list Image) (out_size pad_factor : nat)
    : list Image :=
  let xsize := List.length (hd [] images) in
  let pad_size := (pad_factor * xsize)%nat in
  let pad_out_size := (pad_factor * out_size)%nat in
  let ft_images := full_fft_pad images pad_size pad_size in
  let norm := resize_norm pad_size pad_out_size in
  let ft_images := resize_with_crop_or_pad ft_images pad_out_size pad_out_size in
  let images := full_ifft_pad ft_images out_size out_size in
  map (map (map (fun v => tmul v (tmul norm norm)))) images.

End ResizeFourier.

(** ** [gaussian_kernel] and [create_blur_filters]

    These run in NumPy on float64 before the bank is turned into a float32
    constant; they are modelled over the reals.  [norm_cdf] is SciPy's
    [st.norm.cdf], the distribution function of the standard normal law. *)

Section BlurFilters.

Variable norm_cdf : R -> R.

(** [np.linspace(start, stop, num)] *)
Definition linspace (start stop : R) (num : nat) : list R :=
  match num with
  | O => []
  | S O => [start]
  | S (S _) =>
      map (fun i => start + INR i * ((stop - start) / INR (num - 1))) (seq 0 num)
  end.

(** [np.diff(x)] *)
Definition diff (x : list R) : list R :=
  map2 (fun a b => b - a) x (tl x).

(** [np.outer(a, b)] *)
Definition outer (a b : list R) : list (list R) :=
  map (fun x => map (fun y => x * y) b) a.

Definition Rsum (l : list R) : R := fold_right Rplus 0 l.

(** Sum of all the entries of a 2D array. *)
Definition sum2 (m : list (list R)) : R := Rsum (map Rsum m).

(** The arithmetic of [gaussian_kernel]: [size] samples of the distribution
    function, their [size - 1] differences, the square roots of the outer
    product, divided by their sum.  (Where that sum is zero NumPy fills the
    kernel with NaN, which the reals do not have.) *)
Definition gaussian_kernel_array (size : nat) (std : R) : list (list R) :=
  let interval := (2 * std + 1) / INR size in
  let x := linspace (- std - interval / 2) (std + interval / 2) size in
  let kern1d := diff (map norm_cdf x) in
  let kernel_raw := map (map sqrt) (outer kern1d kern1d) in
  let total := sum2 kernel_raw in
  map (map (fun v => v / total)) kernel_raw.

(** [interval = (2 * std + 1.) / size] with [size = 0]: a Python float [std],
    as the signature declares, raises [ZeroDivisionError]; a NumPy float64
    scalar, as the loop of [create_blur_filters] passes, gives an infinity
    (and a warning), after which [np.linspace(_, _, 0)] and the kernel are
    empty. *)
Inductive Scalar : Type := PyFloat | NpFloat64.

Definition gaussian_kernel (kind : Scalar) (size : nat) (std : R)
    : result (list (list R)) :=
  match size, kind with
  | O, PyFloat => Raise ZeroDivisionError
  | O, NpFloat64 => Ok []
  | S _, _ => Ok (gaussian_kernel_array size std)
  end.



End BlurFilters.

(** ** [safe_acos] and [uniform_distribution_loss] *)

Definition safe_acos (x : tfloat) : tfloat :=
  tacos (tclip x (Fin (-1 + 1e-7)) (Fin (1 - 1e-7))).

(** [tf.matmul(vectors, vectors, transpose_b=True)] *)
Definition cosine_similarity (vectors : list (list tfloat)) : list (list tfloat) :=
  map (fun a => map (fun b => dot a b) vectors) vectors.

Definition angular_distances (vectors : list (list tfloat)) : list (list tfloat) :=
  map (map safe_acos) (cosine_similarity vectors).

Definition uniform_distribution_loss (vectors : list (list tfloat)) : tfloat :=
  let batch_size := List.length vectors in
  let batch_size_f := tcast_nat batch_size in
  let epsilon := Fin 1e-4 in
  let repulsion :=
    map (map (fun d => tdiv (Fin 1) (tadd d epsilon))) (angular_distances vectors) in
  (* mask = 1.0 - tf.eye(batch_size) *)
  let repulsion :=
    mapi (fun i row =>
      mapi (fun j v =>
        tmul v (tsub (Fin 1) (if Nat.eqb i j then Fin 1 else Fin 0))) row)
      repulsion in
  tdiv (reduce_sum (concat repulsion))
       (tmul batch_size_f (tsub batch_size_f (Fin 1))).

(** ** [correlation_coefficient_loss] *)

Definition correlation_coefficient (t p : list tfloat) : tfloat :=
  let mean_true := reduce_mean t in
  let mean_pred := reduce_mean p in
  let t_centered := map (fun v => tsub v mean_true) t in
  let p_centered := map (fun v => tsub v mean_pred) p in
  let covariance := reduce_sum (map2 tmul t_centered p_centered) in
  let variance_true := reduce_sum (map (fun v => tmul v v) t_centered) in
  let variance_pred := reduce_sum (map (fun v => tmul v v) p_centered) in
  divide_no_nan covariance
    (tsqrt (tadd (tmul variance_true variance_pred) (Fin 1e-6))).

Definition correlation_coefficient_loss (y_true y_pred : list Image) : list tfloat :=
  map2 (fun t p => tsub (Fin 1) (correlation_coefficient (concat t) (concat p)))
    y_true y_pred.

(** ** The scatter projection of [decode_images_with_loss] and [predict_step] *)

(** [tf.tensor_scatter_nd_add] raises on an index out of bounds when it runs
    on a CPU and skips the index on a GPU. *)
Inductive Device : Type := CPU | GPU.

Definition in_bounds (xs : nat) (p : Z * Z) : bool :=
  ((0 <=? fst p) && (fst p <? Z.of_nat xs) && (0 <=? snd p) && (snd p <? Z.of_nat xs))%Z.

(** [img[i][j] += v] *)
Definition add_at (img : Image) (p : Z * Z) (v : tfloat) : Image :=
  let i := Z.to_nat (fst p) in
  let j := Z.to_nat (snd p) in
  let row := nth i img [] in
  list_set i (list_set j (tadd (nth j row (Fin 0)) v) row) img.

(** There is one update per index. *)
Fixpoint tensor_scatter_nd_add (dev : Device) (xs : nat) (img : Image)
    (idx : list (Z * Z)) (updates : list tfloat) : result Image :=
  match idx, updates with
  | p :: idx', v :: updates' =>
      if in_bounds xs p
      then tensor_scatter_nd_add dev xs (add_at img p v) idx' updates'
      else match dev with
           | CPU => Raise InvalidArgumentError
           | GPU => tensor_scatter_nd_add dev xs img idx' updates'
           end
  | _, _ => Ok img
  end.

(** Position of a grid point in the image: rotation, the two in-plane
    components, shift, origin, and the swap of the two axes.
<<
    ro = tf.matmul(o, tf.transpose(r, perm=[0, 2, 1]))
    ro = ro[..., :-1]
    ro = ro - (shifts[:, None, :]) + self.generator.xmipp_origin[0]
    ro = tf.stack([ro[..., 1], ro[..., 0]], axis=-1)
>> *)
Definition projected_position (r : list (list tfloat)) (shifts : list tfloat)
    (origin : tfloat) (o : list tfloat) : tfloat * tfloat :=
  let ro0 := dot o (nth 0 r []) in
  let ro1 := dot o (nth 1 r []) in
  let ro0 := tadd (tsub ro0 (nth 0 shifts (Fin 0))) origin in
  let ro1 := tadd (tsub ro1 (nth 1 shifts (Fin 0))) origin in
  (ro1, ro0).

(** [weight = tf.exp(-num / (2. * 1. ** 2.))] with
    [num = tf.reduce_sum((bpos_round - ro) ** 2., axis=-1)] *)
Definition round_position (ro : tfloat * tfloat) : tfloat * tfloat :=
  (tround (fst ro), tround (snd ro)).

Definition sq_distance (ro : tfloat * tfloat) : tfloat :=
  let bpos_round := round_position ro in
  let d0 := tsub (fst bpos_round) (fst ro) in
  let d1 := tsub (snd bpos_round) (snd ro) in
  reduce_sum [tmul d0 d0; tmul d1 d1].

Definition weight (ro : tfloat * tfloat) : tfloat :=
  texp (tdiv (topp (sq_distance ro)) (Fin (2 * 1 ^ 2))).

(** One element of the batch: the weighted values are scatter-added into a
    zero image at the rounded positions. *)
Definition scatter_image (dev : Device) (xs : nat) (ro : list (tfloat * tfloat))
    (vals : list tfloat) : result Image :=
  let imgs := repeat (zeros xs) xs in
  let bpos_flow :=
    map (fun p => (tcast_int32 (tround (fst p)), tcast_int32 (tround (snd p)))) ro in
  let vals := map2 tmul vals (map weight ro) in
  tensor_scatter_nd_add dev xs imgs bpos_flow vals.

(** ** The generator and the auto-encoder *)

Record Generator : Type := mkGenerator {
  coords : list (list tfloat);
  values : list tfloat;
  xsize : nat;
  scale_factor : tfloat;
  xmipp_origin : list tfloat;
  noSym : nat;
  sym_matrices : list (list (list tfloat))
}.

Record AutoEncoder : Type := mkAutoEncoder {
  n_candidates : nat;
  applyCTF : bool;
  only_pose : bool;
  multires : option nat;
  ud_lambda : tfloat;
  un_lambda : tfloat;
  common_encoder : list Image -> list (list tfloat);
  (* head [idr] yields the six pose numbers and the two shifts of every image *)
  head_encoder : nat -> list (list tfloat) -> list (list tfloat) * list (list tfloat);
  decoder_delta : list (list tfloat) -> list tfloat
}.

(** Regularisation terms of the corrected density (L1 and distance-weighted
    L1, total variation, neighbour MSE, negative part).  The density has a
    leading axis of length 1, so each term is one number, broadcast over the
    batch when it is added to the loss. *)
Record Regularisers : Type := mkRegularisers {
  l1_loss_het : tfloat;
  tv_loss : tfloat;
  d_mse_loss : tfloat;
  neg_loss_het : tfloat
}.

(** Output of one candidate head on a batch. *)
Record Candidate : Type := mkCandidate {
  cand_r : list (list (list tfloat));
  cand_shifts : list (list tfloat);
  cand_imgs : list Image;
  cand_loss : list tfloat
}.

(** What [predict_step] keeps across the candidates. *)
Record Kept : Type := mkKept {
  prev_loss_rec : list tfloat;
  keep_r : list (list (list tfloat));
  keep_shifts : list (list tfloat);
  keep_imgs : list Image
}.

Section Candidates.

Variable dev : Device.

(** From the toolkit's utilities, TensorFlow Addons and the generator:
    [gramSchmidt] on the batch of pose numbers, [tfa.image.gaussian_filter2d],
    the generator's [ctfFilterImage], [wiener2DFilter] and [mse] for the
    current batch, and channel [idx] of [apply_blur_filters_to_batch]. *)
Variable gramSchmidt : list (list tfloat) -> list (list (list tfloat)).
Variable gaussian_filter2d : list Image -> list Image.
Variable ctfFilterImage : list Image -> list Image.
Variable wiener2DFilter : list Image -> list Image.
Variable mse : list Image -> list Image -> list tfloat.
Variable blur_channel : nat -> list Image -> list Image.
Variable density_regularisers : list tfloat -> Regularisers.

Variable self : AutoEncoder.
Variable g : Generator.

(** [self.cost], chosen by the constructor. *)
Definition cost (y_true y_pred : list Image) : list tfloat :=
  if only_pose self then correlation_coefficient_loss y_true y_pred
  else mse y_true y_pred.

(** The predicted images of a batch of poses and shifts: scatter projection
    of the corrected density, Gaussian filtering, CTF corruption. *)
Definition render (delta : list tfloat) (r : list (list (list tfloat)))
    (shifts : list (list tfloat)) : result (list Image) :=
  let o := map (map (tmul (scale_factor g))) (coords g) in
  let vals := map2 tadd (values g) delta in
  let* imgs :=
    for_each (fun rs =>
      scatter_image dev (xsize g)
        (map (projected_position (fst rs) (snd rs) (nth 0 (xmipp_origin g) (Fin 0))) o)
        vals)
      (combine r shifts) in
  let imgs := gaussian_filter2d imgs in
  Ok (if applyCTF self then ctfFilterImage imgs else imgs).

(** *** [predict_step] *)

(** Body of the loop up to the image loss. *)
Definition candidate (images : list Image) (encoded : list (list tfloat))
    (delta : list tfloat) (idr : nat) : result Candidate :=
  let (rows, shifts) := head_encoder self idr encoded in
  let r := gramSchmidt rows in
  let* imgs := render delta r shifts in
  Ok (mkCandidate r shifts imgs (cost images imgs)).

(** "Winner takes it all": the mask and the four [tf.where]. *)
Definition keep_best (st : Kept) (c : Candidate) : Kept :=
  let mask := map2 tless_equal (cand_loss c) (prev_loss_rec st) in
  mkKept (where_ mask (cand_loss c) (prev_loss_rec st))
         (where_ mask (cand_r c) (keep_r st))
         (where_ mask (cand_shifts c) (keep_shifts st))
         (where_ mask (cand_imgs c) (keep_imgs st)).

Fixpoint candidates_loop (images : list Image) (encoded : list (list tfloat))
    (delta : list tfloat) (idrs : list nat) (st : Kept) : result Kept :=
  match idrs with
  | [] => Ok st
  | idr :: rest =>
      let* c := candidate images encoded delta idr in
      candidates_loop images encoded delta rest (keep_best st c)
  end.

Definition initial_kept (batch_size : nat) : Kept :=
  mkKept (repeat (tmul (Fin 10000) (Fin 1)) batch_size)
         (repeat (repeat (zeros 3) 3) batch_size)
         (repeat (zeros 2) batch_size)
         (repeat (repeat (zeros (xsize g)) (xsize g)) batch_size).

Definition predict_step (images : list Image)
    : result (list (list (list tfloat)) * list (list tfloat) * list Image) :=
  let batch_size_scope := List.length images in
  let images_corrected := if applyCTF self then wiener2DFilter images else images in
  let encoded := common_encoder self images_corrected in
  let delta := decoder_delta self (coords g) in
  let* st := candidates_loop images encoded delta (seq 0 (n_candidates self))
               (initial_kept batch_size_scope) in
  Ok (keep_r st, keep_shifts st, keep_imgs st).

(** The outputs of all the heads on a batch, in the order of the loop. *)
Definition predict_candidates (images : list Image) : result (list Candidate) :=
  let images_corrected := if applyCTF self then wiener2DFilter images else images in
  for_each (candidate images (common_encoder self images_corrected)
              (decoder_delta self (coords g)))
    (seq 0 (n_candidates self)).

(** *** [decode_images_with_loss] *)

(** Loop over the symmetry matrices for one head: the accumulated loss and
    the pose of the last symmetric copy. *)
Fixpoint symmetry_loop (images images_corrected : list Image) (delta : list tfloat)
    (r_no_sym : list (list (list tfloat))) (shifts : list (list tfloat))
    (iSyms : list nat) (loss_rec : list tfloat) (r : list (list (list tfloat)))
    : result (list tfloat * list (list (list tfloat))) :=
  match iSyms with
  | [] => Ok (loss_rec, r)
  | iSym :: rest =>
      let R := nth iSym (sym_matrices g) [] in
      let r := map (fun m => matmul3 m (transpose3 R)) r_no_sym in
      let* imgs := render delta r shifts in
      let loss_rec := map2 tadd loss_rec (cost images imgs) in
      let loss_rec :=
        match multires self with
        | None => loss_rec
        | Some levels =>
            fold_left (fun acc idx =>
              map2 tadd acc
                (map (tmul (Fin 0.001))
                   (cost (blur_channel idx images_corrected) (blur_channel idx imgs))))
              (seq 0 levels) loss_rec
        end in
      symmetry_loop images images_corrected delta r_no_sym shifts rest loss_rec r
  end.

Record LossState : Type := mkLossState {
  ls_loss_rec : list tfloat;
  ls_u_norm_loss : tfloat;
  ls_uniform_dist_loss : tfloat
}.

(** Loss of one head, averaged over the symmetric copies. *)
Definition candidate_loss (images images_corrected : list Image)
    (encoded : list (list tfloat)) (delta : list tfloat) (idr : nat)
    : result (list tfloat * list (list tfloat) * list (list (list tfloat))) :=
  let (rows, shifts) := head_encoder self idr encoded in
  let r_no_sym := gramSchmidt rows in
  match noSym g with
  | O => Raise ZeroDivisionError
  | S _ =>
      let* lr := symmetry_loop images images_corrected delta r_no_sym shifts
                   (seq 0 (noSym g)) (zeros (List.length images)) [] in
      Ok (map (fun l => tdiv l (tcast_nat (noSym g))) (fst lr), rows, snd lr)
  end.

(** Body of the loop over the heads, after the loss of the head is known. *)
Definition keep_min (st : LossState) (loss_rec : list tfloat)
    (rows : list (list tfloat)) (r : list (list (list tfloat))) : LossState :=
  let loss_rec := map2 tmin loss_rec (ls_loss_rec st) in
  let n1 := map (fun row => reduce_sum (map (fun v => tmul v v) (firstn 3 row))) rows in
  let n2 := map (fun row => reduce_sum (map (fun v => tmul v v) (skipn 3 row))) rows in
  let x := tmul (Fin 0.5) (tadd (reduce_mean n1) (reduce_mean n2)) in
  let y := uniform_distribution_loss (map (column 2) r) in
  mkLossState loss_rec (tadd (ls_u_norm_loss st) x) (tadd (ls_uniform_dist_loss st) y).

Fixpoint heads_loop (images images_corrected : list Image)
    (encoded : list (list tfloat)) (delta : list tfloat) (idrs : list nat)
    (st : LossState) : result LossState :=
  match idrs with
  | [] => Ok st
  | idr :: rest =>
      let* c := candidate_loss images images_corrected encoded delta idr in
      heads_loop images images_corrected encoded delta rest
        (keep_min st (fst (fst c)) (snd (fst c)) (snd c))
  end.

(** The losses of all the heads on a batch, in the order of the loop. *)
Definition loss_candidates (images images_corrected : list Image)
    : result (list (list tfloat * list (list tfloat) * list (list (list tfloat)))) :=
  for_each (candidate_loss images images_corrected
              (common_encoder self images_corrected)
              (if negb (only_pose self) then decoder_delta self (coords g)
               else zeros (List.length (values g))))
    (seq 0 (n_candidates self)).

(** The reconstruction loss when the loop over the heads ends. *)
Definition best_loss_rec (images images_corrected : list Image) : result LossState :=
  let B := List.length images in
  let encoded := common_encoder self images_corrected in
  let delta :=
    if negb (only_pose self) then decoder_delta self (coords g)
    else zeros (List.length (values g)) in
  heads_loop images images_corrected encoded delta (seq 0 (n_candidates self))
    (mkLossState (repeat (tmul (Fin 10000) (Fin 1)) B) (Fin 0) (Fin 0)).

Definition decode_images_with_loss (images images_corrected : list Image)
    : result (list tfloat) :=
  let* st := best_loss_rec images images_corrected in
  match n_candidates self with
  | O => Raise ZeroDivisionError
  | S _ =>
      let u_norm_loss := tdiv (ls_u_norm_loss st) (tcast_nat (n_candidates self)) in
      let uniform_dist_loss :=
        tdiv (ls_uniform_dist_loss st) (tcast_nat (n_candidates self)) in
      let delta :=
        if negb (only_pose self) then decoder_delta self (coords g)
        else zeros (List.length (values g)) in
      let reg := density_regularisers (map2 tadd delta (values g)) in
      Ok (map (fun loss =>
            tadd loss
              (tadd (tadd (tadd (tadd (tadd (l1_loss_het reg)
                                            (tmul (ud_lambda self) uniform_dist_loss))
                                      (tmul (un_lambda self) u_norm_loss))
                                (tv_loss reg))
                          (d_mse_loss reg))
                    (tmul (Fin 0.1) (neg_loss_het reg))))
            (ls_loss_rec st))
  end.

End Candidates.

End ReconSiren.

(** * Further functions of the two files *)

(** NumPy's [==] on entries: false on NaN. *)
Definition tequal (x y : tfloat) : bool :=
  match x, y with
  | Fin a, Fin b => Reqb a b
  | PInf, PInf | NInf, NInf => true
  | _, _ => false
  end.

(** A cubic grid: planes of rows of voxels. *)
Definition Grid : Type := list (list (list tfloat)).

(** ** The smoothness losses (both files) *)

Module Smoothness.

(** [grid[1:, :, :] - grid[:-1, :, :]] and the same along the two other
    axes, for one element of the batch. *)
Definition pixel_diff1 (grid : Grid) : Grid :=
  map2 (map2 (map2 tsub)) (tl grid) grid.

Definition pixel_diff2 (grid : Grid) : Grid :=
  map (fun plane => map2 (map2 tsub) (tl plane) plane) grid.

Definition pixel_diff3 (grid : Grid) : Grid :=
  map (map (fun row => map2 tsub (tl row) row)) grid.

(** [tf.reduce_sum(t, axis=[1, 2, 3])] on one element of the batch. *)
Definition sum_all (t : Grid) : tfloat := reduce_sum (concat (concat t)).

(** The three sizes [volume.shape[1:]]. *)
Definition shape1 (volume : Grid) : nat := List.length volume.
Definition shape2 (volume : Grid) : nat := List.length (hd [] volume).
Definition shape3 (volume : Grid) : nat := List.length (hd [] (hd [] volume)).

Definition total_variation_loss (volume diff1 diff2 diff3 : Grid) : tfloat :=
  let loss :=
    tadd (tadd (sum_all (map (map (map tabs)) diff1))
               (sum_all (map (map (map tabs)) diff2)))
         (sum_all (map (map (map tabs)) diff3)) in
  let num_pixels := tcast_nat (shape1 volume * shape2 volume * shape3 volume) in
  tdiv loss num_pixels.

(** [tf.square] *)
Definition tsquare (x : tfloat) : tfloat := tmul x x.

(** The number of pairs is an integer computed from the first two sizes:
    [2 * prod(shape[1:3]) - shape[1] - shape[2]]. *)
Definition mse_smoothness_loss (volume diff1 diff2 diff3 : Grid) : tfloat :=
  let loss :=
    tadd (tadd (sum_all (map (map (map tsquare)) diff1))
               (sum_all (map (map (map tsquare)) diff2)))
         (sum_all (map (map (map tsquare)) diff3)) in
  let num_pixel_pairs :=
    Fin (IZR (2 * (Z.of_nat (shape1 volume) * Z.of_nat (shape2 volume))
              - Z.of_nat (shape1 volume) - Z.of_nat (shape2 volume))) in
  tdiv loss num_pixel_pairs.

(** The two losses of a scattered grid, as [densitySmoothnessVolume] returns
    them for each element of the batch. *)
Definition smoothness_losses (grid : Grid) : tfloat * tfloat :=
  let d1 := pixel_diff1 grid in
  let d2 := pixel_diff2 grid in
  let d3 := pixel_diff3 grid in
  (total_variation_loss grid d1 d2 d3, mse_smoothness_loss grid d1 d2 d3).

End Smoothness.

(** ** het_siren.py: [filterVol], [normalize_to_other_volumes] *)

Module HetSirenMore.

(** The last step of [filterVol] (and of [richardsonLucyDeconvolver]):
<<
    volume = volume - (volume > thr) * thr + (volume < -thr) * thr
             - (volume == thr) * volume
>> *)
Definition soft_threshold (thr v : tfloat) : tfloat :=
  tsub (tadd (tsub v (tmul (tcast_bool (tless thr v)) thr))
             (tmul (tcast_bool (tless v (topp thr))) thr))
       (tmul (tcast_bool (tequal v thr)) v).

(** [filterVol]: the Fourier-space product with the B-spline kernel
    ([applyKernelFourier]), then the threshold step with [thr = 1e-6]. *)
Definition filterVol (applyKernelFourier : Volume -> Volume) (volume : Volume) : Volume :=
  map (soft_threshold (Fin 1e-6)) (applyKernelFourier volume).

(** [normalize_to_other_volumes] works on NumPy arrays; it is modelled over
    the reals, one flattened volume per batch element.  [mean] and [std] are
    [ndarray.mean] and [ndarray.std] over the three axes of a volume. *)
Definition mean (v : list R) : R :=
  ReconSiren.Rsum v / INR (List.length v).

Definition std (v : list R) : R :=
  sqrt (mean (map (fun x => (x - mean v) ^ 2) v)).

Definition normalize_volume (v1 v2 : list R) : list R :=
  map (fun x => ((x - mean v2) / std v2) * std v1 + mean v1) v2.

Definition normalize_to_other_volumes (batch1 batch2 : list (list R))
    : list (list R) :=
  map2 normalize_volume batch1 batch2.

End HetSirenMore.

(** ** reconsiren.py: [l1_distance_norm] and the negative-density term *)

Module ReconSirenMore.

(** [r * volumes] on one element of the batch, as TensorFlow broadcasts it:
    rows of one length are multiplied entry by entry, a row of length 1 is
    repeated along the other one, and any other pair of lengths raises. *)
Definition broadcast_mul (r volume : list tfloat) : result (list tfloat) :=
  if Nat.eqb (List.length r) (List.length volume) then Ok (map2 tmul r volume)
  else match r, volume with
       | [x], _ => Ok (map (tmul x) volume)
       | _, [y] => Ok (map (fun x => tmul x y) r)
       | _, _ => Raise InvalidArgumentError
       end.

(** [coords] has one row of coordinates per voxel, so [tf.shape(coords)[1]]
    is the number of coordinates of a voxel. *)
Definition l1_distance_norm (volumes : list (list tfloat)) (coords : list (list tfloat))
    : result (list tfloat) :=
  let r := map (fun c => reduce_sum (map2 tmul c c)) coords in
  for_each (fun volume =>
              let total_mass := reduce_sum (map tabs volume) in
              let* weighted := broadcast_mul r volume in
              let l1_dist := reduce_sum (map tabs weighted) in
              Ok (tdiv (tmul (Fin 0.01) l1_dist)
                       (tmul (tcast_nat (List.length (hd [] coords))) total_mass)))
    volumes.

(** The negative-density term of [decode_images_with_loss]:
<<
    if not self.only_pos:
        mask = tf.less(values, 0.0)
        delta_neg = tf.boolean_mask(values, mask)
        delta_neg = tf.reduce_mean(tf.abs(tf.cast(delta_neg, tf.float32)), keepdims=True)
        neg_loss_het = tf.cast(self.only_pos, tf.float32) * self.l1_lambda * delta_neg
    else:
        neg_loss_het = 0.0
>> *)
Definition neg_loss_het (only_pos : bool) (l1_lambda : tfloat)
    (values : list (list tfloat)) : tfloat :=
  if negb only_pos then
    let mask := map (map (fun v => tless v (Fin 0))) values in
    let delta_neg := boolean_mask (concat values) (concat mask) in
    let delta_neg := reduce_mean (map tabs delta_neg) in
    tmul (tmul (tcast_bool only_pos) l1_lambda) delta_neg
  else Fin 0.

End ReconSirenMore.

(** ** Pixels, image shapes and devices of the scatter operations *)

(** The pixel that receives a point of the scatter projection:
    [bpos_flow = tf.cast(tf.round(ro), tf.int32)]. *)
Definition pixel_of (ro : tfloat * tfloat) : Z * Z :=
  (tcast_int32 (tround (fst ro)), tcast_int32 (tround (snd ro))).

Definition pixel_eqb (p q : Z * Z) : bool :=
  ((fst p =? fst q) && (snd p =? snd q))%Z.

(** An image of [xs] rows of [xs] pixels. *)
Definition image_shape (xs : nat) (img : Image) : Prop :=
  List.length img = xs /\ forall k, (k < xs)%nat -> List.length (nth k img []) = xs.

(** The same computation on the two devices: the CPU run ends as the GPU run
    does, or in the exception of the scatter operation. *)
Definition device_agrees {A : Type} (on_cpu on_gpu : result A) : Prop :=
  on_cpu = on_gpu \/ on_cpu = Raise InvalidArgumentError.

(** Whether a point of the indexed assignment [grid[o_z, o_y, o_x] = vals]
    writes voxel [n] of the flattened cube. *)
Definition hits (xs n : nat) (q : (Z * Z * Z) * tfloat) : bool :=
  match HetSiren.flat_index xs (fst q) with
  | Some m => Nat.eqb m n
  | None => false
  end.

(** * Reference reductions

    The selection across candidates, one batch element at a time: a running
    minimum over (loss, payload) pairs, started from the initial pair. *)

Definition running_argmin {P : Type} (init : tfloat * P) (cs : list (tfloat * P))
    : tfloat * P :=
  fold_left (fun acc c => if tless_equal (fst c) (fst acc) then c else acc) cs init.

Definition running_min (init : tfloat) (ls : list tfloat) : tfloat :=
  fold_left (fun acc l => tmin l acc) ls init.

(** Element [b] of the batch in the output of a head and in what
    [predict_step] keeps: the loss and the payload (pose, shift, image). *)
Definition candidate_at (b : nat) (c : ReconSiren.Candidate)
    : tfloat * (list (list tfloat) * list tfloat * Image) :=
  (nth b (ReconSiren.cand_loss c) NaN,
   (nth b (ReconSiren.cand_r c) [], nth b (ReconSiren.cand_shifts c) [],
    nth b (ReconSiren.cand_imgs c) [])).

Definition kept_at (b : nat) (st : ReconSiren.Kept)
    : tfloat * (list (list tfloat) * list tfloat * Image) :=
  (nth b (ReconSiren.prev_loss_rec st) NaN,
   (nth b (ReconSiren.keep_r st) [], nth b (ReconSiren.keep_shifts st) [],
    nth b (ReconSiren.keep_imgs st) [])).

(** All the tensors of a head's output have one entry per batch element. *)
Definition candidate_shape (B : nat) (c : ReconSiren.Candidate) : Prop :=
  List.length (ReconSiren.cand_loss c) = B /\
  List.length (ReconSiren.cand_r c) = B /\
  List.length (ReconSiren.cand_shifts c) = B /\
  List.length (ReconSiren.cand_imgs c) = B.

Definition kept_shape (B : nat) (st : ReconSiren.Kept) : Prop :=
  List.length (ReconSiren.prev_loss_rec st) = B /\
  List.length (ReconSiren.keep_r st) = B /\
  List.length (ReconSiren.keep_shifts st) = B /\
  List.length (ReconSiren.keep_imgs st) = B.

(** * Sample objects

    Small concrete generators and models on which the properties below are
    exercised. *)

Module Samples.

(** A one-voxel cube with a strided mask ([step] 2). *)
Definition het_generator : HetSiren.Generator :=
  HetSiren.mkGenerator [[Fin 0; Fin 0; Fin 0]] [(0, 0, 0)%Z] [Fin 1] 1 2
    [Fin 0] [Fin 0] [Fin 0] [Fin 0] [Fin 0]
    [] [] [] [] [] ([], []) [] None.

(** A cube of side 2 with two points on the same voxel (the second one
    through a negative index) and one of side 1 with an index off the cube. *)
Definition het_generator_overlap : HetSiren.Generator :=
  HetSiren.mkGenerator [[Fin 0; Fin 0; Fin 0]; [Fin 0; Fin 0; Fin 0]]
    [(1, 1, 1)%Z; (-1, -1, -1)%Z] [Fin 1; Fin 1] 2 1
    [Fin 0] [Fin 0] [Fin 0] [Fin 0] [Fin 0]
    [] [] [] [] [] ([], []) [] None.

Definition het_generator_off_cube : HetSiren.Generator :=
  HetSiren.mkGenerator [[Fin 0; Fin 0; Fin 0]] [(0, 1, 0)%Z] [Fin 1] 1 1
    [Fin 0] [Fin 0] [Fin 0] [Fin 0] [Fin 0]
    [] [] [] [] [] ([], []) [] None.

Definition het_all_coords (g : HetSiren.Generator) : list (list (list tfloat)) :=
  [[[Fin 0; Fin 0; Fin 0]]; [[Fin 1; Fin 1; Fin 1]]].

(** A decoder that lowers every voxel by 3. *)
Definition het_decode (x_het : list (list tfloat)) : list (list tfloat) :=
  map (fun _ => [Fin (-3)]) x_het.

Definition het_autoencoder (predict_mode : string) : HetSiren.AutoEncoder :=
  HetSiren.mkAutoEncoder "spa" None 0 predict_mode
    (fun _ => HetSiren.mkEncoded [[Fin 0; Fin 0; Fin 0]] [[Fin 0; Fin 0]] [[Fin 1]])
    (fun _ => [[[Fin 1]]]).

Definition het_data : HetSiren.Data :=
  HetSiren.mkData [[[Fin 1]]] [] [0%nat].

(** A one-voxel, one-pixel reconstruction with a single head. *)
Definition identity3 : list (list tfloat) :=
  [[Fin 1; Fin 0; Fin 0]; [Fin 0; Fin 1; Fin 0]; [Fin 0; Fin 0; Fin 1]].

Definition recon_generator : ReconSiren.Generator :=
  ReconSiren.mkGenerator [[Fin 0; Fin 0; Fin 0]] [Fin 1] 1 (Fin 1) [Fin 0] 1 [identity3].

Definition recon_autoencoder : ReconSiren.AutoEncoder :=
  ReconSiren.mkAutoEncoder 1 false false None (Fin 0.000001) (Fin 0.0001)
    (fun images => map (fun _ => [Fin 0]) images)
    (fun _ encoded =>
       (map (fun _ => [Fin 1; Fin 0; Fin 0; Fin 0; Fin 1; Fin 0]) encoded,
        map (fun _ => [Fin 0; Fin 0]) encoded))
    (fun _ => [Fin 0]).

Definition recon_gramSchmidt (rows : list (list tfloat)) : list (list (list tfloat)) :=
  map (fun _ => identity3) rows.

(** Mean squared error of each image of the batch. *)
Definition recon_mse (y_true y_pred : list Image) : list tfloat :=
  map2 (fun t p =>
          reduce_mean (map2 (fun a b => tmul (tsub a b) (tsub a b)) (concat t) (concat p)))
    y_true y_pred.

Definition recon_regularisers (_ : list tfloat) : ReconSiren.Regularisers :=
  ReconSiren.mkRegularisers (Fin 0) (Fin 0) (Fin 0) (Fin 0).

(** A frame of 2 x 2 pixels: four voxels of density 1 in the plane [z = 0],
    centred on the origin as the generator centres its grid, one over each
    pixel. *)
Definition recon_generator_2 : ReconSiren.Generator :=
  ReconSiren.mkGenerator
    [[Fin (-1); Fin (-1); Fin 0]; [Fin 0; Fin (-1); Fin 0];
     [Fin (-1); Fin 0; Fin 0]; [Fin 0; Fin 0; Fin 0]]
    [Fin 1; Fin 1; Fin 1; Fin 1] 2 (Fin 1) [Fin 1] 1 [identity3].

(** Two heads: the first one answers the identity pose with no shift, the
    second one a half turn about the z axis with the shift that brings the
    turned grid back onto the frame. *)
Definition recon_autoencoder_2 : ReconSiren.AutoEncoder :=
  ReconSiren.mkAutoEncoder 2 false false None (Fin 0.000001) (Fin 0.0001)
    (fun images => map (fun _ => [Fin 0]) images)
    (fun idr encoded =>
       match idr with
       | O => (map (fun _ => [Fin 1; Fin 0; Fin 0; Fin 0; Fin 1; Fin 0]) encoded,
               map (fun _ => [Fin 0; Fin 0]) encoded)
       | S _ => (map (fun _ => [Fin (-1); Fin 0; Fin 0; Fin 0; Fin (-1); Fin 0]) encoded,
                 map (fun _ => [Fin 1; Fin 1]) encoded)
       end)
    (fun _ => [Fin 0; Fin 0; Fin 0; Fin 0]).

Definition half_turn3 : list (list tfloat) :=
  [[Fin (-1); Fin 0; Fin 0]; [Fin 0; Fin (-1); Fin 0]; [Fin 0; Fin 0; Fin 1]].

(** On two orthonormal rows in the plane [z = 0], as the two heads give,
    Gram-Schmidt returns them with the z axis as the third row. *)
Definition recon_gramSchmidt_2 (rows : list (list tfloat)) : list (list (list tfloat)) :=
  map (fun row => [firstn 3 row; skipn 3 row; [Fin 0; Fin 0; Fin 1]]) rows.

(** [tfa.image.gaussian_filter2d(imgs, 3, 1)] on frames of side at least 2
    (the reflection needs a neighbour): the 3 x 3 kernel is the outer product
    with itself of [softmax(-x^2 / 2)] for [x = -1, 0, 1]; the frame is padded
    by reflection and the nine products are summed at each pixel. *)
Definition gauss3 : list R :=
  let raw := [exp (- (1 / 2)); exp 0; exp (- (1 / 2))] in
  map (fun v => v / ReconSiren.Rsum raw) raw.

Definition reflect_pad {A : Type} (d : A) (l : list A) : list A :=
  nth 1 l d :: l ++ [nth (List.length l - 2) l d].

Definition gaussian_filter2d_3 (imgs : list Image) : list Image :=
  map (fun img : Image =>
         let padded := reflect_pad [] (map (reflect_pad (Fin 0)) img) in
         mapi (fun i (row : list tfloat) =>
                 mapi (fun j (_ : tfloat) =>
                         reduce_sum
                           (concat
                              (mapi (fun a ka =>
                                       mapi (fun b kb =>
                                               tmul (Fin (ka * kb))
                                                    (nth (j + b) (nth (i + a) padded [])
                                                         (Fin 0)))
                                            gauss3)
                                    gauss3)))
                      row)
              img)
      imgs.

(** Two images of 2 x 2 pixels: one far brighter than the density, one equal
    to its projection. *)
Definition recon_images_2 : list Image :=
  [[[Fin 151; Fin 151]; [Fin 151; Fin 151]]; [[Fin 1; Fin 1]; [Fin 1; Fin 1]]].

Definition ones_2 : Image := [[Fin 1; Fin 1]; [Fin 1; Fin 1]].

End Samples.

(** * Properties *)

(** ** Comparisons on reals *)

Lemma Rltb_true (x y : R) : x < y -> Rltb x y = true.
Proof. intros H. unfold Rltb. destruct (Rlt_dec x y); [reflexivity | contradiction]. Qed.

Lemma Rltb_false (x y : R) : y <= x -> Rltb x y = false.
Proof. intros H. unfold Rltb. destruct (Rlt_dec x y); [lra | reflexivity]. Qed.

Lemma Rltb_spec (x y : R) : Rltb x y = true <-> x < y.
Proof. unfold Rltb. destruct (Rlt_dec x y); split; intros; try easy. Qed.

Lemma Rleb_true (x y : R) : x <= y -> Rleb x y = true.
Proof. intros H. unfold Rleb. destruct (Rle_dec x y); [reflexivity | contradiction]. Qed.

Lemma Rleb_false (x y : R) : y < x -> Rleb x y = false.
Proof. intros H. unfold Rleb. destruct (Rle_dec x y); [lra | reflexivity]. Qed.

Lemma Rleb_spec (x y : R) : Rleb x y = true <-> x <= y.
Proof. unfold Rleb. destruct (Rle_dec x y); split; intros; try easy. Qed.

Lemma Reqb_true (x y : R) : x = y -> Reqb x y = true.
Proof. intros H. unfold Reqb. destruct (Req_dec_T x y); [reflexivity | contradiction]. Qed.

Lemma Reqb_false (x y : R) : x <> y -> Reqb x y = false.
Proof. intros H. unfold Reqb. destruct (Req_dec_T x y); [contradiction | reflexivity]. Qed.

Lemma Reqb_spec (x y : R) : Reqb x y = true <-> x = y.
Proof. unfold Reqb. destruct (Req_dec_T x y); split; intros; try easy. Qed.

(** ** Basic facts on float values *)

Lemma tmul_nan_r (x : tfloat) : tmul x NaN = NaN.
Proof. destruct x; reflexivity. Qed.

Lemma tdiv_nan_l (y : tfloat) : tdiv NaN y = NaN.
Proof. destruct y; reflexivity. Qed.

Lemma tmul_one_r (x : tfloat) : tmul x (Fin 1) = x.
Proof.
  destruct x; simpl; unfold inf_of_sign.
  - f_equal; ring.
  - rewrite Rltb_true by lra. reflexivity.
  - rewrite Rltb_false by lra. rewrite Rltb_true by lra. reflexivity.
  - reflexivity.
Qed.

Lemma tadd_zero_l (x : tfloat) : tadd (Fin 0) x = x.
Proof. destruct x; simpl; try reflexivity. f_equal; ring. Qed.

Lemma tadd_zero_r (x : tfloat) : tadd x (Fin 0) = x.
Proof. destruct x; simpl; try reflexivity. f_equal; ring. Qed.

Lemma reduce_mean_nil : reduce_mean [] = NaN.
Proof.
  unfold reduce_mean, reduce_sum, tcast_nat; simpl.
  rewrite Reqb_true by reflexivity.
  unfold inf_of_sign. rewrite !Rltb_false by lra. reflexivity.
Qed.

(** ** Generic list facts *)

Lemma map2_length {A B C : Type} (f : A -> B -> C) (xs : list A) (ys : list B) :
  List.length (map2 f xs ys) = Nat.min (List.length xs) (List.length ys).
Proof. unfold map2. now rewrite length_map, length_combine. Qed.

Lemma map2_nth {A B C : Type} (f : A -> B -> C) (xs : list A) (ys : list B)
    (n : nat) (dx : A) (dy : B) (d : C) :
  (n < List.length xs)%nat -> (n < List.length ys)%nat ->
  nth n (map2 f xs ys) d = f (nth n xs dx) (nth n ys dy).
Proof.
  revert ys n. induction xs as [|x xs IH]; intros [|y ys] n Hx Hy; simpl in *; try lia.
  destruct n as [|n]; [reflexivity|]. apply IH; lia.
Qed.

Lemma map2_map_same {A B C D : Type} (f : B -> C -> D) (h : A -> B) (k : A -> C)
    (l : list A) :
  map2 f (map h l) (map k l) = map (fun a => f (h a) (k a)) l.
Proof.
  unfold map2. induction l as [|a l IH]; simpl; [reflexivity|]. now rewrite IH.
Qed.

Lemma boolean_mask_none {A : Type} (f : A -> bool) (t : list A) :
  Forall (fun x => f x = false) t -> boolean_mask t (map f t) = [].
Proof.
  unfold boolean_mask. induction 1 as [|x t Hx _ IH]; simpl; [reflexivity|].
  rewrite Hx. exact IH.
Qed.

Lemma last_cons_default {A : Type} (a : A) (l : list A) (d d' : A) :
  last (a :: l) d = last (a :: l) d'.
Proof.
  revert a. induction l as [|b l IH]; intros a; [reflexivity|].
  change (last (b :: l) d = last (b :: l) d'). apply IH.
Qed.

Lemma concat_map_map {A B : Type} (f : A -> B) (ll : list (list A)) :
  concat (map (map f) ll) = map f (concat ll).
Proof. symmetry. apply concat_map. Qed.

Lemma Forall_concat_intro {A : Type} (P : A -> Prop) (ll : list (list A)) :
  Forall (Forall P) ll -> Forall P (concat ll).
Proof.
  induction 1 as [|l ll Hl _ IH]; simpl; [constructor|].
  apply Forall_app. now split.
Qed.

(** ** Order facts on float values *)

Lemma tgreater_equal_not_less (x y : tfloat) :
  tgreater_equal x y = true -> tless x y = false.
Proof.
  unfold tgreater_equal.
  destruct x, y; simpl; try easy.
  intros H. apply Rleb_spec in H. now apply Rltb_false.
Qed.

(** ** The negative-density penalty of het_siren.py *)

(** With no negative entry the masked tensor is empty: its mean is [0 / 0]
    and its size is 0. *)
Lemma neg_loss_het_no_negative (l1_lambda : tfloat) (delta_het : list (list tfloat)) :
  Forall (Forall (fun x => tgreater_equal x (Fin 0) = true)) delta_het ->
  HetSiren.neg_loss_het l1_lambda delta_het = NaN.
Proof.
  intros H. unfold HetSiren.neg_loss_het.
  rewrite concat_map_map.
  rewrite boolean_mask_none.
  - simpl. rewrite reduce_mean_nil, tmul_nan_r. apply tdiv_nan_l.
  - apply Forall_concat_intro.
    eapply Forall_impl; [|exact H]. intros row Hrow.
    eapply Forall_impl; [|exact Hrow]. intros x Hx.
    now apply tgreater_equal_not_less.
Qed.

(** C2 (the code departs from it): on a batch whose corrected density
    [delta_het] (base values plus decoded delta) has only non-negative
    entries, the penalty [neg_loss_het] of [train_step] is NaN, not 0: the
    mean of the empty masked tensor is divided by its size 0.  [test_step]
    computes the same value when [only_pos] is set. *)
Theorem train_step_neg_loss_nonnegative (l1_lambda : tfloat)
    (decoded : list (list tfloat)) (vals : list tfloat) :
  Forall (Forall (fun x => tgreater_equal x (Fin 0) = true))
    (HetSiren.delta_het_of decoded vals) ->
  HetSiren.train_step_neg_loss l1_lambda decoded vals = NaN /\
  HetSiren.test_step_neg_loss true l1_lambda decoded vals = NaN /\
  HetSiren.train_step_neg_loss l1_lambda decoded vals <> Fin 0.
Proof.
  intros H. unfold HetSiren.train_step_neg_loss, HetSiren.test_step_neg_loss.
  rewrite (neg_loss_het_no_negative _ _ H). repeat split. discriminate.
Qed.

Lemma train_step_neg_loss_failing_input :
  Forall (Forall (fun x => tgreater_equal x (Fin 0) = true))
    (HetSiren.delta_het_of [[Fin 1; Fin 2]] [Fin 0; Fin 0]) /\
  HetSiren.train_step_neg_loss (Fin 0.5) [[Fin 1; Fin 2]] [Fin 0; Fin 0] = NaN.
Proof.
  assert (H : Forall (Forall (fun x => tgreater_equal x (Fin 0) = true))
                (HetSiren.delta_het_of [[Fin 1; Fin 2]] [Fin 0; Fin 0])).
  { unfold HetSiren.delta_het_of, map2; simpl.
    repeat constructor; unfold tgreater_equal; simpl; apply Rleb_true; lra. }
  split; [exact H|].
  exact (proj1 (train_step_neg_loss_nonnegative (Fin 0.5) _ _ H)).
Defined.

(** ** The reconstruction mask of het_siren.py *)

Lemma mask_entry_finite (r : R) :
  HetSiren.mask_entry (Fin r) = if Reqb r 0 then Fin 0 else Fin 1.
Proof.
  unfold HetSiren.mask_entry, divide_no_nan; simpl.
  destruct (Req_dec_T r 0) as [E|N].
  - subst. rewrite Rabs_R0. now rewrite !Reqb_true.
  - assert (Rabs r <> 0) by now apply Rabs_no_R0.
    rewrite !(Reqb_false (Rabs r)) by assumption.
    rewrite (Reqb_false r) by assumption.
    f_equal. now field.
Qed.

(** C4: the reconstruction mask [divide_no_nan(|m|, |m|)] is binary.  On
    every finite entry [m] of the resized mask it is 1 where the magnitude
    [|m|] is nonzero and 0 where it is zero; the division by zero yields 0,
    so no entry of the mask is NaN or infinite. *)
Theorem reconstruction_mask_binary (resized : list Image) :
  Forall (Forall (Forall is_finite)) resized ->
  HetSiren.reconstruction_mask resized =
    map (map (map (fun m => if tis_zero (tabs m) then Fin 0 else Fin 1))) resized /\
  Forall (Forall (Forall (fun v => v = Fin 0 \/ v = Fin 1)))
    (HetSiren.reconstruction_mask resized).
Proof.
  intros H. unfold HetSiren.reconstruction_mask. split.
  - apply map_ext_Forall. eapply Forall_impl; [|exact H]. intros img Himg.
    apply map_ext_Forall. eapply Forall_impl; [|exact Himg]. intros row Hrow.
    apply map_ext_Forall. eapply Forall_impl; [|exact Hrow]. intros [r| | |] Hm;
      try contradiction.
    rewrite mask_entry_finite. simpl.
    destruct (Req_dec_T r 0) as [E|N].
    + subst. now rewrite Rabs_R0, !Reqb_true.
    + rewrite Reqb_false by assumption.
      rewrite Reqb_false by now apply Rabs_no_R0. reflexivity.
  - apply Forall_map. eapply Forall_impl; [|exact H]. intros img Himg.
    apply Forall_map. eapply Forall_impl; [|exact Himg]. intros row Hrow.
    apply Forall_map. eapply Forall_impl; [|exact Hrow]. intros [r| | |] Hm;
      try contradiction.
    rewrite mask_entry_finite. destruct (Reqb r 0); [now left | now right].
Qed.

Lemma reconstruction_mask_binary_witness :
  HetSiren.reconstruction_mask [[[Fin 0; Fin (-3)]; [Fin 0.25; Fin 0]]] =
    map (map (map (fun m => if tis_zero (tabs m) then Fin 0 else Fin 1)))
      [[[Fin 0; Fin (-3)]; [Fin 0.25; Fin 0]]].
Proof.
  apply (reconstruction_mask_binary [[[Fin 0; Fin (-3)]; [Fin 0.25; Fin 0]]]).
  repeat constructor.
Defined.

(** Whatever the numerator, a zero denominator gives 0. *)
Lemma divide_no_nan_zero (x : tfloat) : divide_no_nan x (Fin 0) = Fin 0.
Proof. unfold divide_no_nan; simpl. now rewrite Reqb_true. Qed.

(** An infinite or NaN entry of the resized mask is outside the guard of
    [divide_no_nan], which tests the denominator against zero only. *)
Lemma mask_entry_not_finite :
  HetSiren.mask_entry PInf = NaN /\ HetSiren.mask_entry NInf = NaN /\
  HetSiren.mask_entry NaN = NaN.
Proof. repeat split. Qed.

(** ** [AutoEncoder.predict_step] of het_siren.py *)

(** C6: with the model in one of its two modes ("spa" or "tomo"),
    [predict_step] returns the encoder outputs when [predict_mode] is "het",
    the decoder applied to the encoder outputs when it is "particles", and
    raises [ValueError] for every other value: there is no default mode. *)
Theorem predict_step_dispatch
    (computeCTF : HetSiren.Generator -> list nat -> nat -> list Image)
    (wiener2DFilter : HetSiren.Generator -> list Image -> list Image)
    (self : HetSiren.AutoEncoder) (g : HetSiren.Generator) (data : HetSiren.Data) :
  HetSiren.mode self = "spa"%string \/ HetSiren.mode self = "tomo"%string ->
  let inputs := snd (HetSiren.batch_inputs computeCTF wiener2DFilter self g data) in
  snd (HetSiren.predict_step computeCTF wiener2DFilter self g data) =
    if String.eqb (HetSiren.predict_mode self) "het" then
      Ok (HetSiren.Latents (HetSiren.encoder self inputs))
    else if String.eqb (HetSiren.predict_mode self) "particles" then
      Ok (HetSiren.Particles (HetSiren.decoder self (HetSiren.encoder self inputs)))
    else Raise (ValueError "Prediction mode not understood!").
Proof.
  intros Hmode inputs. subst inputs. unfold HetSiren.predict_step.
  assert (E : (String.eqb (HetSiren.mode self) "spa"
               || String.eqb (HetSiren.mode self) "tomo") = true).
  { destruct Hmode as [-> | ->]; reflexivity. }
  rewrite E.
  destruct (HetSiren.batch_inputs computeCTF wiener2DFilter self g data) as [g1 inputs].
  simpl.
  destruct (String.eqb (HetSiren.predict_mode self) "het"); [reflexivity|].
  destruct (String.eqb (HetSiren.predict_mode self) "particles"); reflexivity.
Qed.

(** Whatever the mode of the model, a [predict_mode] other than "het" and
    "particles" ends in an exception. *)
Lemma predict_step_never_defaults
    (computeCTF : HetSiren.Generator -> list nat -> nat -> list Image)
    (wiener2DFilter : HetSiren.Generator -> list Image -> list Image)
    (self : HetSiren.AutoEncoder) (g : HetSiren.Generator) (data : HetSiren.Data) :
  HetSiren.predict_mode self <> "het"%string ->
  HetSiren.predict_mode self <> "particles"%string ->
  exists e, snd (HetSiren.predict_step computeCTF wiener2DFilter self g data) = Raise e.
Proof.
  intros Hh Hp. unfold HetSiren.predict_step.
  destruct (String.eqb (HetSiren.mode self) "spa"
            || String.eqb (HetSiren.mode self) "tomo"); [|eexists; reflexivity].
  destruct (HetSiren.batch_inputs computeCTF wiener2DFilter self g data) as [g1 inputs].
  apply String.eqb_neq in Hh, Hp. rewrite Hh, Hp. eexists; reflexivity.
Qed.

(** ** [Decoder.eval_volume_het] of het_siren.py *)

Lemma positive_plus_negative_entry (x : tfloat) :
  x <> PInf /\ x <> NInf ->
  tadd (tmul x (tcast_bool (tgreater_equal x (Fin 0))))
       (tmul x (tcast_bool (tless x (Fin 0)))) = x.
Proof.
  intros [Hp Hn]. destruct x as [r| | |]; try congruence; [|reflexivity].
  unfold tgreater_equal; simpl.
  destruct (Rle_dec 0 r) as [Hr|Hr].
  - rewrite Rleb_true, Rltb_false by assumption. simpl. f_equal; ring.
  - rewrite Rleb_false, Rltb_true by lra. simpl. f_equal; ring.
Qed.

Lemma positive_plus_negative (v : Volume) :
  Forall (fun x => x <> PInf /\ x <> NInf) v ->
  map2 tadd (HetSiren.positive_part v) (HetSiren.negative_part v) = v.
Proof.
  intros H. unfold HetSiren.positive_part, HetSiren.negative_part.
  rewrite map2_map_same.
  rewrite <- (map_id v) at 2. apply map_ext_Forall.
  eapply Forall_impl; [|exact H]. intros x Hx.
  now apply positive_plus_negative_entry.
Qed.

Section VolumeFacts.

Variable filterVol : Volume -> Volume.
Variable decode_het : list (list tfloat) -> list (list tfloat).

Lemma eval_volume_one_thresholds (g : HetSiren.Generator) (filter : bool)
    (vals : list tfloat) (vol : Volume) :
  HetSiren.scatter_volume filterVol g filter vals = Ok vol ->
  HetSiren.eval_volume_one filterVol g filter true vals
    = Ok (HetSiren.positive_part vol) /\
  (Forall (fun x => x <> PInf /\ x <> NInf) vol ->
   HetSiren.eval_volume_one filterVol g filter false vals = Ok vol).
Proof.
  intros Hs. unfold HetSiren.eval_volume_one. rewrite Hs. simpl. split.
  - reflexivity.
  - intros Hfin. now rewrite positive_plus_negative.
Qed.

Lemma for_each_eval_volume_one (g : HetSiren.Generator) (filter : bool)
    (rows : list (list tfloat)) (vols : list Volume) :
  for_each (HetSiren.scatter_volume filterVol g filter) rows = Ok vols ->
  for_each (HetSiren.eval_volume_one filterVol g filter true) rows
    = Ok (map HetSiren.positive_part vols) /\
  (Forall (Forall (fun x => x <> PInf /\ x <> NInf)) vols ->
   for_each (HetSiren.eval_volume_one filterVol g filter false) rows = Ok vols).
Proof.
  revert vols. induction rows as [|row rows IH]; intros vols H; simpl in *.
  - inversion H; subst. split; [reflexivity | intros _; reflexivity].
  - destruct (HetSiren.scatter_volume filterVol g filter row) as [vol|e] eqn:Es;
      simpl in H; [|discriminate].
    destruct (for_each (HetSiren.scatter_volume filterVol g filter) rows)
      as [vs|e] eqn:Er; simpl in H; [|discriminate].
    inversion H; subst; clear H.
    destruct (eval_volume_one_thresholds g filter row vol Es) as [Ht Hf].
    destruct (IH vs eq_refl) as [IHt IHf].
    split.
    + rewrite Ht. simpl. rewrite IHt. reflexivity.
    + intros Hall. inversion Hall; subst.
      rewrite Hf by assumption. simpl. rewrite IHf by assumption. reflexivity.
Qed.

(** C10: in [Decoder.eval_volume_het] with [only_pos] False the negative
    part that is zeroed out after the optional filtering is added back
    unchanged, so the returned volumes are exactly the scattered
    base-plus-delta volumes (filtered when [filter] is True), as long as
    these hold no infinity; with [only_pos] True the returned volumes are
    their positive parts. *)
Theorem eval_volume_het_no_net_threshold (g : HetSiren.Generator)
    (x_het : list (list tfloat)) (filter : bool) (vols : list Volume) :
  for_each (HetSiren.scatter_volume filterVol g filter)
    (HetSiren.decoded_values decode_het g x_het) = Ok vols ->
  Forall (Forall (fun x => x <> PInf /\ x <> NInf)) vols ->
  HetSiren.decoder_eval_volume_het filterVol decode_het g x_het filter false = Ok vols /\
  HetSiren.decoder_eval_volume_het filterVol decode_het g x_het filter true
    = Ok (map HetSiren.positive_part vols).
Proof.
  intros Hs Hfin. unfold HetSiren.decoder_eval_volume_het.
  destruct (for_each_eval_volume_one g filter _ vols Hs) as [Ht Hf].
  split; [now apply Hf | exact Ht].
Qed.

(** ** [AutoEncoder.eval_volume_het] of het_siren.py *)

Variable getAllCoordsMask : HetSiren.Generator -> list (list (list tfloat)).
Variable original_volume_file : option Volume.

Lemma set_coords_same (g : HetSiren.Generator) :
  HetSiren.set_coords g (HetSiren.coords g) = g.
Proof. destruct g; reflexivity. Qed.

Lemma set_coords_twice (g : HetSiren.Generator) (c c' : list (list tfloat)) :
  HetSiren.set_coords (HetSiren.set_coords g c) c' = HetSiren.set_coords g c'.
Proof. reflexivity. Qed.

(** The loop over the grids changes the [coords] field only, and leaves the
    last grid in it. *)
Lemma accumulate_volumes_generator (x_het : list (list tfloat))
    (filter only_pos : bool) (new_coords : list (list (list tfloat))) :
  forall (g g' : HetSiren.Generator) (volume : list Volume) (r : result (list Volume)),
  HetSiren.accumulate_volumes filterVol decode_het g x_het filter only_pos
    new_coords volume = (g', r) ->
  exists c, g' = HetSiren.set_coords g c /\
            (forall v, r = Ok v -> c = last new_coords (HetSiren.coords g)).
Proof.
  induction new_coords as [|c rest IH]; intros g g' volume r H; simpl in H.
  - injection H as <- <-. exists (HetSiren.coords g).
    split; [now rewrite set_coords_same | reflexivity].
  - destruct (HetSiren.decoder_eval_volume_het filterVol decode_het
                (HetSiren.set_coords g c) x_het filter only_pos) as [v|e].
    + apply IH in H. destruct H as [c' [Hg Hc]].
      exists c'. split; [now rewrite Hg, set_coords_twice|].
      intros v' Hv. rewrite (Hc v' Hv).
      change (HetSiren.coords (HetSiren.set_coords g c)) with c.
      clear. destruct rest as [|c0 rest]; [reflexivity|].
      change (last (c :: c0 :: rest) (HetSiren.coords g))
        with (last (c0 :: rest) (HetSiren.coords g)).
      apply last_cons_default.
    + injection H as <- <-. exists c. split; [reflexivity | discriminate].
Qed.

(** On a normal return the whole generator is as it was before the call. *)
Lemma eval_volume_het_generator (g : HetSiren.Generator) (x_het : list (list tfloat))
    (allCoords filter only_pos add_to_original : bool) (vol : list Volume) :
  snd (HetSiren.eval_volume_het filterVol decode_het getAllCoordsMask
         original_volume_file g x_het allCoords filter only_pos add_to_original)
    = Ok vol ->
  fst (HetSiren.eval_volume_het filterVol decode_het getAllCoordsMask
         original_volume_file g x_het allCoords filter only_pos add_to_original)
    = g.
Proof.
  unfold HetSiren.eval_volume_het.
  set (swap := allCoords && (1 <? HetSiren.step g)%Z).
  set (cs := if swap then getAllCoordsMask g else [HetSiren.coords g]).
  destruct (HetSiren.accumulate_volumes filterVol decode_het g x_het filter
              only_pos cs _) as [g' r] eqn:E.
  apply accumulate_volumes_generator in E. destruct E as [c [Hg Hc]].
  destruct r as [v|e]; simpl; [|discriminate].
  intros _. subst g'. destruct swap eqn:Es.
  - rewrite set_coords_twice. apply set_coords_same.
  - rewrite (Hc v eq_refl). subst cs. simpl. apply set_coords_same.
Qed.

(** C7: for every latent batch and every combination of the flags
    [allCoords], [filter], [only_pos] and [add_to_original], when
    [AutoEncoder.eval_volume_het] returns, [generator.coords] has the value
    it had before the call. *)
Theorem eval_volume_het_restores_coords (g : HetSiren.Generator)
    (x_het : list (list tfloat))
    (allCoords filter only_pos add_to_original : bool) (vol : list Volume) :
  snd (HetSiren.eval_volume_het filterVol decode_het getAllCoordsMask
         original_volume_file g x_het allCoords filter only_pos add_to_original)
    = Ok vol ->
  HetSiren.coords
    (fst (HetSiren.eval_volume_het filterVol decode_het getAllCoordsMask
            original_volume_file g x_het allCoords filter only_pos add_to_original))
    = HetSiren.coords g.
Proof.
  intros H. now rewrite (eval_volume_het_generator _ _ _ _ _ _ _ H).
Qed.

End VolumeFacts.

Lemma predict_step_dispatch_witness :
  snd (HetSiren.predict_step (fun _ _ _ => []) (fun _ images => images)
         (Samples.het_autoencoder "volumes") Samples.het_generator Samples.het_data)
    = Raise (ValueError "Prediction mode not understood!").
Proof.
  apply (predict_step_dispatch (fun _ _ _ => []) (fun _ images => images)
           (Samples.het_autoencoder "volumes") Samples.het_generator Samples.het_data).
  left. reflexivity.
Defined.

Lemma eval_volume_het_no_net_threshold_witness :
  HetSiren.decoder_eval_volume_het (fun v => v) Samples.het_decode
    Samples.het_generator [[Fin 0]] false false = Ok [[Fin (1 + -3)]].
Proof.
  apply (eval_volume_het_no_net_threshold (fun v => v) Samples.het_decode
           Samples.het_generator [[Fin 0]] false [[Fin (1 + -3)]]).
  - reflexivity.
  - repeat constructor; discriminate.
Defined.

Lemma eval_volume_het_restores_coords_witness :
  HetSiren.coords
    (fst (HetSiren.eval_volume_het (fun v => v) Samples.het_decode
            Samples.het_all_coords None Samples.het_generator [[Fin 0]]
            true false false false))
    = [[Fin 0; Fin 0; Fin 0]].
Proof.
  eapply (eval_volume_het_restores_coords (fun v => v) Samples.het_decode
            Samples.het_all_coords None Samples.het_generator [[Fin 0]]
            true false false false).
  reflexivity.
Defined.

(** ** Finite values *)

Lemma is_finite_inv (x : tfloat) : is_finite x -> exists r, x = Fin r.
Proof. destruct x; simpl; try contradiction. intros _. now eexists. Qed.

Lemma tadd_finite (x y : tfloat) : is_finite x -> is_finite y -> is_finite (tadd x y).
Proof. destruct x, y; simpl; tauto. Qed.

Lemma tmul_finite (x y : tfloat) : is_finite x -> is_finite y -> is_finite (tmul x y).
Proof. destruct x, y; simpl; tauto. Qed.

Lemma fold_tadd_finite (l : list tfloat) (acc : tfloat) :
  is_finite acc -> Forall is_finite l -> is_finite (fold_left tadd l acc).
Proof.
  revert acc. induction l as [|x l IH]; intros acc Ha Hl; simpl; [exact Ha|].
  inversion Hl; subst. apply IH; [now apply tadd_finite | assumption].
Qed.

Lemma reduce_sum_finite (l : list tfloat) :
  Forall is_finite l -> is_finite (reduce_sum l).
Proof. intros H. unfold reduce_sum. now apply fold_tadd_finite. Qed.

Lemma map2_tmul_finite (a b : list tfloat) :
  Forall is_finite a -> Forall is_finite b -> Forall is_finite (map2 tmul a b).
Proof.
  intros Ha. revert b. unfold map2.
  induction Ha as [|x a Hx _ IH]; intros b Hb; simpl; [constructor|].
  destruct Hb as [|y b Hy Hb]; simpl; [constructor|].
  constructor; [now apply tmul_finite | now apply IH].
Qed.

Lemma dot_finite (a b : list tfloat) :
  Forall is_finite a -> Forall is_finite b -> is_finite (dot a b).
Proof. intros Ha Hb. unfold dot. now apply reduce_sum_finite, map2_tmul_finite. Qed.

(** ** [safe_acos] and the angular distances of reconsiren.py *)

Lemma safe_acos_finite (x : R) :
  ReconSiren.safe_acos (Fin x) =
    Fin (acos (Rmin (Rmax x (-1 + 1e-7)) (1 - 1e-7))) /\
  -1 < Rmin (Rmax x (-1 + 1e-7)) (1 - 1e-7) < 1.
Proof.
  assert (Hb : -1 + 1e-7 <= Rmin (Rmax x (-1 + 1e-7)) (1 - 1e-7) <= 1 - 1e-7).
  { split.
    - apply Rmin_glb; [apply Rmax_r | lra].
    - apply Rmin_r. }
  split; [|lra].
  unfold ReconSiren.safe_acos, tclip, tless.
  destruct (Rlt_dec x (-1 + 1e-7)) as [Hlo|Hlo].
  - rewrite Rltb_true by assumption.
    rewrite Rmax_right, Rmin_left by lra.
    unfold tacos. rewrite !Rleb_true by lra. reflexivity.
  - rewrite Rltb_false by lra.
    destruct (Rlt_dec (1 - 1e-7) x) as [Hhi|Hhi].
    + rewrite Rltb_true by assumption.
      rewrite Rmax_left, Rmin_right by lra.
      unfold tacos. rewrite !Rleb_true by lra. reflexivity.
    + rewrite Rltb_false by lra.
      rewrite Rmax_left, Rmin_left by lra.
      unfold tacos. rewrite !Rleb_true by lra. reflexivity.
Qed.

(** C9: for every real [x], below -1 and above 1 included, [safe_acos(x)]
    is the inverse cosine of [x] clipped to [-1 + 1e-7, 1 - 1e-7], a finite
    number strictly between 0 and pi; hence on finite vectors every angular
    distance computed by [uniform_distribution_loss] is such a number, never
    NaN. *)
Theorem safe_acos_guard :
  (forall x : R,
     ReconSiren.safe_acos (Fin x) =
       Fin (acos (Rmin (Rmax x (-1 + 1e-7)) (1 - 1e-7))) /\
     0 < acos (Rmin (Rmax x (-1 + 1e-7)) (1 - 1e-7)) < PI) /\
  (forall vectors : list (list tfloat),
     Forall (Forall is_finite) vectors ->
     Forall (Forall (fun d => exists a, d = Fin a /\ 0 < a < PI))
       (ReconSiren.angular_distances vectors)).
Proof.
  split.
  - intros x. destruct (safe_acos_finite x) as [E Hb].
    split; [exact E | now apply acos_bound_lt].
  - intros vectors H. unfold ReconSiren.angular_distances, ReconSiren.cosine_similarity.
    rewrite map_map. apply Forall_map.
    rewrite Forall_forall. intros a Ha.
    rewrite map_map. apply Forall_map.
    rewrite Forall_forall. intros b Hb.
    rewrite Forall_forall in H.
    destruct (is_finite_inv _ (dot_finite a b (H a Ha) (H b Hb))) as [c Hc].
    rewrite Hc. destruct (safe_acos_finite c) as [E Hr].
    eexists. split; [exact E | now apply acos_bound_lt].
Qed.

Lemma safe_acos_guard_witness :
  ReconSiren.safe_acos (Fin 2) = Fin (acos (Rmin (Rmax 2 (-1 + 1e-7)) (1 - 1e-7))) /\
  Forall (Forall (fun d => exists a, d = Fin a /\ 0 < a < PI))
    (ReconSiren.angular_distances [[Fin 1; Fin 0; Fin 0]; [Fin 1; Fin 1; Fin 0]]).
Proof.
  split.
  - exact (proj1 (proj1 safe_acos_guard 2)).
  - apply (proj2 safe_acos_guard). repeat constructor.
Defined.

(** ** The scatter projection of reconsiren.py *)

Lemma round_half_even_IZR (k : Z) : round_half_even (IZR k) = k.
Proof.
  unfold round_half_even. rewrite ZfloorZ.
  rewrite Rltb_true by lra. reflexivity.
Qed.

Lemma tcast_int32_IZR (k : Z) : tcast_int32 (Fin (IZR k)) = k.
Proof.
  unfold tcast_int32. destruct (Rleb 0 (IZR k)).
  - apply ZfloorZ.
  - apply Zceil_eq. lra.
Qed.

Lemma list_set_length {A : Type} (n : nat) (v : A) (l : list A) :
  List.length (list_set n v l) = List.length l.
Proof.
  revert n. induction l as [|h t IH]; intros [|n]; simpl; try reflexivity.
  now rewrite IH.
Qed.

Lemma list_set_nth_eq {A : Type} (n : nat) (v d : A) (l : list A) :
  (n < List.length l)%nat -> nth n (list_set n v l) d = v.
Proof.
  revert n. induction l as [|h t IH]; intros [|n] H; simpl in *; try lia.
  - reflexivity.
  - apply IH. lia.
Qed.

Lemma list_set_nth_neq {A : Type} (n m : nat) (v d : A) (l : list A) :
  n <> m -> nth m (list_set n v l) d = nth m l d.
Proof.
  revert n m. induction l as [|h t IH]; intros [|n] [|m] H; simpl; try reflexivity.
  - congruence.
  - apply IH. congruence.
Qed.

(** The weight of a point at a finite position: [exp(-d^2 / (2 sigma^2))]
    with [sigma = 1], [d] the distance to the rounded position. *)
Lemma weight_finite (y x : R) :
  ReconSiren.weight (Fin y, Fin x) =
    Fin (exp (- ((IZR (round_half_even y) - y) ^ 2
                 + (IZR (round_half_even x) - x) ^ 2) / (2 * 1 ^ 2))).
Proof.
  unfold ReconSiren.weight, ReconSiren.sq_distance, ReconSiren.round_position,
    reduce_sum, tsub; simpl.
  rewrite Reqb_false by lra. simpl. do 2 f_equal. field.
Qed.

Lemma weight_integer_position (i j : Z) :
  ReconSiren.weight (Fin (IZR i), Fin (IZR j)) = Fin 1.
Proof.
  rewrite weight_finite, !round_half_even_IZR. f_equal.
  match goal with |- exp ?a = 1 => replace a with 0 by field end.
  apply exp_0.
Qed.

(** One in-bounds update of an image whose rows all have [xs] pixels. *)
Lemma add_at_nth (xs : nat) (img : Image) (i j : Z) (v : tfloat) (a b : nat) :
  List.length img = xs ->
  (forall k, (k < xs)%nat -> List.length (nth k img []) = xs) ->
  (0 <= i < Z.of_nat xs)%Z -> (0 <= j < Z.of_nat xs)%Z ->
  (a < xs)%nat -> (b < xs)%nat ->
  nth b (nth a (ReconSiren.add_at img (i, j) v) []) (Fin 0) =
    if ((Z.of_nat a =? i) && (Z.of_nat b =? j))%Z
    then tadd (nth b (nth a img []) (Fin 0)) v
    else nth b (nth a img []) (Fin 0).
Proof.
  intros Hlen Hrows Hi Hj Ha Hb. unfold ReconSiren.add_at; simpl.
  destruct (Z.eqb_spec (Z.of_nat a) i) as [Ei|Ni]; simpl.
  - subst i. rewrite Nat2Z.id.
    rewrite list_set_nth_eq by lia.
    destruct (Z.eqb_spec (Z.of_nat b) j) as [Ej|Nj].
    + subst j. rewrite Nat2Z.id. apply list_set_nth_eq. rewrite Hrows; lia.
    + apply list_set_nth_neq. lia.
  - rewrite list_set_nth_neq by lia. reflexivity.
Qed.

(** The scatter of a single point at an integer pixel is one update of the
    zero image with the unweighted value. *)
Lemma scatter_image_single (dev : ReconSiren.Device) (xs : nat) (i j : Z) (v : tfloat) :
  (0 <= i < Z.of_nat xs)%Z -> (0 <= j < Z.of_nat xs)%Z ->
  ReconSiren.scatter_image dev xs [(Fin (IZR i), Fin (IZR j))] [v] =
    Ok (ReconSiren.add_at (repeat (zeros xs) xs) (i, j) v).
Proof.
  intros Hi Hj. unfold ReconSiren.scatter_image.
  cbn [map map2 combine fst snd].
  rewrite weight_integer_position, tmul_one_r.
  cbn [tround]. rewrite !round_half_even_IZR, !tcast_int32_IZR.
  cbn [ReconSiren.tensor_scatter_nd_add].
  assert (Hin : ReconSiren.in_bounds xs (i, j) = true).
  { unfold ReconSiren.in_bounds; simpl.
    repeat (apply andb_true_intro; split); lia. }
  now rewrite Hin.
Qed.


(** ** The blur filter bank of reconsiren.py *)

Lemma linspace_length (start stop : R) (num : nat) :
  List.length (ReconSiren.linspace start stop num) = num.
Proof.
  destruct num as [|[|k]]; simpl; try reflexivity.
  now rewrite length_map, length_seq.
Qed.








Lemma Rsum_pos (l : list R) :
  l <> [] -> Forall (fun v => 0 < v) l -> 0 < ReconSiren.Rsum l.
Proof.
  intros Hne H. destruct H as [|x l Hx Hl]; [congruence|]. clear Hne. simpl.
  assert (0 <= ReconSiren.Rsum l).
  { induction Hl as [|y l Hy _ IH]; simpl; lra. }
  lra.
Qed.


Section BlurFacts.

Variable norm_cdf : R -> R.
Hypothesis norm_cdf_increasing : forall x y : R, x < y -> norm_cdf x < norm_cdf y.





End BlurFacts.

(** A filter of size 1 has no entry: [np.diff] of a single sample is empty. *)
Lemma gaussian_kernel_size_one (norm_cdf : R -> R) (kind : ReconSiren.Scalar) (std : R) :
  ReconSiren.gaussian_kernel norm_cdf kind 1 std = Ok [] /\
  ReconSiren.sum2 [] = 0.
Proof. split; reflexivity. Qed.




(** ** The order on float values *)

Ltac tfloat_order :=
  repeat match goal with x : tfloat |- _ => destruct x end;
  simpl in *; unfold Rltb, Rleb in *;
  repeat match goal with
         | H : context [Rlt_dec ?a ?b] |- _ => destruct (Rlt_dec a b)
         | H : context [Rle_dec ?a ?b] |- _ => destruct (Rle_dec a b)
         | |- context [Rlt_dec ?a ?b] => destruct (Rlt_dec a b)
         | |- context [Rle_dec ?a ?b] => destruct (Rle_dec a b)
         end;
  try reflexivity; try discriminate; try tauto; try lra.

Lemma tless_irrefl (x : tfloat) : tless x x = false.
Proof. tfloat_order. Qed.

Lemma tless_le (x y : tfloat) : tless x y = true -> tless_equal x y = true.
Proof. intros H. tfloat_order. Qed.

Lemma tle_trans (x y z : tfloat) :
  tless_equal x y = true -> tless_equal y z = true -> tless_equal x z = true.
Proof. intros H1 H2. tfloat_order. Qed.

Lemma tlt_le_trans (x y z : tfloat) :
  tless x y = true -> tless_equal y z = true -> tless x z = true.
Proof. intros H1 H2. tfloat_order. Qed.

Lemma tle_not_nan (x y : tfloat) :
  tless_equal x y = true -> is_nan x = false /\ is_nan y = false.
Proof. intros H. split; tfloat_order. Qed.

Lemma tnot_less_le (x y : tfloat) :
  is_nan x = false -> is_nan y = false -> tless y x = false -> tless_equal x y = true.
Proof. intros Hx Hy H. tfloat_order. Qed.

Lemma initial_loss_value : tmul (Fin 10000) (Fin 1) = Fin 10000.
Proof. simpl. f_equal. ring. Qed.

(** ** The running minimum *)

(** While no loss is at most the initial one, the initial pair stays. *)
Lemma running_argmin_none {P : Type} (init : tfloat * P) (cs : list (tfloat * P)) :
  Forall (fun c => tless_equal (fst c) (fst init) = false) cs ->
  running_argmin init cs = init.
Proof.
  unfold running_argmin. induction 1 as [|c cs Hc _ IH]; simpl; [reflexivity|].
  rewrite Hc. exact IH.
Qed.

Lemma tle_refl (x : tfloat) : is_nan x = false -> tless_equal x x = true.
Proof. intros H. tfloat_order. Qed.

(** The running arg-min is at most its starting pair, no candidate is
    strictly below it, and it is a candidate unless no candidate is at most
    the starting pair. *)
Lemma running_argmin_inv {P : Type} (cs : list (tfloat * P)) :
  forall acc : tfloat * P,
  is_nan (fst acc) = false ->
  let res := running_argmin acc cs in
  is_nan (fst res) = false /\
  tless_equal (fst res) (fst acc) = true /\
  (forall c, In c cs -> tless (fst c) (fst res) = false) /\
  (In res cs \/
   (res = acc /\ Forall (fun c => tless_equal (fst c) (fst acc) = false) cs)).
Proof.
  unfold running_argmin.
  induction cs as [|c cs IH]; intros acc Hnan; simpl.
  - repeat split; [assumption | now apply tle_refl | intros c [] | right; auto].
  - destruct (tless_equal (fst c) (fst acc)) eqn:E.
    + destruct (tle_not_nan _ _ E) as [Hc _].
      destruct (IH c Hc) as [H1 [H2 [H3 H4]]].
      repeat split.
      * assumption.
      * now apply (tle_trans _ (fst c)).
      * intros c' [<-|Hc']; [|now apply H3].
        destruct (tless (fst c) (fst (fold_left _ cs c))) eqn:E'; [|reflexivity].
        apply (tlt_le_trans _ _ _ E') in H2. now rewrite tless_irrefl in H2.
      * left. destruct H4 as [H4|[H4 _]]; [now right | now left].
    + destruct (IH acc Hnan) as [H1 [H2 [H3 H4]]].
      repeat split.
      * assumption.
      * assumption.
      * intros c' [<-|Hc']; [|now apply H3].
        destruct (tless (fst c) (fst (fold_left _ cs acc))) eqn:E'; [|reflexivity].
        apply (tlt_le_trans _ _ _ E') in H2. apply tless_le in H2. congruence.
      * destruct H4 as [H4|[H4 H5]]; [left; now right|].
        right. split; [assumption|]. now constructor.
Qed.

(** When some candidate is at most the initial loss, the running arg-min is
    a candidate of globally minimal loss. *)
Lemma running_argmin_spec {P : Type} (init : tfloat * P) (cs : list (tfloat * P)) :
  (exists c, In c cs /\ tless_equal (fst c) (fst init) = true) ->
  In (running_argmin init cs) cs /\
  (forall c, In c cs -> tless (fst c) (fst (running_argmin init cs)) = false).
Proof.
  intros [c0 [Hin Hle]].
  destruct (tle_not_nan _ _ Hle) as [_ Hnan].
  destruct (running_argmin_inv cs init Hnan) as [_ [_ [H3 H4]]].
  split; [|exact H3].
  destruct H4 as [H4|[_ H5]]; [exact H4|].
  rewrite Forall_forall in H5. specialize (H5 c0 Hin). congruence.
Qed.

Lemma running_min_inv (ls : list tfloat) :
  forall acc : tfloat,
  is_nan acc = false -> Forall (fun l => is_nan l = false) ls ->
  let res := running_min acc ls in
  is_nan res = false /\
  tless_equal res acc = true /\
  (forall l, In l ls -> tless_equal res l = true) /\
  (res = acc \/ In res ls).
Proof.
  unfold running_min.
  induction ls as [|l ls IH]; intros acc Hacc Hls; simpl.
  - repeat split; [assumption | now apply tle_refl | intros l [] | now left].
  - inversion Hls as [|? ? Hl Hls']; subst.
    assert (Hstep : is_nan (tmin l acc) = false /\
                    tless_equal (tmin l acc) acc = true /\
                    tless_equal (tmin l acc) l = true /\
                    (tmin l acc = acc \/ tmin l acc = l)).
    { unfold tmin. rewrite Hl, Hacc. cbn [orb]. destruct (tless acc l) eqn:E.
      - repeat split; [assumption | now apply tle_refl | now apply tless_le | now left].
      - repeat split; [assumption | now apply tnot_less_le | now apply tle_refl
                      | now right]. }
    destruct Hstep as [S1 [S2 [S3 S4]]].
    destruct (IH (tmin l acc) S1 Hls') as [H1 [H2 [H3 H4]]].
    repeat split.
    + assumption.
    + now apply (tle_trans _ (tmin l acc)).
    + intros l' [<-|Hl']; [now apply (tle_trans _ (tmin l acc)) | now apply H3].
    + destruct H4 as [H4|H4]; [|right; now right].
      rewrite H4. destruct S4 as [S4|S4]; rewrite S4; [now left | right; now left].
Qed.

(** A NaN entry makes the running minimum NaN. *)
Lemma running_min_nan_acc (ls : list tfloat) : running_min NaN ls = NaN.
Proof.
  unfold running_min. induction ls as [|l ls IH]; [reflexivity|]. simpl.
  replace (tmin l NaN) with NaN; [exact IH|].
  unfold tmin. now rewrite orb_true_r.
Qed.

Lemma running_min_nan (ls : list tfloat) :
  forall acc : tfloat,
  Exists (fun l => is_nan l = true) ls -> running_min acc ls = NaN.
Proof.
  induction ls as [|l ls IH]; intros acc H; [inversion H|].
  unfold running_min; simpl. fold (running_min (tmin l acc) ls).
  inversion H as [? ? Hl|? ? Hls]; subst.
  - unfold tmin. rewrite Hl. cbn [orb]. apply running_min_nan_acc.
  - now apply IH.
Qed.

(** ** From the batch tensors to one batch element *)

Lemma where_length {A : Type} (B : nat) (mask : list bool) (xs ys : list A) :
  List.length mask = B -> List.length xs = B -> List.length ys = B ->
  List.length (where_ mask xs ys) = B.
Proof.
  intros Hm Hx Hy. unfold where_. rewrite map2_length, length_combine. lia.
Qed.

Lemma where_nth {A : Type} (B b : nat) (mask : list bool) (xs ys : list A) (d : A) :
  List.length mask = B -> List.length xs = B -> List.length ys = B -> (b < B)%nat ->
  nth b (where_ mask xs ys) d = if nth b mask false then nth b xs d else nth b ys d.
Proof.
  intros Hm Hx Hy Hb. unfold where_.
  rewrite (map2_nth _ _ _ _ false (d, d)) by (rewrite ?length_combine; lia).
  rewrite combine_nth by lia. reflexivity.
Qed.

Lemma keep_best_at (B b : nat) (st : ReconSiren.Kept) (c : ReconSiren.Candidate) :
  kept_shape B st -> candidate_shape B c -> (b < B)%nat ->
  kept_shape B (ReconSiren.keep_best st c) /\
  kept_at b (ReconSiren.keep_best st c) =
    if tless_equal (fst (candidate_at b c)) (fst (kept_at b st))
    then candidate_at b c else kept_at b st.
Proof.
  intros [S1 [S2 [S3 S4]]] [C1 [C2 [C3 C4]]] Hb.
  assert (Hm : List.length (map2 tless_equal (ReconSiren.cand_loss c)
                               (ReconSiren.prev_loss_rec st)) = B)
    by (rewrite map2_length; lia).
  split.
  - unfold kept_shape, ReconSiren.keep_best; simpl.
    repeat split; apply where_length; assumption.
  - unfold kept_at, candidate_at, ReconSiren.keep_best; simpl.
    rewrite !(where_nth B) by assumption.
    rewrite (map2_nth _ _ _ _ NaN NaN) by lia.
    destruct (tless_equal _ _); reflexivity.
Qed.

Lemma fold_keep_best_at (B b : nat) (cands : list ReconSiren.Candidate) :
  forall st : ReconSiren.Kept,
  kept_shape B st -> Forall (candidate_shape B) cands -> (b < B)%nat ->
  kept_at b (fold_left ReconSiren.keep_best cands st) =
    running_argmin (kept_at b st) (map (candidate_at b) cands).
Proof.
  induction cands as [|c cands IH]; intros st Hst Hc Hb; [reflexivity|].
  inversion Hc; subst. simpl.
  destruct (keep_best_at B b st c) as [Hshape Hat]; try assumption.
  rewrite IH by assumption. unfold running_argmin; simpl.
  now rewrite Hat.
Qed.

Lemma fold_keep_min_loss
    (cls : list (list tfloat * list (list tfloat) * list (list (list tfloat)))) :
  forall st : ReconSiren.LossState,
  ReconSiren.ls_loss_rec
    (fold_left (fun st c => ReconSiren.keep_min st (fst (fst c)) (snd (fst c)) (snd c))
       cls st) =
  fold_left (fun acc l => map2 tmin l acc) (map (fun c => fst (fst c)) cls)
    (ReconSiren.ls_loss_rec st).
Proof.
  induction cls as [|c cls IH]; intros st; [reflexivity|]. simpl. now rewrite IH.
Qed.

Lemma fold_map2_tmin_at (B b : nat) (ls : list (list tfloat)) :
  forall acc : list tfloat,
  List.length acc = B -> Forall (fun l => List.length l = B) ls -> (b < B)%nat ->
  nth b (fold_left (fun acc l => map2 tmin l acc) ls acc) NaN =
    running_min (nth b acc NaN) (map (fun l => nth b l NaN) ls).
Proof.
  induction ls as [|l ls IH]; intros acc Ha Hls Hb; [reflexivity|].
  inversion Hls; subst. simpl.
  rewrite IH by (try assumption; rewrite map2_length; lia).
  unfold running_min; simpl.
  rewrite (map2_nth _ _ _ _ NaN NaN) by lia. reflexivity.
Qed.

(** ** The selection across candidate heads in reconsiren.py *)

Section CandidateFacts.

Variable dev : ReconSiren.Device.
Variable gramSchmidt : list (list tfloat) -> list (list (list tfloat)).
Variable gaussian_filter2d : list Image -> list Image.
Variable ctfFilterImage : list Image -> list Image.
Variable wiener2DFilter : list Image -> list Image.
Variable mse : list Image -> list Image -> list tfloat.
Variable blur_channel : nat -> list Image -> list Image.
Variable self : ReconSiren.AutoEncoder.
Variable g : ReconSiren.Generator.

Local Abbreviation candidate :=
  (ReconSiren.candidate dev gramSchmidt gaussian_filter2d ctfFilterImage mse self g).
Local Abbreviation candidates_loop :=
  (ReconSiren.candidates_loop dev gramSchmidt gaussian_filter2d ctfFilterImage mse self g).
Local Abbreviation predict_step :=
  (ReconSiren.predict_step dev gramSchmidt gaussian_filter2d ctfFilterImage
     wiener2DFilter mse self g).
Local Abbreviation predict_candidates :=
  (ReconSiren.predict_candidates dev gramSchmidt gaussian_filter2d ctfFilterImage
     wiener2DFilter mse self g).
Local Abbreviation candidate_loss :=
  (ReconSiren.candidate_loss dev gramSchmidt gaussian_filter2d ctfFilterImage mse
     blur_channel self g).
Local Abbreviation heads_loop :=
  (ReconSiren.heads_loop dev gramSchmidt gaussian_filter2d ctfFilterImage mse
     blur_channel self g).
Local Abbreviation loss_candidates :=
  (ReconSiren.loss_candidates dev gramSchmidt gaussian_filter2d ctfFilterImage mse
     blur_channel self g).
Local Abbreviation best_loss_rec :=
  (ReconSiren.best_loss_rec dev gramSchmidt gaussian_filter2d ctfFilterImage mse
     blur_channel self g).

(** The loops are folds over the outputs of the heads. *)
Lemma candidates_loop_fold (images : list Image) (encoded : list (list tfloat))
    (delta : list tfloat) (idrs : list nat) :
  forall (cands : list ReconSiren.Candidate) (st : ReconSiren.Kept),
  for_each (candidate images encoded delta) idrs = Ok cands ->
  candidates_loop images encoded delta idrs st
    = Ok (fold_left ReconSiren.keep_best cands st).
Proof.
  induction idrs as [|idr idrs IH]; intros cands st H; simpl in *.
  - injection H as <-. reflexivity.
  - destruct (candidate images encoded delta idr) as [c|e]; simpl in *; [|discriminate].
    destruct (for_each (candidate images encoded delta) idrs) as [cs|e];
      simpl in *; [|discriminate].
    injection H as <-. simpl. now apply IH.
Qed.

Lemma heads_loop_fold (images images_corrected : list Image)
    (encoded : list (list tfloat)) (delta : list tfloat) (idrs : list nat) :
  forall (cls : list (list tfloat * list (list tfloat) * list (list (list tfloat))))
         (st : ReconSiren.LossState),
  for_each (candidate_loss images images_corrected encoded delta) idrs = Ok cls ->
  heads_loop images images_corrected encoded delta idrs st
    = Ok (fold_left
            (fun st c => ReconSiren.keep_min st (fst (fst c)) (snd (fst c)) (snd c))
            cls st).
Proof.
  induction idrs as [|idr idrs IH]; intros cls st H; simpl in *.
  - injection H as <-. reflexivity.
  - destruct (candidate_loss images images_corrected encoded delta idr) as [c|e];
      simpl in *; [|discriminate].
    destruct (for_each (candidate_loss images images_corrected encoded delta) idrs)
      as [cs|e]; simpl in *; [|discriminate].
    injection H as <-. simpl. now apply IH.
Qed.

Lemma initial_kept_shape (B : nat) : kept_shape B (ReconSiren.initial_kept g B).
Proof. unfold kept_shape, ReconSiren.initial_kept; simpl. now rewrite !repeat_length. Qed.

Lemma initial_kept_loss (B b : nat) :
  (b < B)%nat -> fst (kept_at b (ReconSiren.initial_kept g B)) = Fin 10000.
Proof.
  intros Hb. unfold kept_at, ReconSiren.initial_kept; simpl.
  rewrite nth_repeat_lt by assumption. apply initial_loss_value.
Qed.

(** C1, as the code runs.  Both loops start the running loss at 10000 and
    compare against it.  For every batch and every number K of heads, and for
    each batch element on its own: when at least one candidate has a loss of
    at most 10000 for that element, [predict_step] keeps the pose, the shift
    and the predicted image of a candidate whose loss is the global minimum
    over the K candidates; when no candidate has a loss of at most 10000 it
    keeps none of them, but the zero pose, shift and image it started from.
    The reconstruction loss with which the loop of
    [decode_images_with_loss] ends is, element by element, NaN when a
    candidate loss is NaN and otherwise the minimum of 10000 and the
    candidate losses (never an average): it is 10000, not the minimum of the
    candidate losses, when these all exceed 10000. *)
Theorem winner_takes_all (images images_corrected : list Image) :
  (forall cands : list ReconSiren.Candidate,
     predict_candidates images = Ok cands ->
     Forall (candidate_shape (List.length images)) cands ->
     exists r s im,
       predict_step images = Ok (r, s, im) /\
       forall b : nat, (b < List.length images)%nat ->
         ((exists c, In c cands /\
             tless_equal (nth b (ReconSiren.cand_loss c) NaN) (Fin 10000) = true) ->
          exists c, In c cands /\
            (forall c', In c' cands ->
               tless (nth b (ReconSiren.cand_loss c') NaN)
                     (nth b (ReconSiren.cand_loss c) NaN) = false) /\
            nth b r [] = nth b (ReconSiren.cand_r c) [] /\
            nth b s [] = nth b (ReconSiren.cand_shifts c) [] /\
            nth b im [] = nth b (ReconSiren.cand_imgs c) []) /\
         ((forall c, In c cands ->
             tless_equal (nth b (ReconSiren.cand_loss c) NaN) (Fin 10000) = false) ->
          nth b r [] = repeat (zeros 3) 3 /\
          nth b s [] = zeros 2 /\
          nth b im [] = repeat (zeros (ReconSiren.xsize g)) (ReconSiren.xsize g))) /\
  (forall cls : list (list tfloat * list (list tfloat) * list (list (list tfloat))),
     loss_candidates images images_corrected = Ok cls ->
     Forall (fun c => List.length (fst (fst c)) = List.length images) cls ->
     exists st,
       best_loss_rec images images_corrected = Ok st /\
       forall b : nat, (b < List.length images)%nat ->
         let m := nth b (ReconSiren.ls_loss_rec st) NaN in
         ((forall c, In c cls -> is_nan (nth b (fst (fst c)) NaN) = false) ->
          tless_equal m (Fin 10000) = true /\
          (forall c, In c cls -> tless_equal m (nth b (fst (fst c)) NaN) = true) /\
          (m = Fin 10000 \/ exists c, In c cls /\ m = nth b (fst (fst c)) NaN)) /\
         ((forall c, In c cls -> tless (Fin 10000) (nth b (fst (fst c)) NaN) = true) ->
          m = Fin 10000) /\
         ((exists c, In c cls /\ is_nan (nth b (fst (fst c)) NaN) = true) ->
          m = NaN)).
Proof.
  split.
  - intros cands Hc Hshape. unfold ReconSiren.predict_candidates in Hc.
    unfold ReconSiren.predict_step.
    rewrite (candidates_loop_fold _ _ _ _ cands _ Hc). simpl.
    do 3 eexists. split; [reflexivity|].
    intros b Hb.
    pose proof (fold_keep_best_at (List.length images) b cands
                  (ReconSiren.initial_kept g (List.length images))
                  (initial_kept_shape _) Hshape Hb) as Hat.
    split.
    + intros [c0 [Hin0 Hle0]].
      destruct (running_argmin_spec
                  (kept_at b (ReconSiren.initial_kept g (List.length images)))
                  (map (candidate_at b) cands)) as [Hin Hmin].
      { exists (candidate_at b c0). split; [now apply in_map|].
        rewrite initial_kept_loss by assumption. exact Hle0. }
      rewrite <- Hat in Hin, Hmin.
      apply in_map_iff in Hin. destruct Hin as [c [Hc_eq Hc_in]].
      exists c. split; [assumption|].
      unfold kept_at, candidate_at in Hc_eq. injection Hc_eq as E1 E2 E3 E4.
      repeat split; try (symmetry; assumption).
      intros c' Hc'. specialize (Hmin (candidate_at b c') (in_map _ _ _ Hc')).
      unfold kept_at, candidate_at in Hmin; simpl in Hmin. now rewrite E1.
    + intros Hnone.
      rewrite running_argmin_none in Hat.
      * unfold kept_at, ReconSiren.initial_kept in Hat; simpl in Hat.
        injection Hat as _ E2 E3 E4.
        rewrite nth_repeat_lt in E2, E3, E4 by assumption.
        repeat split; assumption.
      * apply Forall_map. rewrite Forall_forall. intros c Hin.
        rewrite initial_kept_loss by assumption. now apply Hnone.
  - intros cls Hc Hshape. unfold ReconSiren.loss_candidates in Hc.
    unfold ReconSiren.best_loss_rec.
    rewrite (heads_loop_fold _ _ _ _ _ cls _ Hc).
    eexists. split; [reflexivity|].
    intros b Hb. cbv zeta.
    rewrite fold_keep_min_loss. cbn [ReconSiren.ls_loss_rec].
    rewrite (fold_map2_tmin_at (List.length images) b)
      by (try assumption; try (now rewrite repeat_length); now apply Forall_map).
    rewrite nth_repeat_lt by assumption. rewrite initial_loss_value, map_map.
    assert (Hfinite :
      (forall c, In c cls -> is_nan (nth b (fst (fst c)) NaN) = false) ->
      tless_equal (running_min (Fin 10000) (map (fun c => nth b (fst (fst c)) NaN) cls))
                  (Fin 10000) = true /\
      (forall c, In c cls ->
         tless_equal (running_min (Fin 10000) (map (fun c => nth b (fst (fst c)) NaN) cls))
                     (nth b (fst (fst c)) NaN) = true) /\
      (running_min (Fin 10000) (map (fun c => nth b (fst (fst c)) NaN) cls) = Fin 10000 \/
       exists c, In c cls /\
         running_min (Fin 10000) (map (fun c => nth b (fst (fst c)) NaN) cls) =
           nth b (fst (fst c)) NaN)).
    { intros Hnan.
      destruct (running_min_inv (map (fun c => nth b (fst (fst c)) NaN) cls)
                  (Fin 10000) eq_refl) as [_ [H2 [H3 H4]]].
      { apply Forall_map. rewrite Forall_forall. exact Hnan. }
      repeat split.
      + exact H2.
      + intros c Hin. apply H3.
        apply (in_map (fun c => nth b (fst (fst c)) NaN)). exact Hin.
      + destruct H4 as [H4|H4]; [now left|]. right.
        apply in_map_iff in H4.
        destruct H4 as [c [E Hin]]. exists c. split; [assumption | symmetry; exact E]. }
    split; [exact Hfinite|]. split.
    + intros Habove.
      destruct Hfinite as [H2 [_ [H4|[c [Hin E]]]]].
      * intros c Hin. specialize (Habove c Hin).
        destruct (nth b (fst (fst c)) NaN); simpl in *; congruence.
      * exact H4.
      * exfalso. specialize (Habove c Hin). rewrite <- E in Habove.
        revert H2 Habove.
        generalize (running_min (Fin 10000) (map (fun c => nth b (fst (fst c)) NaN) cls)).
        intros m H2 Habove. clear - H2 Habove. tfloat_order.
    + intros [c [Hin Hnan]]. apply running_min_nan.
      apply Exists_exists. exists (nth b (fst (fst c)) NaN). split; [|exact Hnan].
      apply (in_map (fun c => nth b (fst (fst c)) NaN)). exact Hin.
Qed.

End CandidateFacts.

(** ** The heads on the one-pixel sample *)

Section SampleRun.

Variable dev : ReconSiren.Device.

(** The only voxel sits at the origin and projects onto the only pixel. *)
Lemma sample_position (a b c a' b' c' : R) (rest : list (list tfloat)) :
  ReconSiren.projected_position
    ([Fin a; Fin b; Fin c] :: [Fin a'; Fin b'; Fin c'] :: rest) [Fin 0; Fin 0] (Fin 0)
    [Fin (1 * 0); Fin (1 * 0); Fin (1 * 0)] = (Fin (IZR 0), Fin (IZR 0)).
Proof.
  unfold ReconSiren.projected_position, dot, reduce_sum, tsub; simpl.
  f_equal; f_equal; ring.
Qed.

Lemma sample_render_pose (a b c a' b' c' : R) (rest : list (list tfloat)) :
  ReconSiren.render dev (fun imgs => imgs) (fun imgs => imgs)
    Samples.recon_autoencoder Samples.recon_generator
    [Fin 0] [[Fin a; Fin b; Fin c] :: [Fin a'; Fin b'; Fin c'] :: rest]
    [[Fin 0; Fin 0]] = Ok [[[Fin 1]]].
Proof.
  unfold ReconSiren.render.
  cbn -[ReconSiren.scatter_image Rplus Rmult Ropp IZR ReconSiren.projected_position].
  rewrite sample_position.
  rewrite scatter_image_single by (simpl; lia).
  cbn -[Rplus Rmult Ropp IZR].
  repeat f_equal. ring.
Qed.

Lemma sample_render :
  ReconSiren.render dev (fun imgs => imgs) (fun imgs => imgs)
    Samples.recon_autoencoder Samples.recon_generator
    [Fin 0] [Samples.identity3] [[Fin 0; Fin 0]] = Ok [[[Fin 1]]].
Proof. apply sample_render_pose. Qed.

(** On an image of one pixel [p] the head predicts the pixel 1, at the mean
    squared error [(p - 1)^2]. *)
Lemma sample_candidate (p : R) :
  ReconSiren.candidate dev Samples.recon_gramSchmidt (fun imgs => imgs)
    (fun imgs => imgs) Samples.recon_mse Samples.recon_autoencoder
    Samples.recon_generator [[[Fin p]]] [[Fin 0]] [Fin 0] 0 =
  Ok (ReconSiren.mkCandidate [Samples.identity3] [[Fin 0; Fin 0]] [[[Fin 1]]]
        [Fin ((p - 1) ^ 2)]).
Proof.
  unfold ReconSiren.candidate.
  cbn -[ReconSiren.render Rplus Rmult Ropp IZR].
  rewrite sample_render.
  cbn -[Rplus Rmult Ropp IZR Rinv INR].
  rewrite Reqb_false by (simpl; lra).
  do 4 f_equal. simpl. field.
Qed.

Lemma sample_predict_candidates (p : R) :
  ReconSiren.predict_candidates dev Samples.recon_gramSchmidt (fun imgs => imgs)
    (fun imgs => imgs) (fun imgs => imgs) Samples.recon_mse
    Samples.recon_autoencoder Samples.recon_generator [[[Fin p]]] =
  Ok [ReconSiren.mkCandidate [Samples.identity3] [[Fin 0; Fin 0]] [[[Fin 1]]]
        [Fin ((p - 1) ^ 2)]].
Proof.
  unfold ReconSiren.predict_candidates.
  cbn -[ReconSiren.candidate Rplus Rmult Ropp IZR].
  now rewrite sample_candidate.
Qed.

(** The same head in [decode_images_with_loss], with its single symmetry
    matrix. *)
Lemma sample_candidate_loss (p : R) :
  exists (rows : list (list tfloat)) (r : list (list (list tfloat))),
    ReconSiren.candidate_loss dev Samples.recon_gramSchmidt (fun imgs => imgs)
      (fun imgs => imgs) Samples.recon_mse (fun _ imgs => imgs)
      Samples.recon_autoencoder Samples.recon_generator
      [[[Fin p]]] [[[Fin p]]] [[Fin 0]] [Fin 0] 0 =
    Ok ([Fin ((p - 1) ^ 2)], rows, r).
Proof.
  unfold ReconSiren.candidate_loss.
  cbn -[ReconSiren.render Rplus Rmult Ropp IZR].
  rewrite sample_render_pose.
  cbn -[Rplus Rmult Ropp IZR Rinv INR].
  unfold tdiv, tcast_nat.
  rewrite !Reqb_false by (simpl; lra).
  do 2 eexists. apply f_equal.
  apply f_equal2; [apply f_equal2; [|reflexivity] | reflexivity].
  do 2 f_equal. simpl. field.
Qed.

End SampleRun.

(** ** The selection on the 2 x 2 sample *)

Ltac fin_list :=
  repeat match goal with
         | |- Ok _ = Ok _ => apply f_equal
         | |- cons _ _ = cons _ _ => apply (f_equal2 cons)
         | |- nil = nil => reflexivity
         | |- Fin _ = Fin _ => apply f_equal
         | |- (_, _) = (_, _) => apply f_equal2
         end.

Lemma scatter_image_integer (dev : ReconSiren.Device) (xs : nat) (idx : list (Z * Z))
    (vals : list tfloat) :
  ReconSiren.scatter_image dev xs
    (map (fun p => (Fin (IZR (fst p)), Fin (IZR (snd p)))) idx) vals =
  ReconSiren.tensor_scatter_nd_add dev xs (repeat (zeros xs) xs) idx
    (map2 tmul vals (map (fun _ => Fin 1) idx)).
Proof.
  unfold ReconSiren.scatter_image. rewrite !map_map. f_equal.
  - rewrite <- (map_id idx) at 2. apply map_ext. intros [i j]. cbn [fst snd tround].
    now rewrite !round_half_even_IZR, !tcast_int32_IZR.
  - f_equal. apply map_ext. intros [i j]. cbn [fst snd].
    apply weight_integer_position.
Qed.

Lemma position_eq (a b : R) (i j : Z) :
  a = IZR i -> b = IZR j -> (Fin a, Fin b) = (Fin (IZR i), Fin (IZR j)).
Proof. now intros -> ->. Qed.

(** Under the identity pose without shift, and under the half turn with the
    shift (1, 1), the four voxels fall one on each pixel. *)
Lemma sample2_scatter (dev : ReconSiren.Device) (x y z x' y' z' s0 s1 : R)
    (rest : list (list tfloat)) :
  (x = 1 /\ y = 0 /\ x' = 0 /\ y' = 1 /\ s0 = 0 /\ s1 = 0) \/
  (x = -1 /\ y = 0 /\ x' = 0 /\ y' = -1 /\ s0 = 1 /\ s1 = 1) ->
  ReconSiren.scatter_image dev (ReconSiren.xsize Samples.recon_generator_2)
    (map (ReconSiren.projected_position
            ([Fin x; Fin y; Fin z] :: [Fin x'; Fin y'; Fin z'] :: rest)
            [Fin s0; Fin s1]
            (nth 0 (ReconSiren.xmipp_origin Samples.recon_generator_2) (Fin 0)))
       (map (map (tmul (ReconSiren.scale_factor Samples.recon_generator_2)))
          (ReconSiren.coords Samples.recon_generator_2)))
    (map2 tadd (ReconSiren.values Samples.recon_generator_2)
       [Fin 0; Fin 0; Fin 0; Fin 0]) = Ok Samples.ones_2.
Proof.
  intros [[-> [-> [-> [-> [-> ->]]]]] | [-> [-> [-> [-> [-> ->]]]]]].
  - replace (map _ (map _ (ReconSiren.coords Samples.recon_generator_2)))
      with (map (fun p => (Fin (IZR (fst p)), Fin (IZR (snd p))))
              [(0, 0); (0, 1); (1, 0); (1, 1)]%Z).
    + rewrite scatter_image_integer.
      cbv -[Rplus Rmult Ropp IZR]. fin_list; ring.
    + symmetry. unfold ReconSiren.projected_position, dot, reduce_sum, tsub.
      cbn -[Rplus Rmult Ropp IZR].
      repeat (apply (f_equal2 cons); [apply position_eq; simpl; lra|]).
      reflexivity.
  - replace (map _ (map _ (ReconSiren.coords Samples.recon_generator_2)))
      with (map (fun p => (Fin (IZR (fst p)), Fin (IZR (snd p))))
              [(1, 1); (1, 0); (0, 1); (0, 0)]%Z).
    + rewrite scatter_image_integer.
      cbv -[Rplus Rmult Ropp IZR]. fin_list; ring.
    + symmetry. unfold ReconSiren.projected_position, dot, reduce_sum, tsub.
      cbn -[Rplus Rmult Ropp IZR].
      repeat (apply (f_equal2 cons); [apply position_eq; simpl; lra|]).
      reflexivity.
Qed.

(** The Gaussian filter leaves a constant frame as it is: the kernel sums
    to 1. *)
Lemma gaussian_filter2d_3_ones :
  Samples.gaussian_filter2d_3 [Samples.ones_2; Samples.ones_2] =
    [Samples.ones_2; Samples.ones_2].
Proof.
  assert (He : 0 < exp (- (1 / 2))) by apply exp_pos.
  unfold Samples.gaussian_filter2d_3, Samples.gauss3, Samples.ones_2, mapi,
    Samples.reflect_pad, reduce_sum.
  cbn -[Rplus Rmult Ropp Rinv Rdiv IZR exp].
  rewrite exp_0.
  set (e := exp (- (1 / 2))) in *.
  fin_list; field; lra.
Qed.

Lemma recon_mse_sample2 :
  Samples.recon_mse Samples.recon_images_2 [Samples.ones_2; Samples.ones_2] =
    [Fin 22500; Fin 0].
Proof.
  unfold Samples.recon_mse, Samples.recon_images_2, Samples.ones_2, reduce_mean,
    reduce_sum, tcast_nat, tsub.
  cbn -[Rplus Rmult Ropp Rinv Rdiv IZR INR].
  rewrite !Reqb_false by (simpl; lra).
  fin_list; simpl; field.
Qed.

Section SampleRun2.

Variable dev : ReconSiren.Device.

Lemma sample2_render (x y z x' y' z' s0 s1 : R)
    (u v w u' v' w' t0 t1 : R) (rest rest' : list (list tfloat)) :
  (x = 1 /\ y = 0 /\ x' = 0 /\ y' = 1 /\ s0 = 0 /\ s1 = 0) \/
  (x = -1 /\ y = 0 /\ x' = 0 /\ y' = -1 /\ s0 = 1 /\ s1 = 1) ->
  (u = 1 /\ v = 0 /\ u' = 0 /\ v' = 1 /\ t0 = 0 /\ t1 = 0) \/
  (u = -1 /\ v = 0 /\ u' = 0 /\ v' = -1 /\ t0 = 1 /\ t1 = 1) ->
  ReconSiren.render dev Samples.gaussian_filter2d_3 (fun imgs => imgs)
    Samples.recon_autoencoder_2 Samples.recon_generator_2
    [Fin 0; Fin 0; Fin 0; Fin 0]
    [[Fin x; Fin y; Fin z] :: [Fin x'; Fin y'; Fin z'] :: rest;
     [Fin u; Fin v; Fin w] :: [Fin u'; Fin v'; Fin w'] :: rest']
    [[Fin s0; Fin s1]; [Fin t0; Fin t1]] =
  Ok [Samples.ones_2; Samples.ones_2].
Proof.
  intros H1 H2. unfold ReconSiren.render.
  cbn [combine for_each fst snd].
  rewrite (sample2_scatter dev x y z x' y' z' s0 s1 rest H1).
  rewrite (sample2_scatter dev u v w u' v' w' t0 t1 rest' H2).
  cbn [bind ReconSiren.applyCTF Samples.recon_autoencoder_2].
  now rewrite gaussian_filter2d_3_ones.
Qed.

Ltac sample_pose := (left; repeat split; simpl; lra) || (right; repeat split; simpl; lra).

Lemma sample2_predict_candidates :
  ReconSiren.predict_candidates dev Samples.recon_gramSchmidt_2
    Samples.gaussian_filter2d_3 (fun imgs => imgs) (fun imgs => imgs) Samples.recon_mse
    Samples.recon_autoencoder_2 Samples.recon_generator_2 Samples.recon_images_2 =
  Ok [ReconSiren.mkCandidate [Samples.identity3; Samples.identity3]
        [[Fin 0; Fin 0]; [Fin 0; Fin 0]] [Samples.ones_2; Samples.ones_2]
        [Fin 22500; Fin 0];
      ReconSiren.mkCandidate [Samples.half_turn3; Samples.half_turn3]
        [[Fin 1; Fin 1]; [Fin 1; Fin 1]] [Samples.ones_2; Samples.ones_2]
        [Fin 22500; Fin 0]].
Proof.
  unfold ReconSiren.predict_candidates, ReconSiren.candidate.
  cbn -[ReconSiren.render Samples.recon_mse].
  rewrite !sample2_render by sample_pose.
  cbn -[Samples.recon_mse].
  unfold ReconSiren.cost. cbn [ReconSiren.only_pose Samples.recon_autoencoder_2].
  change (Samples.recon_mse _ [Samples.ones_2; Samples.ones_2])
    with (Samples.recon_mse Samples.recon_images_2 [Samples.ones_2; Samples.ones_2]).
  rewrite recon_mse_sample2. reflexivity.
Qed.

Lemma sample2_loss_candidates :
  exists rows0 r0 rows1 r1,
    ReconSiren.loss_candidates dev Samples.recon_gramSchmidt_2
      Samples.gaussian_filter2d_3 (fun imgs => imgs) Samples.recon_mse
      (fun _ imgs => imgs) Samples.recon_autoencoder_2 Samples.recon_generator_2
      Samples.recon_images_2 Samples.recon_images_2 =
    Ok [([Fin 22500; Fin 0], rows0, r0); ([Fin 22500; Fin 0], rows1, r1)].
Proof.
  unfold ReconSiren.loss_candidates, ReconSiren.candidate_loss.
  cbn -[ReconSiren.render Samples.recon_mse Rplus Rmult Ropp IZR INR Rinv Rdiv].
  rewrite !sample2_render by sample_pose.
  cbn -[Samples.recon_mse Rplus Rmult Ropp IZR INR Rinv Rdiv].
  unfold ReconSiren.cost. cbn [ReconSiren.only_pose Samples.recon_autoencoder_2].
  change (Samples.recon_mse _ [Samples.ones_2; Samples.ones_2])
    with (Samples.recon_mse Samples.recon_images_2 [Samples.ones_2; Samples.ones_2]).
  rewrite recon_mse_sample2.
  cbn -[Rplus Rmult Ropp IZR INR Rinv Rdiv].
  unfold tdiv, tcast_nat. rewrite !Reqb_false by (simpl; lra).
  do 4 eexists. fin_list; try reflexivity; simpl; field.
Qed.

End SampleRun2.

(** C1 fails on an ordinary batch.  Two images of 2 x 2 pixels, two heads:
    on the first image (pixels 151 against a projected density of 1) both
    heads have the loss [150^2 = 22500], the global minimum over the K = 2
    candidates, yet [predict_step] keeps neither head's pose, shift and
    image but the zero pose, shift and image, and the loss of
    [decode_images_with_loss] is 10000, not the minimum 22500.  On the second
    image, which the density reproduces, a head is kept. *)
Lemma winner_takes_all_failing_input :
  ReconSiren.predict_candidates ReconSiren.CPU Samples.recon_gramSchmidt_2
    Samples.gaussian_filter2d_3 (fun imgs => imgs) (fun imgs => imgs) Samples.recon_mse
    Samples.recon_autoencoder_2 Samples.recon_generator_2 Samples.recon_images_2 =
    Ok [ReconSiren.mkCandidate [Samples.identity3; Samples.identity3]
          [[Fin 0; Fin 0]; [Fin 0; Fin 0]] [Samples.ones_2; Samples.ones_2]
          [Fin 22500; Fin 0];
        ReconSiren.mkCandidate [Samples.half_turn3; Samples.half_turn3]
          [[Fin 1; Fin 1]; [Fin 1; Fin 1]] [Samples.ones_2; Samples.ones_2]
          [Fin 22500; Fin 0]] /\
  (exists r s im,
     ReconSiren.predict_step ReconSiren.CPU Samples.recon_gramSchmidt_2
       Samples.gaussian_filter2d_3 (fun imgs => imgs) (fun imgs => imgs)
       Samples.recon_mse Samples.recon_autoencoder_2 Samples.recon_generator_2
       Samples.recon_images_2 = Ok (r, s, im) /\
     nth 0 r [] = repeat (zeros 3) 3 /\
     nth 0 s [] = zeros 2 /\
     nth 0 im [] = repeat (zeros 2) 2 /\
     (nth 1 r [] = Samples.identity3 \/ nth 1 r [] = Samples.half_turn3)) /\
  repeat (zeros 3) 3 <> Samples.identity3 /\
  repeat (zeros 3) 3 <> Samples.half_turn3 /\
  repeat (zeros 2) 2 <> Samples.ones_2 /\
  (exists st,
     ReconSiren.best_loss_rec ReconSiren.CPU Samples.recon_gramSchmidt_2
       Samples.gaussian_filter2d_3 (fun imgs => imgs) Samples.recon_mse
       (fun _ imgs => imgs) Samples.recon_autoencoder_2 Samples.recon_generator_2
       Samples.recon_images_2 Samples.recon_images_2 = Ok st /\
     nth 0 (ReconSiren.ls_loss_rec st) NaN = Fin 10000) /\
  Fin 10000 <> Fin 22500.
Proof.
  destruct (winner_takes_all ReconSiren.CPU Samples.recon_gramSchmidt_2
              Samples.gaussian_filter2d_3 (fun imgs => imgs) (fun imgs => imgs)
              Samples.recon_mse (fun _ imgs => imgs)
              Samples.recon_autoencoder_2 Samples.recon_generator_2
              Samples.recon_images_2 Samples.recon_images_2) as [Hpredict Hloss].
  split; [apply sample2_predict_candidates|].
  split.
  { destruct (Hpredict _ (sample2_predict_candidates ReconSiren.CPU))
      as [r [s [im [E H]]]].
    - repeat constructor.
    - exists r, s, im. split; [exact E|].
      destruct (H 0%nat) as [_ Hzero]; [simpl; lia|].
      destruct Hzero as [Hr [Hs Him]].
      { intros c [<-|[<-|[]]]; simpl; apply Rleb_false; lra. }
      destruct (H 1%nat) as [Hbest _]; [simpl; lia|].
      destruct Hbest as [c [Hin [_ [Hr1 _]]]].
      { eexists. split; [left; reflexivity|]. simpl. apply Rleb_true. lra. }
      repeat split; try assumption.
      destruct Hin as [<-|[<-|[]]]; simpl in Hr1; [now left | now right]. }
  split.
  { intros H. injection H as H _. lra. }
  split.
  { intros H. injection H as H _. lra. }
  split.
  { intros H. injection H as H _. lra. }
  split.
  { destruct (sample2_loss_candidates ReconSiren.CPU) as [rows0 [r0 [rows1 [r1 E]]]].
    destruct (Hloss _ E) as [st [Est H]].
    - repeat constructor.
    - exists st. split; [exact Est|].
      destruct (H 0%nat) as [_ [Habove _]]; [simpl; lia|].
      apply Habove.
      intros c [<-|[<-|[]]]; simpl; apply Rltb_true; lra. }
  intros H. injection H as H. lra.
Defined.

(** ** The normalisation of [resizeImageFourier] *)

(** Resizing to the images' own size multiplies by 1. *)
Lemma resize_norm_same_size (pad_size : nat) :
  (0 < pad_size)%nat -> ReconSiren.resize_norm pad_size pad_size = Fin 1.
Proof.
  intros H. unfold ReconSiren.resize_norm, tcast_nat, tdiv.
  assert (0 < INR pad_size) by now apply lt_0_INR.
  rewrite Reqb_false by lra. f_equal. field. lra.
Qed.

(** The factors [norm * norm] of a resize and of the resize back multiply
    to 1. *)
Lemma resize_norm_round_trip (pad_size pad_out_size : nat) :
  (0 < pad_size)%nat -> (0 < pad_out_size)%nat ->
  tmul (tmul (ReconSiren.resize_norm pad_size pad_out_size)
             (ReconSiren.resize_norm pad_size pad_out_size))
       (tmul (ReconSiren.resize_norm pad_out_size pad_size)
             (ReconSiren.resize_norm pad_out_size pad_size)) = Fin 1.
Proof.
  intros H1 H2. unfold ReconSiren.resize_norm, tcast_nat, tdiv.
  assert (0 < INR pad_size) by now apply lt_0_INR.
  assert (0 < INR pad_out_size) by now apply lt_0_INR.
  rewrite !Reqb_false by lra. simpl. f_equal. field. lra.
Qed.

Lemma tmul_one_one_r (v : tfloat) : tmul v (tmul (Fin 1) (Fin 1)) = v.
Proof.
  simpl. replace (1 * 1) with 1 by ring. apply tmul_one_r.
Qed.

(** With transforms that invert each other and a crop-or-pad that leaves a
    spectrum of the requested size alone, resizing to the images' own size
    is the identity in exact arithmetic. *)
Lemma resizeImageFourier_same_size (Spectrum : Type)
    (full_fft_pad : list Image -> nat -> nat -> Spectrum)
    (resize_with_crop_or_pad : Spectrum -> nat -> nat -> Spectrum)
    (full_ifft_pad : Spectrum -> nat -> nat -> list Image)
    (images : list Image) (pad_factor : nat) :
  let xsize := List.length (hd [] images) in
  (0 < pad_factor * xsize)%nat ->
  resize_with_crop_or_pad
    (full_fft_pad images (pad_factor * xsize)%nat (pad_factor * xsize)%nat)
    (pad_factor * xsize)%nat (pad_factor * xsize)%nat
    = full_fft_pad images (pad_factor * xsize)%nat (pad_factor * xsize)%nat ->
  full_ifft_pad
    (full_fft_pad images (pad_factor * xsize)%nat (pad_factor * xsize)%nat)
    xsize xsize = images ->
  ReconSiren.resizeImageFourier Spectrum full_fft_pad resize_with_crop_or_pad
    full_ifft_pad images xsize pad_factor = images.
Proof.
  intros xsize Hpos Hcrop Hinv. unfold ReconSiren.resizeImageFourier.
  fold xsize. rewrite Hcrop, Hinv, resize_norm_same_size by assumption.
  rewrite <- (map_id images) at 2. apply map_ext. intros img.
  rewrite <- (map_id img) at 2. apply map_ext. intros row.
  rewrite <- (map_id row) at 2. apply map_ext. intros v.
  apply tmul_one_one_r.
Qed.

(** * Further properties of the code *)

(** ** The threshold step of [filterVol] *)

Lemma soft_threshold_finite (t r : R) :
  0 <= t ->
  HetSirenMore.soft_threshold (Fin t) (Fin r) =
    Fin (if Rltb t r then r - t
         else if Rltb r (- t) then r + t
         else if Reqb r t then 0 else r).
Proof.
  intros Ht. unfold HetSirenMore.soft_threshold, tsub; simpl.
  destruct (Rlt_dec t r) as [H1|H1].
  - rewrite (Rltb_true t r), (Rltb_false r (- t)), (Reqb_false r t) by lra.
    simpl. f_equal. ring.
  - rewrite (Rltb_false t r) by lra.
    destruct (Rlt_dec r (- t)) as [H2|H2].
    + rewrite (Rltb_true r (- t)), (Reqb_false r t) by lra. simpl. f_equal. ring.
    + rewrite (Rltb_false r (- t)) by lra.
      destruct (Req_dec_T r t) as [E|N].
      * rewrite (Reqb_true r t) by assumption. simpl. f_equal. ring.
      * rewrite (Reqb_false r t) by assumption. simpl. f_equal. ring.
Qed.

(** An infinite entry does not survive the step: [0 * inf] is NaN. *)
Lemma soft_threshold_infinite (t : R) :
  HetSirenMore.soft_threshold (Fin t) PInf = NaN /\
  HetSirenMore.soft_threshold (Fin t) NInf = NaN.
Proof.
  unfold HetSirenMore.soft_threshold, tsub; simpl. unfold inf_of_sign.
  rewrite !Rltb_false by lra. split; reflexivity.
Qed.

(** The threshold step of [filterVol] moves every finite entry of the
    filtered volume by at most [thr = 1e-6], towards zero: entries above
    [thr] and below [-thr] are shrunk by [thr], an entry equal to [thr]
    becomes 0, and every other entry of magnitude at most [thr] is left as
    it is. *)
Theorem filterVol_threshold_step (applyKernelFourier : Volume -> Volume)
    (volume : Volume) :
  Forall is_finite (applyKernelFourier volume) ->
  Forall2 (fun v out =>
             exists r r' : R,
               v = Fin r /\ out = Fin r' /\
               Rabs (r' - r) <= 1e-6 /\ Rabs r' <= Rabs r /\
               (1e-6 < r -> r' = r - 1e-6) /\
               (r < - 1e-6 -> r' = r + 1e-6) /\
               (- 1e-6 <= r < 1e-6 -> r' = r))
    (applyKernelFourier volume)
    (HetSirenMore.filterVol applyKernelFourier volume).
Proof.
  unfold HetSirenMore.filterVol. generalize (applyKernelFourier volume).
  induction 1 as [|v l Hv _ IH]; simpl; constructor; [|exact IH].
  destruct (is_finite_inv v Hv) as [r ->].
  rewrite soft_threshold_finite by lra.
  exists r. eexists. split; [reflexivity|]. split; [reflexivity|].
  destruct (Rlt_dec 1e-6 r) as [H1|H1].
  - rewrite (Rltb_true _ _ H1).
    repeat split; intros; try lra;
      try (unfold Rabs; repeat destruct Rcase_abs; lra).
  - rewrite (Rltb_false 1e-6 r) by lra.
    destruct (Rlt_dec r (- (1e-6))) as [H2|H2].
    + rewrite (Rltb_true _ _ H2).
      repeat split; intros; try lra;
        try (unfold Rabs; repeat destruct Rcase_abs; lra).
    + rewrite (Rltb_false r (- (1e-6))) by lra.
      destruct (Req_dec_T r 1e-6) as [E|N].
      * rewrite (Reqb_true _ _ E).
        repeat split; intros; try lra;
          try (unfold Rabs; repeat destruct Rcase_abs; lra).
      * rewrite (Reqb_false _ _ N).
        repeat split; intros; try lra;
          try (unfold Rabs; repeat destruct Rcase_abs; lra).
Qed.

Lemma filterVol_threshold_step_witness :
  Forall2 (fun v out =>
             exists r r' : R,
               v = Fin r /\ out = Fin r' /\
               Rabs (r' - r) <= 1e-6 /\ Rabs r' <= Rabs r /\
               (1e-6 < r -> r' = r - 1e-6) /\
               (r < - 1e-6 -> r' = r + 1e-6) /\
               (- 1e-6 <= r < 1e-6 -> r' = r))
    [Fin 2; Fin (-3); Fin 0]
    (HetSirenMore.filterVol (fun v => v) [Fin 2; Fin (-3); Fin 0]).
Proof.
  apply (filterVol_threshold_step (fun v => v) [Fin 2; Fin (-3); Fin 0]).
  repeat constructor.
Defined.

(** ** The weight of the scatter projection *)

Lemma round_half_even_error (x : R) : Rabs (IZR (round_half_even x) - x) <= 1 / 2.
Proof.
  unfold round_half_even. pose proof (Zfloor_bound x) as [Hlo Hhi].
  destruct (Rlt_dec (x - IZR (Zfloor x)) (1 / 2)) as [H1|H1].
  - rewrite (Rltb_true _ _ H1). unfold Rabs. destruct Rcase_abs; lra.
  - rewrite (Rltb_false (x - IZR (Zfloor x)) (1 / 2)) by lra.
    destruct (Rlt_dec (1 / 2) (x - IZR (Zfloor x))) as [H2|H2].
    + rewrite (Rltb_true _ _ H2). rewrite plus_IZR.
      unfold Rabs. destruct Rcase_abs; lra.
    + rewrite (Rltb_false (1 / 2) (x - IZR (Zfloor x))) by lra.
      destruct (Z.even (Zfloor x)); [|rewrite plus_IZR];
        unfold Rabs; destruct Rcase_abs; lra.
Qed.

(** Whatever the finite position of a point, the rounding moves it by at most
    half a pixel along each axis, so the weight of its value lies between
    [exp(-1/4)] and 1: no point of the grid is ever weighted out. *)
Theorem weight_bounds (y x : R) :
  exists w : R,
    ReconSiren.weight (Fin y, Fin x) = Fin w /\ exp (- (1 / 4)) <= w <= 1.
Proof.
  pose proof (round_half_even_error y) as Hy.
  pose proof (round_half_even_error x) as Hx.
  exists (exp (- ((IZR (round_half_even y) - y) ^ 2
                  + (IZR (round_half_even x) - x) ^ 2) / (2 * 1 ^ 2))).
  split; [apply weight_finite|].
  set (dy := IZR (round_half_even y) - y) in *.
  set (dx := IZR (round_half_even x) - x) in *.
  assert (Hy2 : 0 <= dy ^ 2 <= 1 / 4).
  { unfold Rabs in Hy. destruct (Rcase_abs dy); split; nra. }
  assert (Hx2 : 0 <= dx ^ 2 <= 1 / 4).
  { unfold Rabs in Hx. destruct (Rcase_abs dx); split; nra. }
  split.
  - destruct (Req_dec_T (- (1 / 4)) (- (dy ^ 2 + dx ^ 2) / (2 * 1 ^ 2))) as [E|N].
    + rewrite <- E. lra.
    + left. apply exp_increasing. lra.
  - apply Rle_trans with (exp 0); [|rewrite exp_0; lra].
    destruct (Req_dec_T (- (dy ^ 2 + dx ^ 2) / (2 * 1 ^ 2)) 0) as [E|N].
    + rewrite E. lra.
    + left. apply exp_increasing. lra.
Qed.

(** ** The shape of a Gaussian kernel *)

Lemma diff_length (x : list R) : List.length (ReconSiren.diff x) = (List.length x - 1)%nat.
Proof.
  unfold ReconSiren.diff. rewrite map2_length.
  destruct x as [|a x]; [reflexivity|].
  cbn [tl List.length]. lia.
Qed.

(** For a size of at least 1, [gaussian_kernel(size, std)] returns a square
    array of side [size - 1], one less than the requested size: [np.diff]
    drops one sample.  It is symmetric. *)
Theorem gaussian_kernel_shape (norm_cdf : R -> R) (kind : ReconSiren.Scalar)
    (size : nat) (std : R) :
  (1 <= size)%nat ->
  exists kernel : list (list R),
    ReconSiren.gaussian_kernel norm_cdf kind size std = Ok kernel /\
    List.length kernel = (size - 1)%nat /\
    Forall (fun row => List.length row = (size - 1)%nat) kernel /\
    forall i j : nat,
      nth j (nth i kernel []) 0 = nth i (nth j kernel []) 0.
Proof.
  intros Hsize.
  exists (ReconSiren.gaussian_kernel_array norm_cdf size std).
  split; [destruct size as [|n]; [lia | now destruct kind]|].
  unfold ReconSiren.gaussian_kernel_array.
  set (kern1d := ReconSiren.diff (map norm_cdf (ReconSiren.linspace _ _ size))).
  assert (Hk : List.length kern1d = (size - 1)%nat).
  { unfold kern1d. now rewrite diff_length, length_map, linspace_length. }
  set (total := ReconSiren.sum2 _).
  unfold ReconSiren.outer. rewrite !map_map.
  split; [now rewrite length_map|]. split.
  - apply Forall_map. rewrite Forall_forall. intros a _.
    now rewrite !length_map.
  - assert (Hnth : forall i j,
              nth j (nth i (map (fun a => map (fun v => v / total)
                                             (map sqrt (map (fun b => a * b) kern1d)))
                                kern1d) []) 0
              = if (i <? List.length kern1d)%nat && (j <? List.length kern1d)%nat
                then sqrt (nth i kern1d 0 * nth j kern1d 0) / total else 0).
    { intros i j. destruct (Nat.ltb_spec i (List.length kern1d)) as [Hi|Hi].
      - rewrite (nth_indep _ [] ((fun a => map (fun v => v / total)
                            (map sqrt (map (fun b => a * b) kern1d))) 0))
          by now rewrite length_map.
        rewrite (map_nth (fun a => map (fun v => v / total)
                            (map sqrt (map (fun b => a * b) kern1d)))).
        rewrite !map_map.
        destruct (Nat.ltb_spec j (List.length kern1d)) as [Hj|Hj]; simpl.
        + rewrite (nth_indep _ 0 ((fun b => sqrt (nth i kern1d 0 * b) / total) 0))
            by now rewrite length_map.
          now rewrite (map_nth (fun b => sqrt (nth i kern1d 0 * b) / total)).
        + apply nth_overflow. now rewrite length_map.
      - simpl. rewrite (nth_overflow _ []) by now rewrite length_map.
        now destruct j. }
    intros i j. rewrite !Hnth.
    rewrite (andb_comm (j <? _)%nat), (Rmult_comm (nth j kern1d 0)). reflexivity.
Qed.

Lemma gaussian_kernel_shape_witness :
  exists kernel : list (list R),
    ReconSiren.gaussian_kernel (fun x => / 2 + atan x / PI) ReconSiren.PyFloat 5 3
      = Ok kernel /\
    List.length kernel = 4%nat /\
    Forall (fun row => List.length row = 4%nat) kernel /\
    forall i j : nat,
      nth j (nth i kernel []) 0 = nth i (nth j kernel []) 0.
Proof.
  apply (gaussian_kernel_shape (fun x => / 2 + atan x / PI) ReconSiren.PyFloat 5 3).
  lia.
Defined.

(** ** [uniform_distribution_loss] on a batch of fewer than two vectors *)

Lemma masked_self_repulsion (x : tfloat) :
  tdiv (reduce_sum [tmul x (tsub (Fin 1) (Fin 1))])
       (tmul (tcast_nat 1) (tsub (tcast_nat 1) (Fin 1))) = NaN.
Proof.
  unfold reduce_sum, tcast_nat, tsub, inf_of_sign; simpl.
  assert (E : 1 * (1 + - (1)) = 0) by ring.
  destruct x as [r| | |]; simpl; unfold inf_of_sign.
  - rewrite (Reqb_true _ _ E). rewrite !Rltb_false by lra. reflexivity.
  - rewrite !Rltb_false by lra. reflexivity.
  - rewrite !Rltb_false by lra. reflexivity.
  - reflexivity.
Qed.

(** The loss divides by [batch_size * (batch_size - 1)]: on a batch of one
    vector, whatever the vector, and on an empty batch, it is NaN. *)
Theorem uniform_distribution_loss_small_batch :
  ReconSiren.uniform_distribution_loss [] = NaN /\
  forall v : list tfloat, ReconSiren.uniform_distribution_loss [v] = NaN.
Proof.
  split.
  - unfold ReconSiren.uniform_distribution_loss, reduce_sum, tcast_nat, tsub; simpl.
    rewrite Reqb_true by ring. unfold inf_of_sign.
    rewrite !Rltb_false by lra. reflexivity.
  - intros v. unfold ReconSiren.uniform_distribution_loss, ReconSiren.angular_distances,
      ReconSiren.cosine_similarity, mapi.
    cbn [map List.length seq combine fst snd concat app Nat.eqb].
    apply masked_self_repulsion.
Qed.

(** ** [decode_images_with_loss] on a batch of one image *)

Lemma tadd_nan_r (x : tfloat) : tadd x NaN = NaN.
Proof. destruct x; reflexivity. Qed.

Lemma uniform_distribution_loss_one (r : list (list (list tfloat))) :
  List.length r = 1%nat ->
  ReconSiren.uniform_distribution_loss (map (column 2) r) = NaN.
Proof.
  destruct r as [|m [|m' r]]; simpl; try discriminate. intros _.
  unfold ReconSiren.uniform_distribution_loss, ReconSiren.angular_distances,
    ReconSiren.cosine_similarity, mapi.
  cbn [map List.length seq combine fst snd concat app Nat.eqb].
  apply masked_self_repulsion.
Qed.

Section SingleImageBatch.

Variable dev : ReconSiren.Device.
Variable gramSchmidt : list (list tfloat) -> list (list (list tfloat)).
Variable gaussian_filter2d : list Image -> list Image.
Variable ctfFilterImage : list Image -> list Image.
Variable mse : list Image -> list Image -> list tfloat.
Variable blur_channel : nat -> list Image -> list Image.
Variable density_regularisers : list tfloat -> ReconSiren.Regularisers.
Variable self : ReconSiren.AutoEncoder.
Variable g : ReconSiren.Generator.

Local Abbreviation symmetry_loop :=
  (ReconSiren.symmetry_loop dev gaussian_filter2d ctfFilterImage mse blur_channel self g).
Local Abbreviation candidate_loss' :=
  (ReconSiren.candidate_loss dev gramSchmidt gaussian_filter2d ctfFilterImage mse
     blur_channel self g).
Local Abbreviation heads_loop' :=
  (ReconSiren.heads_loop dev gramSchmidt gaussian_filter2d ctfFilterImage mse
     blur_channel self g).

(** After at least one symmetry matrix, the pose left by the loop is a
    symmetric copy of every pose of the head. *)
Lemma symmetry_loop_pose_length (images images_corrected : list Image)
    (delta : list tfloat) (r_no_sym : list (list (list tfloat)))
    (shifts : list (list tfloat)) (iSyms : list nat) :
  forall (loss_rec : list tfloat) (r0 : list (list (list tfloat)))
         (l : list tfloat) (r : list (list (list tfloat))),
  symmetry_loop images images_corrected delta r_no_sym shifts iSyms loss_rec r0
    = Ok (l, r) ->
  List.length r0 = List.length r_no_sym \/ iSyms <> [] ->
  List.length r = List.length r_no_sym.
Proof.
  induction iSyms as [|iSym rest IH]; intros loss_rec r0 l r H Hor; simpl in H.
  - injection H as _ <-. destruct Hor as [E|N]; [exact E | congruence].
  - destruct (ReconSiren.render dev gaussian_filter2d ctfFilterImage self g delta _ shifts)
      as [imgs|e]; simpl in H; [|discriminate].
    eapply IH; [exact H|]. left. apply length_map.
Qed.

Lemma heads_loop_uniform_nan (images images_corrected : list Image)
    (encoded : list (list tfloat)) (delta : list tfloat) (idrs : list nat) :
  (forall idr, In idr idrs ->
     List.length (gramSchmidt (fst (ReconSiren.head_encoder self idr encoded))) = 1%nat) ->
  forall st st' : ReconSiren.LossState,
  heads_loop' images images_corrected encoded delta idrs st = Ok st' ->
  ReconSiren.ls_uniform_dist_loss st = NaN \/ idrs <> [] ->
  ReconSiren.ls_uniform_dist_loss st' = NaN.
Proof.
  induction idrs as [|idr rest IH]; intros Hone st st' H Hor; simpl in H.
  - injection H as <-. destruct Hor as [E|N]; [exact E | congruence].
  - destruct (candidate_loss' images images_corrected encoded delta idr)
      as [[[l rows] r]|e] eqn:Ec; simpl in H; [|discriminate].
    eapply IH; [intros i Hi; apply Hone; now right | exact H |].
    left. unfold ReconSiren.keep_min; simpl.
    rewrite uniform_distribution_loss_one; [apply tadd_nan_r|].
    unfold ReconSiren.candidate_loss in Ec.
    destruct (ReconSiren.head_encoder self idr encoded) as [rows' shifts] eqn:Eh.
    destruct (ReconSiren.noSym g) as [|n] eqn:En; [discriminate|].
    destruct (symmetry_loop images images_corrected delta (gramSchmidt rows') shifts
                (seq 0 (S n)) (zeros (List.length images)) []) as [[l' r']|e] eqn:Es;
      simpl in Ec; [|discriminate].
    injection Ec as _ _ <-.
    rewrite (symmetry_loop_pose_length _ _ _ _ _ _ _ _ _ _ Es) by (right; discriminate).
    specialize (Hone idr (or_introl eq_refl)). now rewrite Eh in Hone.
Qed.

(** When every head yields a single pose, as on a batch of one image, each
    entry of the loss that [decode_images_with_loss] returns is NaN: the
    uniform-distribution term of a single pose is [0 / 0] and it is added to
    the reconstruction loss. *)
Theorem decode_images_with_loss_single_pose (images images_corrected : list Image)
    (losses : list tfloat) :
  (forall idr, (idr < ReconSiren.n_candidates self)%nat ->
     List.length
       (gramSchmidt (fst (ReconSiren.head_encoder self idr
                            (ReconSiren.common_encoder self images_corrected))))
     = 1%nat) ->
  ReconSiren.decode_images_with_loss dev gramSchmidt gaussian_filter2d ctfFilterImage
    mse blur_channel density_regularisers self g images images_corrected = Ok losses ->
  Forall (fun l => l = NaN) losses.
Proof.
  intros Hone H. unfold ReconSiren.decode_images_with_loss in H.
  destruct (ReconSiren.best_loss_rec dev gramSchmidt gaussian_filter2d ctfFilterImage
              mse blur_channel self g images images_corrected) as [st|e] eqn:Eb;
    simpl in H; [|discriminate].
  destruct (ReconSiren.n_candidates self) as [|n] eqn:En; [discriminate|].
  injection H as <-.
  unfold ReconSiren.best_loss_rec in Eb. rewrite En in Eb.
  apply heads_loop_uniform_nan in Eb.
  - rewrite Eb. apply Forall_map. rewrite Forall_forall. intros l _.
    rewrite tdiv_nan_l, tmul_nan_r, tadd_nan_r.
    simpl. apply tadd_nan_r.
  - intros idr Hin. apply Hone. apply in_seq in Hin. lia.
  - right. discriminate.
Qed.

End SingleImageBatch.

Lemma sample_decode_images_with_loss (dev : ReconSiren.Device) (p : R) :
  exists losses : list tfloat,
    ReconSiren.decode_images_with_loss dev Samples.recon_gramSchmidt (fun imgs => imgs)
      (fun imgs => imgs) Samples.recon_mse (fun _ imgs => imgs)
      Samples.recon_regularisers Samples.recon_autoencoder Samples.recon_generator
      [[[Fin p]]] [[[Fin p]]] = Ok losses.
Proof.
  unfold ReconSiren.decode_images_with_loss, ReconSiren.best_loss_rec.
  cbn -[ReconSiren.candidate_loss ReconSiren.keep_min Rplus Rmult Ropp IZR pow].
  destruct (sample_candidate_loss dev p) as [rows [r E]]. rewrite E.
  cbn -[ReconSiren.keep_min Rplus Rmult Ropp IZR pow].
  eexists. reflexivity.
Qed.

Lemma decode_images_with_loss_single_pose_witness :
  exists losses : list tfloat,
    ReconSiren.decode_images_with_loss ReconSiren.GPU Samples.recon_gramSchmidt
      (fun imgs => imgs) (fun imgs => imgs) Samples.recon_mse (fun _ imgs => imgs)
      Samples.recon_regularisers Samples.recon_autoencoder Samples.recon_generator
      [[[Fin 2]]] [[[Fin 2]]] = Ok losses /\
    Forall (fun l => l = NaN) losses.
Proof.
  destruct (sample_decode_images_with_loss ReconSiren.GPU 2) as [losses E].
  exists losses. split; [exact E|].
  apply (decode_images_with_loss_single_pose ReconSiren.GPU Samples.recon_gramSchmidt
           (fun imgs => imgs) (fun imgs => imgs) Samples.recon_mse (fun _ imgs => imgs)
           Samples.recon_regularisers Samples.recon_autoencoder Samples.recon_generator
           [[[Fin 2]]] [[[Fin 2]]] losses); [|exact E].
  intros idr Hidr. reflexivity.
Defined.

(** ** [AutoEncoder.eval_volume_het] and the coordinate grids *)

Lemma HetSiren_set_coords_twice (g : HetSiren.Generator) (c c' : list (list tfloat)) :
  HetSiren.set_coords (HetSiren.set_coords g c) c' = HetSiren.set_coords g c'.
Proof. reflexivity. Qed.

Lemma set_coords_same_field (g : HetSiren.Generator) :
  HetSiren.set_coords g (HetSiren.coords g) = g.
Proof. destruct g; reflexivity. Qed.

Section GridIndependence.

Variable filterVol : Volume -> Volume.
Variable decode_het : list (list tfloat) -> list (list tfloat).

(** [Decoder.eval_volume_het] reads the indices, the values and the size of
    the generator, never its coordinate grid. *)
Lemma decoder_eval_volume_het_set_coords (g : HetSiren.Generator)
    (c : list (list tfloat)) (x_het : list (list tfloat)) (filter only_pos : bool) :
  HetSiren.decoder_eval_volume_het filterVol decode_het (HetSiren.set_coords g c)
    x_het filter only_pos =
  HetSiren.decoder_eval_volume_het filterVol decode_het g x_het filter only_pos.
Proof. reflexivity. Qed.

Lemma accumulate_volumes_grid_count (x_het : list (list tfloat))
    (filter only_pos : bool) (cs1 : list (list (list tfloat))) :
  forall (cs2 : list (list (list tfloat))) (g : HetSiren.Generator)
         (c1 c2 : list (list tfloat)) (volume : list Volume),
  List.length cs1 = List.length cs2 ->
  snd (HetSiren.accumulate_volumes filterVol decode_het (HetSiren.set_coords g c1)
         x_het filter only_pos cs1 volume) =
  snd (HetSiren.accumulate_volumes filterVol decode_het (HetSiren.set_coords g c2)
         x_het filter only_pos cs2 volume).
Proof.
  induction cs1 as [|a cs1 IH]; intros [|b cs2] g c1 c2 volume Hlen;
    simpl in Hlen; try discriminate; [reflexivity|].
  simpl. rewrite !HetSiren_set_coords_twice.
  rewrite !decoder_eval_volume_het_set_coords.
  destruct (HetSiren.decoder_eval_volume_het filterVol decode_het g x_het filter only_pos)
    as [v|e]; [|reflexivity].
  rewrite <- (HetSiren_set_coords_twice g c1 a), <- (HetSiren_set_coords_twice g c2 b).
  rewrite !HetSiren_set_coords_twice.
  apply IH. now injection Hlen.
Qed.

(** The volumes returned by [AutoEncoder.eval_volume_het] depend on how
    many coordinate grids [getAllCoordsMask] returns, not on the grids: each
    pass of the loop decodes the same volume and adds it.  They depend
    neither on [add_to_original] nor on the volume file, which is read and
    not used. *)
Theorem eval_volume_het_ignores_grids
    (getAllCoordsMask1 getAllCoordsMask2 :
       HetSiren.Generator -> list (list (list tfloat)))
    (original_volume_file1 original_volume_file2 : option Volume)
    (g : HetSiren.Generator) (x_het : list (list tfloat))
    (allCoords filter only_pos add_to_original1 add_to_original2 : bool) :
  List.length (getAllCoordsMask1 g) = List.length (getAllCoordsMask2 g) ->
  snd (HetSiren.eval_volume_het filterVol decode_het getAllCoordsMask1
         original_volume_file1 g x_het allCoords filter only_pos add_to_original1) =
  snd (HetSiren.eval_volume_het filterVol decode_het getAllCoordsMask2
         original_volume_file2 g x_het allCoords filter only_pos add_to_original2).
Proof.
  intros Hlen. unfold HetSiren.eval_volume_het.
  destruct (allCoords && (1 <? HetSiren.step g)%Z); [|reflexivity].
  pose proof (accumulate_volumes_grid_count x_het filter only_pos
                (getAllCoordsMask1 g) (getAllCoordsMask2 g) g
                (HetSiren.coords g) (HetSiren.coords g)
                (repeat (zeros (HetSiren.xsize g * HetSiren.xsize g * HetSiren.xsize g))
                   (List.length x_het)) Hlen) as H.
  rewrite !set_coords_same_field in H.
  destruct (HetSiren.accumulate_volumes filterVol decode_het g x_het filter only_pos
              (getAllCoordsMask1 g) _) as [g1 r1].
  destruct (HetSiren.accumulate_volumes filterVol decode_het g x_het filter only_pos
              (getAllCoordsMask2 g) _) as [g2 r2].
  simpl in H. subst r2. destruct r1; reflexivity.
Qed.

End GridIndependence.

Lemma eval_volume_het_ignores_grids_witness :
  snd (HetSiren.eval_volume_het (fun v => v) Samples.het_decode Samples.het_all_coords
         None Samples.het_generator [[Fin 0]] true false false false) =
  snd (HetSiren.eval_volume_het (fun v => v) Samples.het_decode
         (fun _ => [[[Fin 7; Fin 7; Fin 7]]; []])
         (Some [Fin 2]) Samples.het_generator [[Fin 0]] true false false true).
Proof.
  apply (eval_volume_het_ignores_grids (fun v => v) Samples.het_decode
           Samples.het_all_coords (fun _ => [[[Fin 7; Fin 7; Fin 7]]; []])
           None (Some [Fin 2]) Samples.het_generator [[Fin 0]]
           true false false false true).
  reflexivity.
Defined.

(** ** Sums of finite values *)

Lemma finite_list_inv (l : list tfloat) :
  Forall is_finite l -> exists rs : list R, l = map Fin rs.
Proof.
  induction 1 as [|x l Hx _ [rs ->]].
  - now exists [].
  - destruct (is_finite_inv x Hx) as [r ->]. now exists (r :: rs).
Qed.

Lemma fold_tadd_Fin (rs : list R) (a : R) :
  fold_left tadd (map Fin rs) (Fin a) = Fin (a + ReconSiren.Rsum rs).
Proof.
  revert a. induction rs as [|r rs IH]; intros a; simpl.
  - f_equal. ring.
  - rewrite IH. f_equal. ring.
Qed.

Lemma reduce_sum_Fin (rs : list R) : reduce_sum (map Fin rs) = Fin (ReconSiren.Rsum rs).
Proof. unfold reduce_sum. rewrite fold_tadd_Fin. f_equal. ring. Qed.

Lemma reduce_mean_Fin (rs : list R) :
  rs <> [] ->
  reduce_mean (map Fin rs) = Fin (ReconSiren.Rsum rs / INR (List.length rs)).
Proof.
  intros Hne. unfold reduce_mean, tcast_nat. rewrite reduce_sum_Fin, length_map.
  simpl. rewrite Reqb_false; [reflexivity|].
  apply not_0_INR. destruct rs; [congruence | discriminate].
Qed.

Lemma map_tabs_Fin (rs : list R) : map tabs (map Fin rs) = map Fin (map Rabs rs).
Proof. now rewrite !map_map. Qed.

Lemma Rsum_nonneg (l : list R) : Forall (fun v => 0 <= v) l -> 0 <= ReconSiren.Rsum l.
Proof. induction 1 as [|x l Hx _ IH]; simpl; lra. Qed.

Lemma boolean_mask_filter {A : Type} (f : A -> bool) (t : list A) :
  boolean_mask t (map f t) = filter f t.
Proof.
  unfold boolean_mask. induction t as [|x t IH]; simpl; [reflexivity|].
  destruct (f x); simpl; now rewrite IH.
Qed.

(** ** The negative-density penalty when there are negative entries *)

(** With a finite corrected density that has at least one negative entry
    and a finite non-negative [l1_lambda], [neg_loss_het] is a finite
    non-negative number: [l1_lambda] times the sum of the magnitudes of the
    negative entries, divided twice by their count.  It is positive when
    [l1_lambda] is. *)
Theorem neg_loss_het_with_negatives (l1_lambda : R) (delta_het : list (list tfloat)) :
  0 <= l1_lambda ->
  Forall (Forall is_finite) delta_het ->
  Exists (Exists (fun x => tless x (Fin 0) = true)) delta_het ->
  exists (negs : list R),
    negs <> [] /\ Forall (fun x => x < 0) negs /\
    map Fin negs = filter (fun x => tless x (Fin 0)) (concat delta_het) /\
    HetSiren.neg_loss_het (Fin l1_lambda) delta_het =
      Fin (l1_lambda * (ReconSiren.Rsum (map Rabs negs) / INR (List.length negs))
           / INR (List.length negs)) /\
    0 <= l1_lambda * (ReconSiren.Rsum (map Rabs negs) / INR (List.length negs))
         / INR (List.length negs) /\
    (0 < l1_lambda ->
     0 < l1_lambda * (ReconSiren.Rsum (map Rabs negs) / INR (List.length negs))
         / INR (List.length negs)).
Proof.
  intros Hl Hfin Hex. unfold HetSiren.neg_loss_het.
  rewrite concat_map_map, boolean_mask_filter.
  set (neg := filter (fun x => tless x (Fin 0)) (concat delta_het)).
  assert (Hnf : Forall is_finite neg).
  { unfold neg. apply Forall_forall. intros x Hx. apply filter_In in Hx.
    destruct Hx as [Hx _]. apply Forall_concat_intro in Hfin.
    rewrite Forall_forall in Hfin. now apply Hfin. }
  destruct (finite_list_inv neg Hnf) as [negs Hnegs].
  exists negs.
  assert (Hne : negs <> []).
  { intros ->. simpl in Hnegs.
    apply Exists_exists in Hex. destruct Hex as [row [Hrow Hex]].
    apply Exists_exists in Hex. destruct Hex as [x [Hx Hneg]].
    assert (Hin : In x neg).
    { unfold neg. apply filter_In. split; [|exact Hneg].
      apply in_concat. exists row. now split. }
    rewrite Hnegs in Hin. destruct Hin. }
  assert (Hall : Forall (fun x => x < 0) negs).
  { apply Forall_forall. intros r Hr.
    assert (Hin : In (Fin r) neg) by (rewrite Hnegs; now apply in_map).
    unfold neg in Hin. apply filter_In in Hin. destruct Hin as [_ Hlt].
    simpl in Hlt. now apply Rltb_spec in Hlt. }
  assert (Hn : 0 < INR (List.length negs)).
  { apply lt_0_INR. destruct negs; [congruence | simpl; lia]. }
  assert (Hsum : 0 < ReconSiren.Rsum (map Rabs negs)).
  { apply Rsum_pos.
    - destruct negs; [congruence | discriminate].
    - apply Forall_map. eapply Forall_impl; [|exact Hall]. intros r Hr. simpl.
      apply Rabs_pos_lt. lra. }
  assert (Hq : 0 < ReconSiren.Rsum (map Rabs negs) / INR (List.length negs))
    by now apply Rdiv_lt_0_compat.
  split; [exact Hne|]. split; [exact Hall|]. split; [now symmetry|].
  split.
  - rewrite Hnegs, map_tabs_Fin, reduce_mean_Fin, !length_map
      by (destruct negs; [congruence | discriminate]).
    unfold tcast_nat; simpl. rewrite Reqb_false by lra. reflexivity.
  - split.
    + apply Rmult_le_pos; [|left; now apply Rinv_0_lt_compat].
      apply Rmult_le_pos; lra.
    + intros Hpos. apply Rdiv_lt_0_compat; [|assumption].
      now apply Rmult_lt_0_compat.
Qed.

Lemma neg_loss_het_with_negatives_witness :
  exists (negs : list R),
    negs <> [] /\ Forall (fun x => x < 0) negs /\
    map Fin negs = filter (fun x => tless x (Fin 0)) (concat [[Fin 1; Fin (-2)]]) /\
    HetSiren.neg_loss_het (Fin 0.5) [[Fin 1; Fin (-2)]] =
      Fin (0.5 * (ReconSiren.Rsum (map Rabs negs) / INR (List.length negs))
           / INR (List.length negs)) /\
    0 <= 0.5 * (ReconSiren.Rsum (map Rabs negs) / INR (List.length negs))
         / INR (List.length negs) /\
    (0 < 0.5 ->
     0 < 0.5 * (ReconSiren.Rsum (map Rabs negs) / INR (List.length negs))
         / INR (List.length negs)).
Proof.
  apply (neg_loss_het_with_negatives 0.5 [[Fin 1; Fin (-2)]]).
  - lra.
  - repeat constructor.
  - apply Exists_cons_hd. apply Exists_cons_tl. apply Exists_cons_hd.
    simpl. apply Rltb_true. lra.
Defined.

(** ** The scatter projection: devices and pixels *)

Lemma tensor_scatter_nd_add_gpu (xs : nat) (idx : list (Z * Z)) :
  forall (img : Image) (updates : list tfloat),
  exists out, ReconSiren.tensor_scatter_nd_add ReconSiren.GPU xs img idx updates = Ok out.
Proof.
  induction idx as [|p idx IH]; intros img [|v updates]; simpl; eauto.
  destruct (ReconSiren.in_bounds xs p); apply IH.
Qed.

Lemma tensor_scatter_nd_add_cpu (xs : nat) (idx : list (Z * Z)) :
  forall (img : Image) (updates : list tfloat),
  List.length idx = List.length updates ->
  ReconSiren.tensor_scatter_nd_add ReconSiren.CPU xs img idx updates =
    if forallb (ReconSiren.in_bounds xs) idx
    then ReconSiren.tensor_scatter_nd_add ReconSiren.GPU xs img idx updates
    else Raise InvalidArgumentError.
Proof.
  induction idx as [|p idx IH]; intros img [|v updates] Hlen; simpl in *;
    try reflexivity; try discriminate.
  destruct (ReconSiren.in_bounds xs p); simpl; [|reflexivity].
  apply IH. lia.
Qed.

Lemma forallb_map_compose {A B : Type} (f : A -> B) (p : B -> bool) (l : list A) :
  forallb p (map f l) = forallb (fun a => p (f a)) l.
Proof. induction l as [|a l IH]; simpl; [reflexivity | now rewrite IH]. Qed.

Lemma scatter_image_lengths (ro : list (tfloat * tfloat)) (vals : list tfloat) :
  List.length ro = List.length vals ->
  List.length (map pixel_of ro) =
  List.length (map2 tmul vals (map ReconSiren.weight ro)).
Proof. intros H. rewrite map2_length, !length_map. lia. Qed.

(** On a GPU the scatter projection of an image always returns; on a CPU it
    returns the same image when every point rounds to a pixel inside the
    frame, and raises [InvalidArgumentError] as soon as one point does
    not. *)
Theorem scatter_image_devices (xs : nat) (ro : list (tfloat * tfloat))
    (vals : list tfloat) :
  List.length ro = List.length vals ->
  (exists out, ReconSiren.scatter_image ReconSiren.GPU xs ro vals = Ok out) /\
  (forallb (fun p => ReconSiren.in_bounds xs (pixel_of p)) ro = true ->
   ReconSiren.scatter_image ReconSiren.CPU xs ro vals =
   ReconSiren.scatter_image ReconSiren.GPU xs ro vals) /\
  (forallb (fun p => ReconSiren.in_bounds xs (pixel_of p)) ro = false ->
   ReconSiren.scatter_image ReconSiren.CPU xs ro vals = Raise InvalidArgumentError).
Proof.
  intros Hlen. unfold ReconSiren.scatter_image.
  change (map (fun p => (tcast_int32 (tround (fst p)), tcast_int32 (tround (snd p)))) ro)
    with (map pixel_of ro).
  split; [apply tensor_scatter_nd_add_gpu|].
  rewrite tensor_scatter_nd_add_cpu by now apply scatter_image_lengths.
  rewrite forallb_map_compose.
  split; intros ->; reflexivity.
Qed.

Lemma zero_image_shape (xs : nat) : image_shape xs (repeat (zeros xs) xs).
Proof.
  split; [apply repeat_length|]. intros k Hk.
  rewrite nth_repeat_lt by assumption. apply repeat_length.
Qed.

Lemma in_bounds_inv (xs : nat) (i j : Z) :
  ReconSiren.in_bounds xs (i, j) = true ->
  (0 <= i < Z.of_nat xs)%Z /\ (0 <= j < Z.of_nat xs)%Z.
Proof.
  unfold ReconSiren.in_bounds; simpl. rewrite !andb_true_iff. lia.
Qed.

Lemma add_at_shape (xs : nat) (img : Image) (p : Z * Z) (v : tfloat) :
  image_shape xs img -> ReconSiren.in_bounds xs p = true ->
  image_shape xs (ReconSiren.add_at img p v).
Proof.
  intros [Hlen Hrows] Hin. destruct p as [i j].
  apply in_bounds_inv in Hin. destruct Hin as [Hi Hj].
  unfold ReconSiren.add_at; simpl. split.
  - now rewrite list_set_length.
  - intros k Hk. destruct (Nat.eq_dec (Z.to_nat i) k) as [<-|Hne].
    + rewrite list_set_nth_eq by lia. rewrite list_set_length. now apply Hrows.
    + rewrite list_set_nth_neq by assumption. now apply Hrows.
Qed.

Lemma tensor_scatter_nd_add_pixel (dev : ReconSiren.Device) (xs : nat)
    (idx : list (Z * Z)) :
  forall (img : Image) (updates : list tfloat) (out : Image),
  image_shape xs img ->
  ReconSiren.tensor_scatter_nd_add dev xs img idx updates = Ok out ->
  image_shape xs out /\
  forall a b, (a < xs)%nat -> (b < xs)%nat ->
    nth b (nth a out []) (Fin 0) =
    fold_left tadd
      (map snd (filter (fun q => pixel_eqb (fst q) (Z.of_nat a, Z.of_nat b))
                  (combine idx updates)))
      (nth b (nth a img []) (Fin 0)).
Proof.
  induction idx as [|p idx IH]; intros img [|v updates] out Hs H; simpl in H;
    try (injection H as <-; split; [assumption | reflexivity]).
  destruct (ReconSiren.in_bounds xs p) eqn:Hin.
  - destruct (IH _ _ _ (add_at_shape xs img p v Hs Hin) H) as [Hso Hpix].
    split; [assumption|]. intros a b Ha Hb. rewrite Hpix by assumption.
    destruct p as [i j]. destruct (in_bounds_inv xs i j Hin) as [Hi Hj].
    destruct Hs as [Hlen Hrows].
    rewrite (add_at_nth xs) by assumption.
    cbn [combine filter fst]. unfold pixel_eqb at 2. cbn [fst snd].
    rewrite (Z.eqb_sym i), (Z.eqb_sym j).
    destruct ((Z.of_nat a =? i) && (Z.of_nat b =? j))%Z; reflexivity.
  - destruct dev; [discriminate|].
    destruct (IH _ _ _ Hs H) as [Hso Hpix].
    split; [assumption|]. intros a b Ha Hb. rewrite Hpix by assumption.
    cbn [combine filter fst].
    replace (pixel_eqb p (Z.of_nat a, Z.of_nat b)) with false; [reflexivity|].
    symmetry. apply not_true_is_false. intros He.
    unfold pixel_eqb in He. cbn [fst snd] in He.
    apply andb_true_iff in He. destruct He as [E1 E2].
    apply Z.eqb_eq in E1, E2.
    assert (Ht : ReconSiren.in_bounds xs p = true).
    { unfold ReconSiren.in_bounds. rewrite E1, E2.
      repeat (apply andb_true_intro; split); lia. }
    congruence.
Qed.

Lemma combine_scatter (ro : list (tfloat * tfloat)) :
  forall vals : list tfloat,
  combine (map pixel_of ro) (map2 tmul vals (map ReconSiren.weight ro)) =
  map (fun q => (pixel_of (fst q), tmul (snd q) (ReconSiren.weight (fst q))))
      (combine ro vals).
Proof.
  unfold map2. induction ro as [|p ro IH]; intros [|v vals]; simpl; try reflexivity.
  now rewrite IH.
Qed.

Lemma filter_map_commute {A B : Type} (h : A -> B) (P : B -> bool) (l : list A) :
  filter P (map h l) = map h (filter (fun x => P (h x)) l).
Proof.
  induction l as [|a l IH]; simpl; [reflexivity|].
  destruct (P (h a)); simpl; now rewrite IH.
Qed.

(** C5: in the scatter projection every point's value is multiplied by its
    weight [exp(-d^2 / (2 sigma^2))] with [sigma = 1], where [d^2] is the
    squared distance between the projected position and the integer position
    it is rounded to, before it is scatter-added: whatever the points, each
    pixel of the image holds the sum of [value * weight] over the points
    rounded to it.  For a single point exactly at an integer pixel of the
    image the weight is 1, the pixel receives the whole value and every
    other pixel of the zero-initialised image stays 0. *)
Theorem scatter_weighted_values (dev : ReconSiren.Device) (xs : nat) :
  (forall y x : R,
     ReconSiren.weight (Fin y, Fin x) =
       Fin (exp (- ((IZR (round_half_even y) - y) ^ 2
                    + (IZR (round_half_even x) - x) ^ 2) / (2 * 1 ^ 2)))) /\
  (forall (ro : list (tfloat * tfloat)) (vals : list tfloat) (out : Image),
     List.length ro = List.length vals ->
     ReconSiren.scatter_image dev xs ro vals = Ok out ->
     forall a b : nat, (a < xs)%nat -> (b < xs)%nat ->
       nth b (nth a out []) (Fin 0) =
       reduce_sum
         (map (fun q => tmul (snd q) (ReconSiren.weight (fst q)))
            (filter (fun q => pixel_eqb (pixel_of (fst q)) (Z.of_nat a, Z.of_nat b))
               (combine ro vals)))) /\
  (forall (i j : Z) (v : tfloat),
     (0 <= i < Z.of_nat xs)%Z -> (0 <= j < Z.of_nat xs)%Z ->
     ReconSiren.weight (Fin (IZR i), Fin (IZR j)) = Fin 1 /\
     exists img : Image,
       ReconSiren.scatter_image dev xs [(Fin (IZR i), Fin (IZR j))] [v] = Ok img /\
       forall a b : nat, (a < xs)%nat -> (b < xs)%nat ->
         nth b (nth a img []) (Fin 0) =
           if ((Z.of_nat a =? i) && (Z.of_nat b =? j))%Z then v else Fin 0).
Proof.
  split; [exact weight_finite|]. split.
  - intros ro vals out _ H a b Ha Hb. unfold ReconSiren.scatter_image in H.
    change (map (fun p => (tcast_int32 (tround (fst p)), tcast_int32 (tround (snd p)))) ro)
      with (map pixel_of ro) in H.
    destruct (tensor_scatter_nd_add_pixel dev xs _ _ _ _ (zero_image_shape xs) H)
      as [_ Hpix].
    rewrite Hpix by assumption.
    rewrite combine_scatter, filter_map_commute, map_map. cbn [fst snd].
    rewrite nth_repeat_lt by assumption. unfold zeros.
    rewrite nth_repeat_lt by assumption. reflexivity.
  - intros i j v Hi Hj. split; [apply weight_integer_position|].
    rewrite scatter_image_single by assumption.
    eexists. split; [reflexivity|].
    intros a b Ha Hb.
    rewrite (add_at_nth xs) by
      (try assumption; try apply repeat_length;
       intros k Hk; rewrite nth_repeat_lt by assumption; apply repeat_length).
    rewrite (nth_repeat_lt _ _ Ha). unfold zeros.
    rewrite (nth_repeat_lt _ _ Hb).
    destruct ((Z.of_nat a =? i) && (Z.of_nat b =? j))%Z; [apply tadd_zero_l | reflexivity].
Qed.

(** Two points off the pixel centres, rounded to the same pixel of a 2 x 2
    image. *)
Lemma scatter_weighted_values_witness :
  exists out : Image,
    ReconSiren.scatter_image ReconSiren.GPU 2
      [(Fin (1 / 4), Fin 1); (Fin (- (1 / 8)), Fin (3 / 4))] [Fin 5; Fin 7] = Ok out /\
    forall a b : nat, (a < 2)%nat -> (b < 2)%nat ->
      nth b (nth a out []) (Fin 0) =
      reduce_sum
        (map (fun q => tmul (snd q) (ReconSiren.weight (fst q)))
           (filter (fun q => pixel_eqb (pixel_of (fst q)) (Z.of_nat a, Z.of_nat b))
              (combine [(Fin (1 / 4), Fin 1); (Fin (- (1 / 8)), Fin (3 / 4))]
                 [Fin 5; Fin 7]))).
Proof.
  destruct (tensor_scatter_nd_add_gpu 2
              (map pixel_of [(Fin (1 / 4), Fin 1); (Fin (- (1 / 8)), Fin (3 / 4))])
              (repeat (zeros 2) 2)
              (map2 tmul [Fin 5; Fin 7]
                 (map ReconSiren.weight
                    [(Fin (1 / 4), Fin 1); (Fin (- (1 / 8)), Fin (3 / 4))])))
    as [out E].
  exists out. split; [exact E|].
  apply (proj1 (proj2 (scatter_weighted_values ReconSiren.GPU 2))
           [(Fin (1 / 4), Fin 1); (Fin (- (1 / 8)), Fin (3 / 4))] [Fin 5; Fin 7] out);
    [reflexivity | exact E].
Defined.

(** When the scatter projection of an image returns, the image has
    [xsize] rows of [xsize] pixels and each pixel holds the sum, in the order
    of the points, of [value * weight] over the points that round to it; a
    pixel that no point rounds to is zero. *)
Theorem scatter_image_pixel (dev : ReconSiren.Device) (xs : nat)
    (ro : list (tfloat * tfloat)) (vals : list tfloat) (out : Image) :
  List.length ro = List.length vals ->
  ReconSiren.scatter_image dev xs ro vals = Ok out ->
  List.length out = xs /\
  (forall a, (a < xs)%nat -> List.length (nth a out []) = xs) /\
  forall a b, (a < xs)%nat -> (b < xs)%nat ->
    nth b (nth a out []) (Fin 0) =
    reduce_sum
      (map (fun q => tmul (snd q) (ReconSiren.weight (fst q)))
         (filter (fun q => pixel_eqb (pixel_of (fst q)) (Z.of_nat a, Z.of_nat b))
            (combine ro vals))).
Proof.
  intros _ H. unfold ReconSiren.scatter_image in H.
  change (map (fun p => (tcast_int32 (tround (fst p)), tcast_int32 (tround (snd p)))) ro)
    with (map pixel_of ro) in H.
  destruct (tensor_scatter_nd_add_pixel dev xs _ _ _ _ (zero_image_shape xs) H)
    as [[Hlen Hrows] Hpix].
  split; [assumption|]. split; [assumption|].
  intros a b Ha Hb. rewrite Hpix by assumption.
  rewrite combine_scatter, filter_map_commute, map_map. cbn [fst snd].
  rewrite nth_repeat_lt by assumption. unfold zeros.
  rewrite nth_repeat_lt by assumption. reflexivity.
Qed.

Lemma scatter_image_pixel_witness :
  List.length (ReconSiren.add_at (repeat (zeros 2) 2) (0, 1)%Z (Fin 3)) = 2%nat /\
  (forall a, (a < 2)%nat ->
     List.length (nth a (ReconSiren.add_at (repeat (zeros 2) 2) (0, 1)%Z (Fin 3)) [])
       = 2%nat) /\
  forall a b, (a < 2)%nat -> (b < 2)%nat ->
    nth b (nth a (ReconSiren.add_at (repeat (zeros 2) 2) (0, 1)%Z (Fin 3)) []) (Fin 0) =
    reduce_sum
      (map (fun q => tmul (snd q) (ReconSiren.weight (fst q)))
         (filter (fun q => pixel_eqb (pixel_of (fst q)) (Z.of_nat a, Z.of_nat b))
            (combine [(Fin (IZR 0), Fin (IZR 1))] [Fin 3]))).
Proof.
  apply (scatter_image_pixel ReconSiren.CPU 2 [(Fin (IZR 0), Fin (IZR 1))] [Fin 3]).
  - reflexivity.
  - apply scatter_image_single; simpl; lia.
Defined.

Lemma scatter_image_devices_witness :
  (exists out, ReconSiren.scatter_image ReconSiren.GPU 2
                 [(Fin (IZR 0), Fin (IZR 1))] [Fin 3] = Ok out) /\
  (forallb (fun p => ReconSiren.in_bounds 2 (pixel_of p)) [(Fin (IZR 0), Fin (IZR 1))] = true ->
   ReconSiren.scatter_image ReconSiren.CPU 2 [(Fin (IZR 0), Fin (IZR 1))] [Fin 3] =
   ReconSiren.scatter_image ReconSiren.GPU 2 [(Fin (IZR 0), Fin (IZR 1))] [Fin 3]) /\
  (forallb (fun p => ReconSiren.in_bounds 2 (pixel_of p)) [(Fin (IZR 0), Fin (IZR 1))] = false ->
   ReconSiren.scatter_image ReconSiren.CPU 2 [(Fin (IZR 0), Fin (IZR 1))] [Fin 3]
     = Raise InvalidArgumentError).
Proof.
  apply (scatter_image_devices 2 [(Fin (IZR 0), Fin (IZR 1))] [Fin 3]).
  reflexivity.
Defined.

(** ** The device and the exceptions of [predict_step] *)

Lemma device_agrees_refl {A : Type} (r : result A) : device_agrees r r.
Proof. now left. Qed.

Lemma device_agrees_bind {A B : Type} (c g : result A) (kc kg : A -> result B) :
  device_agrees c g -> (forall a, device_agrees (kc a) (kg a)) ->
  device_agrees (bind c kc) (bind g kg).
Proof.
  intros [-> | ->] Hk.
  - destruct g as [a|e]; simpl; [apply Hk | now left].
  - now right.
Qed.

Lemma device_agrees_for_each {A B : Type} (f h : A -> result B) (l : list A) :
  (forall a, device_agrees (f a) (h a)) ->
  device_agrees (for_each f l) (for_each h l).
Proof.
  intros Hf. induction l as [|a l IH]; simpl.
  - apply device_agrees_refl.
  - apply device_agrees_bind; [apply Hf|]. intros b.
    apply device_agrees_bind; [apply IH|]. intros bs. apply device_agrees_refl.
Qed.

Lemma tensor_scatter_nd_add_device_agrees (xs : nat) (idx : list (Z * Z)) :
  forall (img : Image) (updates : list tfloat),
  device_agrees (ReconSiren.tensor_scatter_nd_add ReconSiren.CPU xs img idx updates)
                (ReconSiren.tensor_scatter_nd_add ReconSiren.GPU xs img idx updates).
Proof.
  induction idx as [|p idx IH]; intros img [|v updates]; simpl;
    try apply device_agrees_refl.
  destruct (ReconSiren.in_bounds xs p); [apply IH | now right].
Qed.

Section DeviceFacts.

Variable gramSchmidt : list (list tfloat) -> list (list (list tfloat)).
Variable gaussian_filter2d : list Image -> list Image.
Variable ctfFilterImage : list Image -> list Image.
Variable wiener2DFilter : list Image -> list Image.
Variable mse : list Image -> list Image -> list tfloat.
Variable self : ReconSiren.AutoEncoder.
Variable g : ReconSiren.Generator.

Lemma render_device_agrees (delta : list tfloat) (r : list (list (list tfloat)))
    (shifts : list (list tfloat)) :
  device_agrees
    (ReconSiren.render ReconSiren.CPU gaussian_filter2d ctfFilterImage self g delta r shifts)
    (ReconSiren.render ReconSiren.GPU gaussian_filter2d ctfFilterImage self g delta r shifts).
Proof.
  unfold ReconSiren.render. apply device_agrees_bind.
  - apply device_agrees_for_each. intros rs. unfold ReconSiren.scatter_image.
    apply tensor_scatter_nd_add_device_agrees.
  - intros imgs. apply device_agrees_refl.
Qed.

Lemma candidate_device_agrees (images : list Image) (encoded : list (list tfloat))
    (delta : list tfloat) (idr : nat) :
  device_agrees
    (ReconSiren.candidate ReconSiren.CPU gramSchmidt gaussian_filter2d ctfFilterImage
       mse self g images encoded delta idr)
    (ReconSiren.candidate ReconSiren.GPU gramSchmidt gaussian_filter2d ctfFilterImage
       mse self g images encoded delta idr).
Proof.
  unfold ReconSiren.candidate.
  destruct (ReconSiren.head_encoder self idr encoded) as [rows shifts].
  apply device_agrees_bind; [apply render_device_agrees|].
  intros imgs. apply device_agrees_refl.
Qed.

Lemma candidates_loop_device_agrees (images : list Image) (encoded : list (list tfloat))
    (delta : list tfloat) (idrs : list nat) :
  forall st : ReconSiren.Kept,
  device_agrees
    (ReconSiren.candidates_loop ReconSiren.CPU gramSchmidt gaussian_filter2d
       ctfFilterImage mse self g images encoded delta idrs st)
    (ReconSiren.candidates_loop ReconSiren.GPU gramSchmidt gaussian_filter2d
       ctfFilterImage mse self g images encoded delta idrs st).
Proof.
  induction idrs as [|idr idrs IH]; intros st; simpl.
  - apply device_agrees_refl.
  - apply device_agrees_bind; [apply candidate_device_agrees|].
    intros c. apply IH.
Qed.

(** The device changes the outcome of [predict_step] in one way only: a CPU
    run ends as the GPU run does, or in [InvalidArgumentError], the exception
    of the scatter projection for a point outside the frame.  So whatever
    poses, shifts and images a CPU run returns, the GPU run returns as
    well. *)
Theorem predict_step_devices (images : list Image) :
  (ReconSiren.predict_step ReconSiren.CPU gramSchmidt gaussian_filter2d ctfFilterImage
     wiener2DFilter mse self g images =
   ReconSiren.predict_step ReconSiren.GPU gramSchmidt gaussian_filter2d ctfFilterImage
     wiener2DFilter mse self g images \/
   ReconSiren.predict_step ReconSiren.CPU gramSchmidt gaussian_filter2d ctfFilterImage
     wiener2DFilter mse self g images = Raise InvalidArgumentError) /\
  (forall out,
     ReconSiren.predict_step ReconSiren.CPU gramSchmidt gaussian_filter2d ctfFilterImage
       wiener2DFilter mse self g images = Ok out ->
     ReconSiren.predict_step ReconSiren.GPU gramSchmidt gaussian_filter2d ctfFilterImage
       wiener2DFilter mse self g images = Ok out).
Proof.
  assert (H : device_agrees
                (ReconSiren.predict_step ReconSiren.CPU gramSchmidt gaussian_filter2d
                   ctfFilterImage wiener2DFilter mse self g images)
                (ReconSiren.predict_step ReconSiren.GPU gramSchmidt gaussian_filter2d
                   ctfFilterImage wiener2DFilter mse self g images)).
  { unfold ReconSiren.predict_step.
    apply (device_agrees_bind
             (ReconSiren.candidates_loop ReconSiren.CPU _ _ _ _ _ _ _ _ _ _ _)
             (ReconSiren.candidates_loop ReconSiren.GPU _ _ _ _ _ _ _ _ _ _ _)).
    - apply candidates_loop_device_agrees.
    - intros st. apply device_agrees_refl. }
  split; [exact H|].
  intros out E. destruct H as [H|H]; [now rewrite <- H | congruence].
Qed.

End DeviceFacts.

(** ** The indexed assignment of [Decoder.eval_volume_het] *)

Lemma np_index_bound (n : nat) (i : Z) (a : nat) :
  HetSiren.np_index n i = Some a -> (a < n)%nat.
Proof.
  unfold HetSiren.np_index.
  destruct ((0 <=? i) && (i <? Z.of_nat n))%Z eqn:E1.
  - intros H; injection H as <-. apply andb_true_iff in E1. lia.
  - destruct ((- Z.of_nat n <=? i) && (i <? 0))%Z eqn:E2; [|discriminate].
    intros H; injection H as <-. apply andb_true_iff in E2. lia.
Qed.

Lemma flat_index_bound (xs : nat) (p : Z * Z * Z) (m : nat) :
  HetSiren.flat_index xs p = Some m -> (m < xs * xs * xs)%nat.
Proof.
  destruct p as [[z y] x]. unfold HetSiren.flat_index.
  destruct (HetSiren.np_index xs z) as [a|] eqn:Ea; [|discriminate].
  destruct (HetSiren.np_index xs y) as [b|] eqn:Eb; [|discriminate].
  destruct (HetSiren.np_index xs x) as [c|] eqn:Ec; [|discriminate].
  intros H; injection H as <-.
  apply np_index_bound in Ea, Eb, Ec. nia.
Qed.

Lemma find_snoc {A : Type} (f : A -> bool) (l : list A) (a : A) :
  find f (l ++ [a]) =
    match find f l with
    | Some b => Some b
    | None => if f a then Some a else None
    end.
Proof.
  induction l as [|h t IH]; simpl; [reflexivity|].
  destruct (f h); [reflexivity | exact IH].
Qed.

Lemma assign_points_last_write (xs : nat) (idx : list (Z * Z * Z)) :
  forall (grid : Volume) (vals : list tfloat),
  List.length idx = List.length vals ->
  Forall (fun p => HetSiren.flat_index xs p <> None) idx ->
  List.length grid = (xs * xs * xs)%nat ->
  exists out,
    HetSiren.assign_points xs grid idx vals = Ok out /\
    List.length out = (xs * xs * xs)%nat /\
    forall n,
      nth n out (Fin 0) =
        match find (hits xs n) (rev (combine idx vals)) with
        | Some q => snd q
        | None => nth n grid (Fin 0)
        end.
Proof.
  induction idx as [|p idx IH]; intros grid [|v vals] Hlen Hok Hg; simpl in *;
    try discriminate.
  - exists grid. repeat split; assumption.
  - inversion Hok as [|? ? Hp Hrest]; subst.
    destruct (HetSiren.flat_index xs p) as [m|] eqn:Ep; [|congruence].
    destruct (IH (list_set m v grid) vals) as [out [Hout [Hlo Hnth]]];
      [lia | assumption | now rewrite list_set_length |].
    exists out. split; [assumption|]. split; [assumption|].
    intros n. rewrite Hnth, find_snoc.
    destruct (find (hits xs n) (rev (combine idx vals))); [reflexivity|].
    unfold hits at 1. cbn [fst]. rewrite Ep.
    destruct (Nat.eqb_spec m n) as [->|Hne].
    + apply list_set_nth_eq. rewrite Hg. apply (flat_index_bound xs p n Ep).
    + now apply list_set_nth_neq.
Qed.

Lemma assign_points_index_error (xs : nat) (idx : list (Z * Z * Z)) :
  forall (grid : Volume) (vals : list tfloat),
  List.length idx = List.length vals ->
  Exists (fun p => HetSiren.flat_index xs p = None) idx ->
  HetSiren.assign_points xs grid idx vals = Raise IndexError.
Proof.
  induction idx as [|p idx IH]; intros grid [|v vals] Hlen Hex; simpl in *;
    try discriminate; [inversion Hex|].
  destruct (HetSiren.flat_index xs p) as [m|] eqn:Ep; [|reflexivity].
  apply IH; [lia|]. inversion Hex; subst; [congruence | assumption].
Qed.

Lemma np_assign_same_length (xs : nat) (grid : Volume) (idx : list (Z * Z * Z))
    (vals : list tfloat) :
  List.length idx = List.length vals ->
  HetSiren.np_assign xs grid idx vals = HetSiren.assign_points xs grid idx vals.
Proof.
  intros Hlen. unfold HetSiren.np_assign.
  destruct vals as [|v [|w vals]]; try reflexivity.
  simpl in Hlen. now rewrite Hlen.
Qed.

Section ScatterVolume.

Variable filterVol : Volume -> Volume.

(** With one value per grid point and every index triple inside the cube
    (NumPy indexing, so an index in [-xsize, xsize)), the unfiltered volume of
    a batch element is returned; it has [xsize^3] voxels, a voxel that several
    points index holds the value of the last of them, and a voxel that no
    point indexes is zero. *)
Theorem scatter_volume_last_write (g : HetSiren.Generator) (vals : list tfloat) :
  List.length (HetSiren.indices g) = List.length vals ->
  Forall (fun p => HetSiren.flat_index (HetSiren.xsize g) p <> None) (HetSiren.indices g) ->
  exists grid,
    HetSiren.scatter_volume filterVol g false vals = Ok grid /\
    List.length grid = (HetSiren.xsize g * HetSiren.xsize g * HetSiren.xsize g)%nat /\
    forall n,
      nth n grid (Fin 0) =
        match find (hits (HetSiren.xsize g) n)
                (rev (combine (HetSiren.indices g) vals)) with
        | Some q => snd q
        | None => Fin 0
        end.
Proof.
  intros Hlen Hok. unfold HetSiren.scatter_volume.
  rewrite np_assign_same_length by assumption.
  destruct (assign_points_last_write (HetSiren.xsize g) (HetSiren.indices g)
              (zeros (HetSiren.xsize g * HetSiren.xsize g * HetSiren.xsize g)) vals)
    as [out [Hout [Hlo Hnth]]]; try assumption.
  { apply repeat_length. }
  exists out. rewrite Hout. split; [reflexivity|]. split; [assumption|].
  intros n. rewrite Hnth.
  destruct (find _ _); [reflexivity|].
  unfold zeros. apply nth_repeat.
Qed.

(** With one value per grid point, an index outside [-xsize, xsize) on any
    axis of any point makes the assignment raise [IndexError], with or
    without the filter. *)
Theorem scatter_volume_index_error (g : HetSiren.Generator) (filter : bool)
    (vals : list tfloat) :
  List.length (HetSiren.indices g) = List.length vals ->
  Exists (fun p => HetSiren.flat_index (HetSiren.xsize g) p = None) (HetSiren.indices g) ->
  HetSiren.scatter_volume filterVol g filter vals = Raise IndexError.
Proof.
  intros Hlen Hex. unfold HetSiren.scatter_volume.
  rewrite np_assign_same_length by assumption.
  now rewrite assign_points_index_error.
Qed.

End ScatterVolume.

Lemma scatter_volume_last_write_witness :
  exists grid,
    HetSiren.scatter_volume (fun v => v) Samples.het_generator_overlap false
      [Fin 5; Fin 7] = Ok grid /\
    List.length grid = (2 * 2 * 2)%nat /\
    forall n,
      nth n grid (Fin 0) =
        match find (hits 2 n)
                (rev (combine (HetSiren.indices Samples.het_generator_overlap)
                        [Fin 5; Fin 7])) with
        | Some q => snd q
        | None => Fin 0
        end.
Proof.
  apply (scatter_volume_last_write (fun v => v) Samples.het_generator_overlap
           [Fin 5; Fin 7]).
  - reflexivity.
  - repeat constructor; discriminate.
Defined.

Lemma scatter_volume_index_error_witness :
  HetSiren.scatter_volume (fun v => v) Samples.het_generator_off_cube true [Fin 5]
    = Raise IndexError.
Proof.
  apply (scatter_volume_index_error (fun v => v) Samples.het_generator_off_cube
           true [Fin 5]).
  - reflexivity.
  - apply Exists_cons_hd. reflexivity.
Defined.

(** ** The range of [correlation_coefficient_loss] *)


Lemma map2_tmul_Fin (a : list R) :
  forall b, map2 tmul (map Fin a) (map Fin b) = map Fin (map2 Rmult a b).
Proof.
  unfold map2. induction a as [|x a IH]; intros [|y b]; simpl; try reflexivity.
  now rewrite IH.
Qed.



Lemma Rsum_squares_nonneg (a : list R) :
  0 <= ReconSiren.Rsum (map (fun x => x * x) a).
Proof. apply Rsum_nonneg, Forall_map, Forall_forall. intros x _. simpl. nra. Qed.






(** ** [normalize_to_other_volumes]: the moments of the result *)

Lemma Rsum_affine (a b : R) (v : list R) :
  ReconSiren.Rsum (map (fun x => a * x + b) v) =
    a * ReconSiren.Rsum v + INR (List.length v) * b.
Proof.
  induction v as [|x v IH]; [simpl; lra|].
  cbn [map ReconSiren.Rsum fold_right List.length].
  change (fold_right Rplus 0) with ReconSiren.Rsum.
  rewrite IH, S_INR. lra.
Qed.

Lemma mean_affine (a b : R) (v : list R) :
  v <> [] ->
  HetSirenMore.mean (map (fun x => a * x + b) v) = a * HetSirenMore.mean v + b.
Proof.
  intros Hne. unfold HetSirenMore.mean. rewrite Rsum_affine, length_map.
  assert (Hn : INR (List.length v) <> 0).
  { apply not_0_INR. destruct v; [congruence | discriminate]. }
  field. exact Hn.
Qed.

Lemma normalize_volume_moments (v1 v2 : list R) :
  v2 <> [] -> HetSirenMore.std v2 <> 0 ->
  HetSirenMore.mean (HetSirenMore.normalize_volume v1 v2) = HetSirenMore.mean v1 /\
  HetSirenMore.std (HetSirenMore.normalize_volume v1 v2) = HetSirenMore.std v1.
Proof.
  intros Hne Hs2.
  set (m1 := HetSirenMore.mean v1). set (s1 := HetSirenMore.std v1).
  set (m2 := HetSirenMore.mean v2). set (s2 := HetSirenMore.std v2).
  assert (Hout : HetSirenMore.normalize_volume v1 v2 =
                 map (fun x => s1 / s2 * x + (m1 - m2 * s1 / s2)) v2).
  { unfold HetSirenMore.normalize_volume. apply map_ext. intros x.
    fold m1 s1 m2 s2. field. exact Hs2. }
  assert (Hmean : HetSirenMore.mean (HetSirenMore.normalize_volume v1 v2) = m1).
  { rewrite Hout, mean_affine by assumption. fold m2. field. exact Hs2. }
  split; [exact Hmean|].
  unfold HetSirenMore.std at 1. rewrite Hmean.
  rewrite Hout at 1. rewrite map_map.
  assert (Hvar : map (fun x => (s1 / s2 * x + (m1 - m2 * s1 / s2) - m1) ^ 2) v2 =
                 map (fun x => (s1 / s2) ^ 2 * x + 0)
                     (map (fun x => (x - m2) ^ 2) v2)).
  { rewrite map_map. apply map_ext. intros x. field. exact Hs2. }
  rewrite Hvar, mean_affine
    by (destruct v2; [congruence | discriminate]).
  fold m2.
  set (var2 := HetSirenMore.mean (map (fun x => (x - m2) ^ 2) v2)).
  assert (Hs2def : s2 = sqrt var2) by reflexivity.
  assert (Hvpos : 0 < var2).
  { destruct (Rlt_le_dec 0 var2) as [H|H]; [exact H|].
    exfalso. apply Hs2. fold s2. rewrite Hs2def. now apply sqrt_neg_0. }
  assert (Hsq : s2 * s2 = var2) by (rewrite Hs2def; apply sqrt_sqrt; lra).
  assert (Hs1 : 0 <= s1) by apply sqrt_pos.
  replace ((s1 / s2) ^ 2 * var2 + 0) with (s1 * s1).
  - now apply sqrt_square.
  - rewrite <- Hsq. field. exact Hs2.
Qed.

(** Every volume of the result has as many voxels as the volume of the
    second batch it comes from, and the mean and the standard deviation of
    the corresponding volume of the first batch, when the volume of the
    second batch is not constant. *)
Theorem normalize_to_other_volumes_moments (batch1 batch2 : list (list R)) :
  Forall2 (fun v1 v2 => v1 <> [] /\ v2 <> [] /\ HetSirenMore.std v2 <> 0)
          batch1 batch2 ->
  Forall2 (fun v1 out => HetSirenMore.mean out = HetSirenMore.mean v1 /\
                         HetSirenMore.std out = HetSirenMore.std v1)
          batch1 (HetSirenMore.normalize_to_other_volumes batch1 batch2) /\
  Forall2 (fun v2 out => List.length out = List.length v2)
          batch2 (HetSirenMore.normalize_to_other_volumes batch1 batch2).
Proof.
  unfold HetSirenMore.normalize_to_other_volumes, map2.
  induction 1 as [|v1 v2 b1 b2 [_ [Hne Hs]] _ [IH1 IH2]];
    cbn [map combine fst snd].
  - split; constructor.
  - split; constructor; try assumption.
    + now apply normalize_volume_moments.
    + unfold HetSirenMore.normalize_volume. apply length_map.
Qed.

Lemma std_sample : HetSirenMore.std [1; 3] = 1.
Proof.
  unfold HetSirenMore.std, HetSirenMore.mean. simpl.
  replace ((((1 - (1 + (3 + 0)) / (1 + 1)) * ((1 - (1 + (3 + 0)) / (1 + 1)) * 1) +
            ((3 - (1 + (3 + 0)) / (1 + 1)) * ((3 - (1 + (3 + 0)) / (1 + 1)) * 1) + 0)) /
           (1 + 1))) with 1 by field.
  apply sqrt_1.
Qed.

Lemma normalize_to_other_volumes_moments_witness :
  Forall2 (fun v1 out => HetSirenMore.mean out = HetSirenMore.mean v1 /\
                         HetSirenMore.std out = HetSirenMore.std v1)
          [[5; 9]] (HetSirenMore.normalize_to_other_volumes [[5; 9]] [[1; 3]]) /\
  Forall2 (fun v2 out => List.length out = List.length v2)
          [[1; 3]] (HetSirenMore.normalize_to_other_volumes [[5; 9]] [[1; 3]]).
Proof.
  apply (normalize_to_other_volumes_moments [[5; 9]] [[1; 3]]).
  constructor; [|constructor].
  split; [discriminate|]. split; [discriminate|].
  rewrite std_sample. lra.
Defined.

(** ** The smoothness losses of a scattered grid *)

Lemma Forall_map2 {A B C : Type} (P : A -> Prop) (Q : B -> Prop) (T : C -> Prop)
    (f : A -> B -> C) (l : list A) :
  (forall a b, P a -> Q b -> T (f a b)) ->
  forall m, Forall P l -> Forall Q m -> Forall T (map2 f l m).
Proof.
  intros Hf. unfold map2. induction l as [|a l IH]; intros [|b m] Hl Hm; simpl;
    try constructor.
  - inversion Hl; inversion Hm; subst. now apply Hf.
  - inversion Hl; inversion Hm; subst. now apply IH.
Qed.

Lemma Forall_tl {A : Type} (P : A -> Prop) (l : list A) :
  Forall P l -> Forall P (tl l).
Proof. intros H. destruct l; [constructor | now inversion H]. Qed.

Lemma Forall_map_intro {A B : Type} (P : A -> Prop) (Q : B -> Prop) (f : A -> B)
    (l : list A) :
  (forall a, P a -> Q (f a)) -> Forall P l -> Forall Q (map f l).
Proof. intros Hf H. apply Forall_map. eapply Forall_impl; [|exact H]. exact Hf. Qed.

(** Every voxel difference of a grid whose voxels satisfy [P] satisfies [Q],
    when [Q] holds for the difference of two such voxels. *)
Lemma pixel_diffs_Forall (P Q : tfloat -> Prop) (grid : Grid) :
  (forall a b, P a -> P b -> Q (tsub a b)) ->
  Forall (Forall (Forall P)) grid ->
  Forall (Forall (Forall Q)) (Smoothness.pixel_diff1 grid) /\
  Forall (Forall (Forall Q)) (Smoothness.pixel_diff2 grid) /\
  Forall (Forall (Forall Q)) (Smoothness.pixel_diff3 grid).
Proof.
  intros Hsub Hg. repeat split.
  - unfold Smoothness.pixel_diff1.
    apply (Forall_map2 (Forall (Forall P)) (Forall (Forall P)));
      [| now apply Forall_tl | assumption].
    intros p1 p2 H1 H2.
    apply (Forall_map2 (Forall P) (Forall P)); [| assumption | assumption].
    intros r1 r2 R1 R2. now apply (Forall_map2 P P).
  - unfold Smoothness.pixel_diff2.
    apply (Forall_map_intro (Forall (Forall P))); [|assumption].
    intros plane Hp.
    apply (Forall_map2 (Forall P) (Forall P)); [| now apply Forall_tl | assumption].
    intros r1 r2 R1 R2. now apply (Forall_map2 P P).
  - unfold Smoothness.pixel_diff3.
    apply (Forall_map_intro (Forall (Forall P))); [|assumption].
    intros plane Hp. apply (Forall_map_intro (Forall P)); [|assumption].
    intros row Hr. apply (Forall_map2 P P); [assumption | now apply Forall_tl | assumption].
Qed.

Lemma sum_all_map_Forall (P Q : tfloat -> Prop) (f : tfloat -> tfloat) (t : Grid) :
  (forall a, P a -> Q (f a)) ->
  Forall (Forall (Forall P)) t ->
  Forall Q (concat (concat (map (map (map f)) t))).
Proof.
  intros Hf Ht. apply Forall_concat_intro, Forall_concat_intro.
  apply (Forall_map_intro (Forall (Forall P))); [|assumption].
  intros plane Hp. apply (Forall_map_intro (Forall P)); [|assumption].
  intros row Hr. now apply (Forall_map_intro P).
Qed.

Lemma reduce_sum_nonneg (l : list tfloat) :
  Forall (fun v => exists r, v = Fin r /\ 0 <= r) l ->
  exists s, reduce_sum l = Fin s /\ 0 <= s.
Proof.
  intros H.
  assert (Hfin : Forall is_finite l).
  { eapply Forall_impl; [|exact H]. intros v [r [-> _]]. exact I. }
  destruct (finite_list_inv l Hfin) as [rs ->].
  rewrite reduce_sum_Fin. eexists; split; [reflexivity|].
  apply Rsum_nonneg. apply Forall_forall. intros r Hr.
  rewrite Forall_forall in H. destruct (H (Fin r) (in_map Fin rs r Hr)) as [r' [E Hr']].
  injection E as ->. exact Hr'.
Qed.

Lemma reduce_sum_zero (l : list tfloat) :
  Forall (fun v => v = Fin 0) l -> reduce_sum l = Fin 0.
Proof.
  unfold reduce_sum. induction 1 as [|v l -> _ IH]; [reflexivity|].
  simpl. rewrite Rplus_0_l. exact IH.
Qed.

Lemma pixel_pairs_positive (a b : nat) :
  (2 <= a * b)%nat ->
  (0 < 2 * (Z.of_nat a * Z.of_nat b) - Z.of_nat a - Z.of_nat b)%Z.
Proof.
  intros H. destruct a as [|a]; [simpl in H; lia|].
  destruct b as [|b]; [rewrite Nat.mul_0_r in H; lia|].
  assert (Hab : (1 <= a + b)%nat) by nia.
  rewrite !Nat2Z.inj_succ. nia.
Qed.

(** On a grid of finite voxels with at least one voxel and at least two rows
    in all over the first two axes, the total-variation loss and the
    neighbour MSE loss are finite and not negative. *)
Theorem smoothness_losses_nonnegative (grid : Grid) :
  Forall (Forall (Forall is_finite)) grid ->
  (0 < Smoothness.shape1 grid * Smoothness.shape2 grid * Smoothness.shape3 grid)%nat ->
  (2 <= Smoothness.shape1 grid * Smoothness.shape2 grid)%nat ->
  exists tv mse,
    Smoothness.smoothness_losses grid = (Fin tv, Fin mse) /\ 0 <= tv /\ 0 <= mse.
Proof.
  intros Hfin Hvox Hpairs.
  destruct (pixel_diffs_Forall is_finite is_finite grid) as [H1 [H2 H3]];
    [|assumption|].
  { intros a b Ha Hb. destruct (is_finite_inv a Ha) as [x ->].
    destruct (is_finite_inv b Hb) as [y ->]. exact I. }
  unfold Smoothness.smoothness_losses, Smoothness.total_variation_loss,
    Smoothness.mse_smoothness_loss, Smoothness.sum_all.
  assert (Habs : forall a, is_finite a -> exists r, tabs a = Fin r /\ 0 <= r).
  { intros a Ha. destruct (is_finite_inv a Ha) as [x ->].
    exists (Rabs x). split; [reflexivity | apply Rabs_pos]. }
  assert (Hsq : forall a, is_finite a -> exists r, Smoothness.tsquare a = Fin r /\ 0 <= r).
  { intros a Ha. destruct (is_finite_inv a Ha) as [x ->].
    exists (x * x). split; [reflexivity | nra]. }
  destruct (reduce_sum_nonneg _ (sum_all_map_Forall _ _ tabs _ Habs H1)) as [a1 [-> A1]].
  destruct (reduce_sum_nonneg _ (sum_all_map_Forall _ _ tabs _ Habs H2)) as [a2 [-> A2]].
  destruct (reduce_sum_nonneg _ (sum_all_map_Forall _ _ tabs _ Habs H3)) as [a3 [-> A3]].
  destruct (reduce_sum_nonneg _ (sum_all_map_Forall _ _ Smoothness.tsquare _ Hsq H1))
    as [b1 [-> B1]].
  destruct (reduce_sum_nonneg _ (sum_all_map_Forall _ _ Smoothness.tsquare _ Hsq H2))
    as [b2 [-> B2]].
  destruct (reduce_sum_nonneg _ (sum_all_map_Forall _ _ Smoothness.tsquare _ Hsq H3))
    as [b3 [-> B3]].
  set (s1 := Smoothness.shape1 grid) in *. set (s2 := Smoothness.shape2 grid) in *.
  set (s3 := Smoothness.shape3 grid) in *.
  assert (Hn : 0 < INR (s1 * s2 * s3)) by now apply lt_0_INR.
  assert (Hz := pixel_pairs_positive s1 s2 Hpairs).
  apply IZR_lt in Hz.
  cbv zeta. unfold tcast_nat. cbn [tadd tdiv]. rewrite !Reqb_false by lra.
  do 2 eexists. split; [reflexivity|].
  split; apply Rmult_le_pos; try lra; left; now apply Rinv_0_lt_compat.
Qed.

(** On a grid whose voxels all hold the same finite value both losses are
    zero, under the same conditions on the sizes; when the first two sizes
    are both 1 the normaliser of the neighbour MSE loss is zero and that loss
    is NaN. *)
Theorem smoothness_losses_constant (grid : Grid) (c : R) :
  Forall (Forall (Forall (fun v => v = Fin c))) grid ->
  (0 < Smoothness.shape1 grid * Smoothness.shape2 grid * Smoothness.shape3 grid)%nat ->
  ((2 <= Smoothness.shape1 grid * Smoothness.shape2 grid)%nat ->
   Smoothness.smoothness_losses grid = (Fin 0, Fin 0)) /\
  (Smoothness.shape1 grid = 1%nat -> Smoothness.shape2 grid = 1%nat ->
   Smoothness.smoothness_losses grid = (Fin 0, NaN)).
Proof.
  intros Hc Hvox.
  destruct (pixel_diffs_Forall (fun v => v = Fin c) (fun v => v = Fin 0) grid)
    as [H1 [H2 H3]]; [|assumption|].
  { intros a b -> ->. simpl. f_equal. lra. }
  unfold Smoothness.smoothness_losses, Smoothness.total_variation_loss,
    Smoothness.mse_smoothness_loss, Smoothness.sum_all.
  assert (Habs : forall a, a = Fin 0 -> tabs a = Fin 0).
  { intros a ->. simpl. f_equal. apply Rabs_R0. }
  assert (Hsq : forall a, a = Fin 0 -> Smoothness.tsquare a = Fin 0).
  { intros a ->. unfold Smoothness.tsquare. simpl. f_equal. lra. }
  rewrite !(reduce_sum_zero _ (sum_all_map_Forall _ _ tabs _ Habs H1)).
  rewrite !(reduce_sum_zero _ (sum_all_map_Forall _ _ tabs _ Habs H2)).
  rewrite !(reduce_sum_zero _ (sum_all_map_Forall _ _ tabs _ Habs H3)).
  rewrite !(reduce_sum_zero _ (sum_all_map_Forall _ _ Smoothness.tsquare _ Hsq H1)).
  rewrite !(reduce_sum_zero _ (sum_all_map_Forall _ _ Smoothness.tsquare _ Hsq H2)).
  rewrite !(reduce_sum_zero _ (sum_all_map_Forall _ _ Smoothness.tsquare _ Hsq H3)).
  set (s1 := Smoothness.shape1 grid) in *. set (s2 := Smoothness.shape2 grid) in *.
  set (s3 := Smoothness.shape3 grid) in *.
  assert (Hn : 0 < INR (s1 * s2 * s3)) by now apply lt_0_INR.
  cbv zeta. unfold tcast_nat. cbn [tadd tdiv]. rewrite (Reqb_false (INR _)) by lra.
  split.
  - intros Hpairs.
    assert (Hz := pixel_pairs_positive s1 s2 Hpairs).
    apply IZR_lt in Hz. rewrite Reqb_false by lra.
    f_equal; f_equal; field; lra.
  - intros E1 E2. rewrite E1, E2 in *. cbn [Z.of_nat Z.mul Z.sub Z.add Z.opp Pos.mul
      Z.pos_sub Pos.succ Pos.of_succ_nat Z.succ_double Z.pred_double Z.double].
    rewrite Reqb_true by reflexivity.
    unfold inf_of_sign. rewrite !Rltb_false by lra.
    f_equal. f_equal. field. lra.
Qed.

Lemma smoothness_losses_nonnegative_witness :
  exists tv mse,
    Smoothness.smoothness_losses [[[Fin 1]]; [[Fin 4]]] = (Fin tv, Fin mse) /\
    0 <= tv /\ 0 <= mse.
Proof.
  apply (smoothness_losses_nonnegative [[[Fin 1]]; [[Fin 4]]]).
  - repeat constructor.
  - simpl. lia.
  - simpl. lia.
Defined.

Lemma smoothness_losses_constant_witness :
  ((2 <= Smoothness.shape1 [[[Fin 1]]; [[Fin 1]]] *
         Smoothness.shape2 [[[Fin 1]]; [[Fin 1]]])%nat ->
   Smoothness.smoothness_losses [[[Fin 1]]; [[Fin 1]]] = (Fin 0, Fin 0)) /\
  (Smoothness.shape1 [[[Fin 1]]; [[Fin 1]]] = 1%nat ->
   Smoothness.shape2 [[[Fin 1]]; [[Fin 1]]] = 1%nat ->
   Smoothness.smoothness_losses [[[Fin 1]]; [[Fin 1]]] = (Fin 0, NaN)).
Proof.
  apply (smoothness_losses_constant [[[Fin 1]]; [[Fin 1]]] 1).
  - repeat constructor.
  - simpl. lia.
Defined.

(** ** The range of [l1_distance_norm] *)

Lemma squared_radius_Fin (c : list R) :
  reduce_sum (map2 tmul (map Fin c) (map Fin c)) =
    Fin (ReconSiren.Rsum (map (fun a => a * a) c)).
Proof.
  rewrite map2_map_same. rewrite <- reduce_sum_Fin. f_equal.
  now rewrite map_map.
Qed.

Lemma weighted_mass_bound (Rb : R) (rr : list R) :
  0 <= Rb -> Forall (fun r => 0 <= r <= Rb) rr ->
  forall v : list R,
    0 <= ReconSiren.Rsum (map Rabs (map2 Rmult rr v)) <=
      Rb * ReconSiren.Rsum (map Rabs v).
Proof.
  intros HRb. unfold map2. induction 1 as [|r rr [Hr0 Hr] _ IH]; intros [|x v];
    cbn [map combine fst snd ReconSiren.Rsum fold_right];
    change (fold_right Rplus 0) with ReconSiren.Rsum.
  - lra.
  - assert (H := Rsum_nonneg (map Rabs v)).
    assert (0 <= ReconSiren.Rsum (map Rabs v)).
    { apply H, Forall_map, Forall_forall. intros y _. simpl. apply Rabs_pos. }
    assert (0 <= Rabs x) by apply Rabs_pos. nra.
  - lra.
  - specialize (IH v). rewrite Rabs_mult, (Rabs_pos_eq r) by assumption.
    assert (0 <= Rabs x) by apply Rabs_pos. nra.
Qed.

Lemma Forall2_map_self {A B : Type} (P : A -> B -> Prop) (f : A -> B) (l : list A) :
  (forall a, P a (f a)) -> Forall2 P l (map f l).
Proof. intros H. induction l; simpl; constructor; auto. Qed.

Lemma for_each_ok_map {A B : Type} (f : A -> result B) (h : A -> B) (l : list A) :
  Forall (fun a => f a = Ok (h a)) l -> for_each f l = Ok (map h l).
Proof.
  induction 1 as [|a l Ha _ IH]; [reflexivity|].
  cbn [for_each map]. now rewrite Ha, IH.
Qed.

(** For finite coordinates with at least one axis and a batch of finite
    volumes with one value per voxel: the factors are returned, a volume with
    a nonzero total mass gets a finite factor between 0 and [0.01 * Rb / d],
    with [d] the number of axes and [Rb] a bound on the squared radii of the
    voxels, and a volume that is zero everywhere gets NaN. *)
Theorem l1_distance_norm_range (vs cs : list (list R)) (Rb : R) :
  cs <> [] -> hd [] cs <> [] ->
  Forall (fun c => ReconSiren.Rsum (map (fun a => a * a) c) <= Rb) cs ->
  Forall (fun v => List.length v = List.length cs) vs ->
  exists outs : list tfloat,
    ReconSirenMore.l1_distance_norm (map (map Fin) vs) (map (map Fin) cs) = Ok outs /\
    Forall2 (fun v l =>
               (ReconSiren.Rsum (map Rabs v) <> 0 ->
                exists x, l = Fin x /\
                          0 <= x <= 0.01 * Rb / INR (List.length (hd [] cs))) /\
               (ReconSiren.Rsum (map Rabs v) = 0 -> l = NaN))
            vs outs.
Proof.
  intros Hcs Hdim Hb Hlen. unfold ReconSirenMore.l1_distance_norm.
  assert (Hr : map (fun c => reduce_sum (map2 tmul c c)) (map (map Fin) cs) =
               map Fin (map (fun c => ReconSiren.Rsum (map (fun a => a * a) c)) cs)).
  { rewrite !map_map. apply map_ext. intros c. apply squared_radius_Fin. }
  rewrite Hr.
  set (rr := map (fun c => ReconSiren.Rsum (map (fun a => a * a) c)) cs).
  assert (Hrlen : List.length rr = List.length cs) by (unfold rr; apply length_map).
  assert (Hrr : Forall (fun r => 0 <= r <= Rb) rr).
  { unfold rr. apply Forall_map. eapply Forall_impl; [|exact Hb].
    intros c Hc. simpl. split; [apply Rsum_squares_nonneg | exact Hc]. }
  assert (HRb : 0 <= Rb).
  { destruct cs as [|c cs']; [congruence|]. inversion Hrr; subst. lra. }
  replace (List.length (hd [] (map (map Fin) cs))) with (List.length (hd [] cs))
    by (destruct cs; [reflexivity | simpl; now rewrite length_map]).
  assert (Hd : 0 < INR (List.length (hd [] cs))).
  { apply lt_0_INR. destruct (hd [] cs); [congruence | simpl; lia]. }
  set (d := INR (List.length (hd [] cs))) in *.
  set (factor := fun v : list R =>
         tdiv (tmul (Fin 0.01) (Fin (ReconSiren.Rsum (map Rabs (map2 Rmult rr v)))))
              (tmul (tcast_nat (List.length (hd [] cs))) (Fin (ReconSiren.Rsum (map Rabs v))))).
  exists (map factor vs). split.
  - rewrite (for_each_ok_map _ (fun volume =>
               tdiv (tmul (Fin 0.01)
                       (reduce_sum (map tabs (map2 tmul (map Fin rr) volume))))
                    (tmul (tcast_nat (List.length (hd [] cs)))
                       (reduce_sum (map tabs volume))))).
    + rewrite map_map. f_equal. apply map_ext. intros v. unfold factor.
      now rewrite map2_tmul_Fin, !map_tabs_Fin, !reduce_sum_Fin.
    + apply Forall_map. eapply Forall_impl; [|exact Hlen]. intros v Hv. cbv beta zeta.
      unfold ReconSirenMore.broadcast_mul.
      rewrite !length_map, Hrlen, Hv, Nat.eqb_refl. reflexivity.
  - apply Forall2_map_self. intros v. unfold factor.
    destruct (weighted_mass_bound Rb rr HRb Hrr v) as [HL0 HL].
    assert (Hmass : 0 <= ReconSiren.Rsum (map Rabs v)).
    { apply Rsum_nonneg, Forall_map, Forall_forall. intros y _. simpl. apply Rabs_pos. }
    set (L := ReconSiren.Rsum (map Rabs (map2 Rmult rr v))) in *.
    set (mass := ReconSiren.Rsum (map Rabs v)) in *.
    unfold tcast_nat. fold d. cbn [tmul tdiv].
    split.
    + intros Hm. assert (Hmp : 0 < mass) by lra.
      assert (Hdm : 0 < d * mass) by now apply Rmult_lt_0_compat.
      rewrite Reqb_false by lra.
      exists (0.01 * L / (d * mass)). split; [reflexivity|]. split.
      * apply Rmult_le_pos; [lra | left; now apply Rinv_0_lt_compat].
      * apply Rmult_le_reg_r with (d * mass); [assumption|].
        replace (0.01 * L / (d * mass) * (d * mass)) with (0.01 * L) by (field; lra).
        replace (0.01 * Rb / d * (d * mass)) with (0.01 * (Rb * mass)) by (field; lra).
        lra.
    + intros Hm. rewrite Hm in *.
      rewrite Reqb_true by lra.
      unfold inf_of_sign. rewrite !Rltb_false by lra. reflexivity.
Qed.

Lemma l1_distance_norm_range_witness :
  exists outs : list tfloat,
    ReconSirenMore.l1_distance_norm (map (map Fin) [[2; 5]; [0; 0]])
      (map (map Fin) [[1; 1; 1]; [0; 0; 0]]) = Ok outs /\
    Forall2 (fun v l =>
               (ReconSiren.Rsum (map Rabs v) <> 0 ->
                exists x, l = Fin x /\
                          0 <= x <= 0.01 * 3 / INR (List.length (hd [] [[1; 1; 1]; [0; 0; 0]]))) /\
               (ReconSiren.Rsum (map Rabs v) = 0 -> l = NaN))
            [[2; 5]; [0; 0]] outs.
Proof.
  apply (l1_distance_norm_range [[2; 5]; [0; 0]] [[1; 1; 1]; [0; 0; 0]] 3).
  - discriminate.
  - discriminate.
  - repeat constructor; simpl; lra.
  - repeat constructor.
Defined.

(** ** Which head [predict_step] keeps *)

Lemma running_argmin_last_minimum {P : Type} (init c : tfloat * P)
    (pre post : list (tfloat * P)) :
  tless_equal (fst c) (fst init) = true ->
  Forall (fun c' => tless (fst c') (fst c) = false) pre ->
  Forall (fun c' => tless_equal (fst c') (fst c) = false) post ->
  running_argmin init (pre ++ c :: post) = c.
Proof.
  intros Hle Hpre Hpost.
  destruct (tle_not_nan _ _ Hle) as [Hc Hinit].
  destruct (running_argmin_inv pre init Hinit) as [Hnan [_ [_ Hwhere]]].
  unfold running_argmin in *. rewrite fold_left_app. cbn [fold_left].
  set (acc := fold_left
                (fun acc0 c0 => if tless_equal (fst c0) (fst acc0) then c0 else acc0)
                pre init) in *.
  assert (Hca : tless_equal (fst c) (fst acc) = true).
  { destruct Hwhere as [Hin | [-> _]]; [|exact Hle].
    apply tnot_less_le; try assumption.
    rewrite Forall_forall in Hpre. now apply Hpre. }
  rewrite Hca. now apply running_argmin_none.
Qed.

Section WhichHead.

Variable dev : ReconSiren.Device.
Variable gramSchmidt : list (list tfloat) -> list (list (list tfloat)).
Variable gaussian_filter2d : list Image -> list Image.
Variable ctfFilterImage : list Image -> list Image.
Variable wiener2DFilter : list Image -> list Image.
Variable mse : list Image -> list Image -> list tfloat.
Variable self : ReconSiren.AutoEncoder.
Variable g : ReconSiren.Generator.

(** For an element of the batch, [predict_step] keeps the pose, the shift
    and the image of the last head whose loss is minimal: the head whose loss
    is at most 10000, with no earlier head strictly below it and no later
    head at or below it.  Among heads with equal losses the later one is
    kept, and a head with a NaN loss is never kept. *)
Theorem predict_step_keeps_last_minimum (images : list Image)
    (pre post : list ReconSiren.Candidate) (c : ReconSiren.Candidate) (b : nat) :
  ReconSiren.predict_candidates dev gramSchmidt gaussian_filter2d ctfFilterImage
    wiener2DFilter mse self g images = Ok (pre ++ c :: post) ->
  Forall (candidate_shape (List.length images)) (pre ++ c :: post) ->
  (b < List.length images)%nat ->
  tless_equal (nth b (ReconSiren.cand_loss c) NaN) (Fin 10000) = true ->
  Forall (fun c' => tless (nth b (ReconSiren.cand_loss c') NaN)
                          (nth b (ReconSiren.cand_loss c) NaN) = false) pre ->
  Forall (fun c' => tless_equal (nth b (ReconSiren.cand_loss c') NaN)
                                (nth b (ReconSiren.cand_loss c) NaN) = false) post ->
  exists r s im,
    ReconSiren.predict_step dev gramSchmidt gaussian_filter2d ctfFilterImage
      wiener2DFilter mse self g images = Ok (r, s, im) /\
    nth b r [] = nth b (ReconSiren.cand_r c) [] /\
    nth b s [] = nth b (ReconSiren.cand_shifts c) [] /\
    nth b im [] = nth b (ReconSiren.cand_imgs c) [].
Proof.
  intros Hc Hshape Hb Hle Hpre Hpost.
  unfold ReconSiren.predict_candidates in Hc. unfold ReconSiren.predict_step.
  rewrite (candidates_loop_fold _ _ _ _ _ _ _ _ _ _ _ _ _ Hc). simpl.
  do 3 eexists. split; [reflexivity|].
  pose proof (fold_keep_best_at (List.length images) b (pre ++ c :: post)
                (ReconSiren.initial_kept g (List.length images))
                (initial_kept_shape _ _) Hshape Hb) as Hat.
  rewrite map_app in Hat. cbn [map] in Hat.
  rewrite running_argmin_last_minimum in Hat.
  - unfold kept_at, candidate_at in Hat. injection Hat as _ E2 E3 E4.
    repeat split; assumption.
  - rewrite initial_kept_loss by assumption. exact Hle.
  - apply Forall_map. exact Hpre.
  - apply Forall_map. exact Hpost.
Qed.

End WhichHead.

Lemma predict_step_keeps_last_minimum_witness :
  exists r s im,
    ReconSiren.predict_step ReconSiren.CPU Samples.recon_gramSchmidt (fun imgs => imgs)
      (fun imgs => imgs) (fun imgs => imgs) Samples.recon_mse
      Samples.recon_autoencoder Samples.recon_generator [[[Fin 2]]] = Ok (r, s, im) /\
    nth 0 r [] = nth 0 [Samples.identity3] [] /\
    nth 0 s [] = nth 0 [[Fin 0; Fin 0]] [] /\
    nth 0 im [] = nth 0 [[[Fin 1]]] [].
Proof.
  apply (predict_step_keeps_last_minimum ReconSiren.CPU Samples.recon_gramSchmidt
           (fun imgs => imgs) (fun imgs => imgs) (fun imgs => imgs) Samples.recon_mse
           Samples.recon_autoencoder Samples.recon_generator [[[Fin 2]]] [] []
           (ReconSiren.mkCandidate [Samples.identity3] [[Fin 0; Fin 0]] [[[Fin 1]]]
              [Fin ((2 - 1) ^ 2)]) 0).
  - apply sample_predict_candidates.
  - repeat constructor.
  - simpl. lia.
  - simpl. apply Rleb_true. lra.
  - constructor.
  - constructor.
Defined.

(** ** The negative-density term of reconsiren.py *)

(** The negative-density term of [decode_images_with_loss] is never a
    positive penalty.  It is 0 when [only_pos] is set.  When it is not set,
    the factor [tf.cast(self.only_pos, tf.float32)] is 0: the term is 0 when
    the finite density has a negative entry, and NaN (0 times the mean of an
    empty tensor) when the density has no negative entry. *)
Theorem reconsiren_neg_loss_het_values (only_pos : bool) (l1_lambda : R)
    (values : list (list tfloat)) :
  (only_pos = true ->
   ReconSirenMore.neg_loss_het only_pos (Fin l1_lambda) values = Fin 0) /\
  (only_pos = false ->
   Forall (Forall is_finite) values ->
   Exists (Exists (fun x => tless x (Fin 0) = true)) values ->
   ReconSirenMore.neg_loss_het only_pos (Fin l1_lambda) values = Fin 0) /\
  (only_pos = false ->
   Forall (Forall (fun x => tless x (Fin 0) = false)) values ->
   ReconSirenMore.neg_loss_het only_pos (Fin l1_lambda) values = NaN).
Proof.
  unfold ReconSirenMore.neg_loss_het. repeat split.
  - intros ->. reflexivity.
  - intros -> Hfin Hex. cbn [negb]. cbv zeta.
    rewrite concat_map_map, boolean_mask_filter.
    set (neg := filter (fun x => tless x (Fin 0)) (concat values)).
    assert (Hnf : Forall is_finite neg).
    { unfold neg. apply Forall_forall. intros x Hx. apply filter_In in Hx.
      destruct Hx as [Hx _]. apply Forall_concat_intro in Hfin.
      rewrite Forall_forall in Hfin. now apply Hfin. }
    destruct (finite_list_inv neg Hnf) as [negs Hnegs].
    assert (Hne : negs <> []).
    { intros ->. simpl in Hnegs.
      apply Exists_exists in Hex. destruct Hex as [row [Hrow Hex]].
      apply Exists_exists in Hex. destruct Hex as [x [Hx Hneg]].
      assert (Hin : In x neg).
      { unfold neg. apply filter_In. split; [|exact Hneg].
        apply in_concat. exists row. now split. }
      rewrite Hnegs in Hin. destruct Hin. }
    rewrite Hnegs, map_tabs_Fin, reduce_mean_Fin
      by (destruct negs; [congruence | discriminate]).
    simpl. f_equal. ring.
  - intros -> Hnone. cbn [negb]. cbv zeta.
    rewrite concat_map_map, boolean_mask_filter.
    replace (filter (fun x => tless x (Fin 0)) (concat values)) with (@nil tfloat).
    + cbn [map]. rewrite reduce_mean_nil. apply tmul_nan_r.
    + symmetry. apply Forall_concat_intro in Hnone.
      induction Hnone as [|x l Hx _ IH]; simpl; [reflexivity|].
      now rewrite Hx.
Qed.

Lemma reconsiren_neg_loss_het_values_witness :
  (false = true ->
   ReconSirenMore.neg_loss_het false (Fin 0.5) [[Fin 1; Fin (-2)]] = Fin 0) /\
  (false = false ->
   Forall (Forall is_finite) [[Fin 1; Fin (-2)]] ->
   Exists (Exists (fun x => tless x (Fin 0) = true)) [[Fin 1; Fin (-2)]] ->
   ReconSirenMore.neg_loss_het false (Fin 0.5) [[Fin 1; Fin (-2)]] = Fin 0) /\
  (false = false ->
   Forall (Forall (fun x => tless x (Fin 0) = false)) [[Fin 1; Fin (-2)]] ->
   ReconSirenMore.neg_loss_het false (Fin 0.5) [[Fin 1; Fin (-2)]] = NaN).
Proof.
  apply (reconsiren_neg_loss_het_values false 0.5 [[Fin 1; Fin (-2)]]).
Defined.
